(** * Bio.Phylo.CDAOIO: the RDF/CDAO tree writer and parser

    A shallow embedding of [Bio/Phylo/CDAOIO.py] and the properties its
    specification states about it.

    Conventions of the embedding:
    - Python [str] is [string]; a Python [dict] keyed by strings is a
      [gmap string _], except [RDF_NAMESPACES], which the code iterates
      over and which is therefore kept as an association list (the list
      order stands for the dictionary's iteration order; the results that
      depend on it are proved for every order);
    - the counters of a [Writer] are [nat] (Python integers do not wrap);
    - a raised exception is the [Raise] case of [result]; a generator is
      the list of the values it yields together with the exception that
      ended it, if any;
    - the Redland triple store is the list of the statements appended to
      it, and a SPARQL [SELECT] is the list of its solution rows. *)

From Stdlib Require Import Ascii String.
From stdpp Require Import base tactics option list strings gmap pretty.

Local Open Scope stdpp_scope.
Set Warnings "-register-all".

(** ** Exceptions *)

Inductive exn : Type :=
  | KeyError (key : string)
  | ValueError (msg : string)
  | AttributeError (attr : string)
  | CDAOError (msg : string)
  | Exception (msg : string)
  | NodeTypeError
  | RuntimeError (msg : string).

Inductive result (A : Type) : Type :=
  | Ok (a : A)
  | Raise (e : exn).
Arguments Ok {A} a.
Arguments Raise {A} e.

Global Instance result_ret : MRet result := λ A a, Ok a.

Global Instance result_bind : MBind result := λ A B k m,
  match m with
  | Ok a => k a
  | Raise e => Raise e
  end.

Global Instance result_fmap : FMap result := λ A B f m,
  match m with
  | Ok a => Ok (f a)
  | Raise e => Raise e
  end.

(** ** Strings *)

(** [s.replace(old, new)] of Python: the occurrences of [old] in [s] are
    found from left to right, without overlap, and each is replaced by
    [new].  [skip] counts the characters of a matched occurrence that are
    still to be dropped.  The case [old = ""] (which inserts [new] around
    every character) is [intersperse]. *)
Fixpoint replace_from (skip : nat) (old new s : string) : string :=
  match s with
  | "" => ""
  | String c s' =>
      match skip with
      | S k => replace_from k old new s'
      | 0 =>
          if String.prefix old s
          then new +:+ replace_from (String.length old - 1) old new s'
          else String c (replace_from 0 old new s')
      end
  end.

Fixpoint intersperse (new s : string) : string :=
  match s with
  | "" => new
  | String c s' => new +:+ String c (intersperse new s')
  end.

Definition replace (old new s : string) : string :=
  match old with
  | "" => intersperse new s
  | _ => replace_from 0 old new s
  end.

(** ** RDF terms and statements *)

(** A node of the Redland model: [RDF.Uri(s)], or the literal that
    [RDF.Statement] makes of a plain Python string. *)
Inductive rdf_node : Type :=
  | Uri (s : string)
  | Literal (s : string).

Global Instance rdf_node_eq_dec : EqDecision rdf_node.
Proof. solve_decision. Defined.

Record statement : Type := Statement {
  subject : rdf_node;
  predicate : rdf_node;
  object : rdf_node
}.

Global Instance statement_eq_dec : EqDecision statement.
Proof. solve_decision. Defined.

(** ** Namespaces *)

Definition RDF_NAMESPACES : list (string * string) :=
  [ ("owl", "http://www.w3.org/2002/07/owl#");
    ("cdao", "http://purl.obolibrary.org/obo/cdao.owl#");
    ("rdf", "http://www.w3.org/1999/02/22-rdf-syntax-ns#") ].

(** [urls[key]] for a key of the table; the code only uses the three keys
    above. *)
Fixpoint urls_get (urls : list (string * string)) (key : string) : string :=
  match urls with
  | [] => ""
  | (k, v) :: rest => if decide (k = key) then v else urls_get rest key
  end.

(** The loop of [qUri]: [for url in self.urls: s = s.replace(url+':', self.urls[url])]. *)
Definition qUri_loop (urls : list (string * string)) (s : string) : string :=
  foldl (λ acc kv, replace (kv.1 +:+ ":") (urls_get urls kv.1) acc) s urls.

Definition qUri_in (urls : list (string * string)) (s : string) : rdf_node :=
  Uri (qUri_loop urls s).

Definition qUri (s : string) : rdf_node := qUri_in RDF_NAMESPACES s.

Definition nUri (base_uri s : string) : rdf_node := Uri (base_uri +:+ s).

(** The loop of [qUri] in one pass, whatever the order of the
    dictionary: going through the text from the left, the text [p:] of a
    key [p] is replaced by the base URI of [p] wherever it starts, also
    inside a longer word, as [str.replace] finds it; all other text is
    kept.  This is a form of the code, not the reading of the
    specification, which speaks of prefix tokens ([prefix_token] below). *)
Fixpoint expand_from (skip : nat) (urls : list (string * string)) (s : string) : string :=
  match s with
  | "" => ""
  | String c s' =>
      match skip with
      | S k => expand_from k urls s'
      | 0 =>
          match List.find (λ kv, String.prefix (kv.1 +:+ ":") s) urls with
          | Some (p, u) => u +:+ expand_from (String.length p) urls s'
          | None => String c (expand_from 0 urls s')
          end
      end
  end.

Definition expand (s : string) : string := expand_from 0 RDF_NAMESPACES s.

(** Following the words of the specification ([expand(prefixed_name)]:
    "every recognized prefix token followed by [:]", "unknown prefixes are
    left as literal text"): the prefix token of a prefixed name is the text
    before its first colon, and it is recognised when it is a key of the
    table. *)
Fixpoint prefix_token (s : string) : option string :=
  match s with
  | "" => None
  | String c s' =>
      if decide (c = ":"%char) then Some "" else String c <$> prefix_token s'
  end.

Definition recognized (p : string) : bool :=
  bool_decide (p ∈ RDF_NAMESPACES.*1).

(** ** Trees *)

(** Python floats are kept abstract: the embedding only needs [str(x)]
    and [float(s)], the latter failing with [ValueError] ([None] here) on
    text that is not a number. *)
Class PyFloat : Type := {
  float : Type;
  float_str : float → string;
  float_parse : string → option float
}.

Section CDAOIO.
Context `{PyFloat}.

(** Modelled from the spec: [Bio.Phylo.Newick.Clade] and [Newick.Tree],
    which are not part of the source under study.  A clade has an optional
    name, an optional branch length and an ordered sequence of children;
    the constructor, called with keyword arguments, leaves an attribute that
    is not given absent; a tree
    is its root clade and the [rooted] flag. *)
Inductive clade : Type :=
  Clade (name : option string) (branch_length : option float) (clades : list clade).

Definition name (c : clade) : option string :=
  let 'Clade n _ _ := c in n.
Definition branch_length (c : clade) : option float :=
  let 'Clade _ b _ := c in b.
Definition clades (c : clade) : list clade :=
  let 'Clade _ _ cs := c in cs.

(** Modelled from the spec: [clade.is_terminal()], true when the child
    sequence is empty. *)
Definition is_terminal (c : clade) : bool :=
  match clades c with [] => true | _ => false end.

Record tree : Type := Tree { root : clade; rooted : bool }.

(** The truth value of a name: neither [None] nor the empty string. *)
Definition truthy (nm : option string) : option string :=
  match nm with
  | Some "" => None
  | n => n
  end.

(** [clade.name], when [if clade.name:] takes it for true. *)
Definition name_present (c : clade) : option string := truthy (name c).

(** [str(clade.branch_length)]; [str(None)] is the text [None]. *)
Definition str_branch_length (b : option float) : string :=
  match b with
  | Some x => float_str x
  | None => "None"
  end.

(** ** The environment: Redland and the file system *)

Record redland : Type := Redland {
  rdf_importable : bool;
  storage_created : bool;
  model_created : bool;
  parser_created : string → bool;
  parse_string_as_stream : string → string → rdf_node → result (list statement);
  serialize_model_to_string :
    string → list (string * string) → list statement → result string;
  abspath : string → string
}.

Definition import_rdf (env : redland) : result () :=
  if rdf_importable env then Ok ()
  else Raise (CDAOError "Redland Python bindings are required for CDAO support.").

Definition new_storage (env : redland) : result () :=
  _ ← import_rdf env;
  if storage_created env then Ok () else Raise (CDAOError "new RDF.Storage failed").

(** ** Output *)

Record writer : Type := Writer {
  trees : list tree;
  model : option (list statement);
  base_uri : string;
  node_counter : nat;
  edge_counter : nat;
  tree_counter : nat;
  tu_counter : nat
}.

(** [Writer(trees)].  The attribute [base_uri] is created by
    [add_trees_to_model], the only caller of [process_clade]. *)
Definition Writer_init (ts : list tree) : writer :=
  Writer ts None "" 0 0 0 0.

Definition set_base_uri (b : string) (w : writer) : writer :=
  Writer (trees w) (model w) b
         (node_counter w) (edge_counter w) (tree_counter w) (tu_counter w).
Definition set_model (m : list statement) (w : writer) : writer :=
  Writer (trees w) (Some m) (base_uri w)
         (node_counter w) (edge_counter w) (tree_counter w) (tu_counter w).
Definition incr_node (w : writer) : writer :=
  Writer (trees w) (model w) (base_uri w)
         (S (node_counter w)) (edge_counter w) (tree_counter w) (tu_counter w).
Definition incr_edge (w : writer) : writer :=
  Writer (trees w) (model w) (base_uri w)
         (node_counter w) (S (edge_counter w)) (tree_counter w) (tu_counter w).
Definition incr_tree (w : writer) : writer :=
  Writer (trees w) (model w) (base_uri w)
         (node_counter w) (edge_counter w) (S (tree_counter w)) (tu_counter w).
Definition incr_tu (w : writer) : writer :=
  Writer (trees w) (model w) (base_uri w)
         (node_counter w) (edge_counter w) (tree_counter w) (S (tu_counter w)).

(** ['node%s' % n] and the like. *)
Definition node_uri (n : nat) : string := "node" +:+ pretty n.
Definition edge_uri (n : nat) : string := "edge" +:+ pretty n.
Definition edge_ann_uri (n : nat) : string := "edge_annotation" +:+ pretty n.
Definition tree_uri (n : nat) : string := "tree" +:+ pretty n.
Definition tu_uri (n : nat) : string := "tu" +:+ pretty n.

(** The statements that [process_clade] collects in its local list
    [statements] for one clade, before it recurses: [parent] is
    [parent.uri] when a parent is passed.  Returns the statements, the
    [uri] given to the clade and the writer with its counters advanced. *)
Definition clade_statements (clade0 : clade) (parent : option string) (is_root : bool)
    (w : writer) : list statement * string * writer :=
  let w := incr_node w in
  let uri := node_uri (node_counter w) in
  let b := base_uri w in
  let '(st_root, w) :=
    if is_root then
      let w := incr_tree w in
      let t := tree_uri (tree_counter w) in
      ([ Statement (nUri b t) (qUri "rdf:type") (qUri "cdao:RootedTree");
         Statement (nUri b t) (qUri "cdao:has_root") (nUri b uri) ], w)
    else ([], w) in
  let '(st_tu, w) :=
    match name_present clade0 with
    | Some nm =>
        let w := incr_tu w in
        let tu := tu_uri (tu_counter w) in
        ([ Statement (nUri b tu) (qUri "rdf:type") (qUri "cdao:TU");
           Statement (nUri b uri) (qUri "cdao:represents_TU") (nUri b tu);
           Statement (nUri b tu) (qUri "rdf:label") (Literal nm) ], w)
    | None => ([], w)
    end in
  let node_type :=
    if is_terminal clade0 then "cdao:TerminalNode" else "cdao:AncestralNode" in
  let st_node := [ Statement (nUri b uri) (qUri "rdf:type") (qUri node_type) ] in
  let '(st_edge, w) :=
    match parent with
    | Some parent_uri =>
        let w := incr_edge w in
        let e := edge_uri (edge_counter w) in
        let a := edge_ann_uri (edge_counter w) in
        ([ Statement (nUri b e) (qUri "rdf:type") (qUri "cdao:Directed_Edge");
           Statement (nUri b e) (qUri "cdao:has_Parent_Node") (nUri b parent_uri);
           Statement (nUri b e) (qUri "cdao:has_Child_Node") (nUri b uri);
           Statement (nUri b uri) (qUri "cdao:belongs_to_Edge_as_Child") (nUri b e);
           Statement (nUri b uri) (qUri "cdao:has_Parent") (nUri b parent_uri);
           Statement (nUri b parent_uri) (qUri "cdao:belongs_to_Edge_as_Parent") (nUri b e);
           Statement (nUri b a) (qUri "rdf:type") (qUri "cdao:EdgeLength");
           Statement (nUri b e) (qUri "cdao:has_annotation") (nUri b a);
           Statement (nUri b a) (qUri "cdao:has_value")
                     (Literal (str_branch_length (branch_length clade0))) ], w)
    | None => ([], w)
    end in
  (st_root ++ st_tu ++ st_node ++ st_edge, uri, w).

(** [process_clade]: the clade's own statements, then those of its
    children, from the left, each with this clade as its parent.  The
    generator is run to its end, as [add_trees_to_model] does. *)
Fixpoint process_clade (clade0 : clade) (parent : option string) (is_root : bool)
    (w : writer) : list statement * writer :=
  let '(statements, uri, w) := clade_statements clade0 parent is_root w in
  let fix children (cs : list clade) (w : writer) : list statement * writer :=
    match cs with
    | [] => ([], w)
    | new_clade :: cs' =>
        let '(s1, w) := process_clade new_clade (Some uri) false w in
        let '(s2, w) := children cs' w in
        (s1 ++ s2, w)
    end in
  if is_terminal clade0 then (statements, w)
  else
    let '(below, w) := children (clades clade0) w in
    (statements ++ below, w).

(** The loop [for tree in trees] of [add_trees_to_model]. *)
Fixpoint process_trees (ts : list tree) (w : writer) : list statement * writer :=
  match ts with
  | [] => ([], w)
  | t :: ts' =>
      let '(s1, w) := process_clade (root t) None true w in
      let '(s2, w) := process_trees ts' w in
      (s1 ++ s2, w)
  end.

Definition ontology_statement : statement :=
  Statement (Uri (urls_get RDF_NAMESPACES "cdao")) (qUri "rdf:type") (qUri "owl:Ontology").

(** [add_trees_to_model(trees=None, storage=None, base_uri=...)]; the
    argument [ts] is the keyword [trees]. *)
Definition add_trees_to_model (env : redland) (ts : option (list tree))
    (base : string) (w : writer) : result writer :=
  _ ← import_rdf env;
  let w := set_base_uri base w in
  let ts := default (trees w) ts in
  _ ← new_storage env;
  m ← match model w with
      | Some m => Ok m
      | None => if model_created env then Ok [] else Raise (CDAOError "new RDF.model failed")
      end;
  let m := m ++ [ontology_statement] in
  let '(stmts, w) := process_trees ts w in
  Ok (set_model (m ++ stmts) w).

(** [serialize_model(handle, mime_type)]: writes to the handle and
    returns [self.tree_counter]. *)
Definition serialize_model (env : redland) (handle : string) (mime_type : string)
    (w : writer) : result (string * nat) :=
  _ ← import_rdf env;
  text ← serialize_model_to_string env mime_type RDF_NAMESPACES (default [] (model w));
  Ok (handle +:+ text, tree_counter w).

(** What a Python call returns: a number, or [None] when the body ends
    without a [return] statement. *)
Inductive returned : Type :=
  | ReturnNone
  | ReturnInt (n : nat).

Record write_kwargs : Type := WriteKwargs {
  wk_mime_type : option string;
  wk_base_uri : option string
}.

(** [Writer.write(handle, **kwargs)]: the value of [serialize_model] is
    dropped and the body ends without [return]. *)
Definition Writer_write (env : redland) (handle : string) (kw : write_kwargs)
    (w : writer) : result (writer * string * returned) :=
  _ ← import_rdf env;
  let mime_type := default "text/turtle" (wk_mime_type kw) in
  let base := default "" (wk_base_uri kw) in
  w ← add_trees_to_model env None base w;
  '(handle, _) ← serialize_model env handle mime_type w;
  Ok (w, handle, ReturnNone).

(** The module-level [write(trees, handle, plain=False, **kwargs)]. *)
Definition write (env : redland) (ts : list tree) (handle : string) (kw : write_kwargs)
    : result (string * returned) :=
  '(_, handle, r) ← Writer_write env handle kw (Writer_init ts);
  Ok (handle, r).

(** ** Input *)

(** *** The SPARQL engine

    Redland's query engine is outside the source; its answers are
    modelled by evaluating the two fixed queries of the parser over the
    list of statements of the model.  A triple pattern matches a statement
    of the model; a pattern blank node ([[ ... ]]) is a variable of its
    own; [OPTIONAL] is a left join.  SPARQL fixes no order of the solution
    rows: the engine may answer any permutation of the rows computed
    here ([sparql_answer]). *)

Definition objects_of (m : list statement) (s p : rdf_node) : list rdf_node :=
  object <$> filter (λ st, subject st = s ∧ predicate st = p) m.

Definition subjects_of (m : list statement) (p o : rdf_node) : list rdf_node :=
  subject <$> filter (λ st, predicate st = p ∧ object st = o) m.

(** [PREFIX cdao: <%s>] and [PREFIX rdf: <%s>], filled from [self.urls];
    the keyword [a] of SPARQL is [rdf:type] of the RDF syntax namespace. *)
Definition cdao (local_name : string) : rdf_node :=
  Uri (urls_get RDF_NAMESPACES "cdao" +:+ local_name).
Definition rdf (local_name : string) : rdf_node :=
  Uri (urls_get RDF_NAMESPACES "rdf" +:+ local_name).
Definition sparql_a : rdf_node :=
  Uri "http://www.w3.org/1999/02/22-rdf-syntax-ns#type".

Record node_row : Type := NodeRow {
  row_node : rdf_node;
  row_parent_node : option rdf_node;
  row_branch_length : option rdf_node;
  row_label : option rdf_node
}.

(** [{ ?node a cdao:AncestralNode } UNION { ?node a cdao:TerminalNode }] *)
Definition node_pattern (m : list statement) : list rdf_node :=
  subjects_of m sparql_a (cdao "AncestralNode")
  ++ subjects_of m sparql_a (cdao "TerminalNode").

(** The first [OPTIONAL] group: [?node cdao:has_Parent ?parent_node ;
    cdao:belongs_to_Edge_as_Child [ cdao:has_annotation [ a cdao:EdgeLength ;
    cdao:has_value ?branch_length ] ]]. *)
Definition parent_pattern (m : list statement) (node : rdf_node)
    : list (rdf_node * rdf_node) :=
  parent_node ← objects_of m node (cdao "has_Parent");
  edge ← objects_of m node (cdao "belongs_to_Edge_as_Child");
  ann ← objects_of m edge (cdao "has_annotation");
  _ ← filter (λ o, o = cdao "EdgeLength") (objects_of m ann sparql_a);
  value ← objects_of m ann (cdao "has_value");
  [(parent_node, value)].

(** The second [OPTIONAL] group: [?node cdao:represents_TU [ rdf:label ?label ]]. *)
Definition label_pattern (m : list statement) (node : rdf_node) : list rdf_node :=
  tu ← objects_of m node (cdao "represents_TU");
  objects_of m tu (rdf "label").

(** The answers of an [OPTIONAL] group: unbound when it has no match. *)
Definition optional {A : Type} (matches : list A) : list (option A) :=
  match matches with
  | [] => [None]
  | _ => Some <$> matches
  end.

Definition node_query (m : list statement) : list node_row :=
  node ← node_pattern m;
  pv ← optional (parent_pattern m node);
  lbl ← optional (label_pattern m node);
  [NodeRow node (fst <$> pv) (snd <$> pv) lbl].

(** [?tree a cdao:RootedTree ; cdao:has_root ?root_node], projected on
    [root_node], the only variable the parser reads. *)
Definition root_query (m : list statement) : list rdf_node :=
  t ← subjects_of m sparql_a (cdao "RootedTree");
  objects_of m t (cdao "has_root").

Definition sparql_answer {A : Type} (solutions answer : list A) : Prop :=
  answer ≡ₚ solutions.

(** *** The parser *)

(** [node.uri], [node.literal_value['string']] and [str(node)] of a
    Redland node. *)
Definition node_get_uri (n : rdf_node) : result string :=
  match n with
  | Uri s => Ok s
  | Literal _ => Raise NodeTypeError
  end.
Definition node_literal_value (n : rdf_node) : result string :=
  match n with
  | Literal s => Ok s
  | Uri _ => Raise NodeTypeError
  end.
Definition node_str (n : rdf_node) : string :=
  match n with
  | Uri s => s
  | Literal s => s
  end.

(** [float(s)] *)
Definition to_float (s : string) : result float :=
  match float_parse s with
  | Some x => Ok x
  | None => Raise (ValueError s)
  end.

(** An entry of [self.node_info]: a dictionary with the optional keys
    ['label'] and ['branch_length']. *)
Record node_record : Type := NodeRecord {
  rec_label : option string;
  rec_branch_length : option float
}.

Record in_handle : Type := InHandle {
  handle_name : option string;
  handle_text : string
}.

Record parser : Type := Parser {
  handle : in_handle;
  p_model : option (list statement);
  node_info : option (gmap string node_record);
  parents : gmap string (list string);
  p_rooted : option bool
}.

(** [Parser(handle)]; the attribute [rooted] does not exist yet. *)
Definition Parser_init (h : in_handle) : parser :=
  Parser h None None ∅ None.

(** [Parser.from_string(treetext)]: a [StringIO] has no attribute [name]. *)
Definition from_string (treetext : string) : parser :=
  Parser_init (InHandle None treetext).

(** The body of the loop of [get_node_info] for one solution row. *)
Definition get_node_info_row (tables : gmap string node_record * gmap string (list string))
    (r : node_row) : result (gmap string node_record * gmap string (list string)) :=
  let '(info, par) := tables in
  node ← node_get_uri (row_node r);
  lbl ← match row_label r with
        | Some l => Some <$> node_literal_value l
        | None => Ok None
        end;
  len ← match row_branch_length r with
        | Some v => text ← node_literal_value v; Some <$> to_float text
        | None => Ok None
        end;
  let info := <[node := NodeRecord lbl len]> info in
  let par :=
    match row_parent_node r with
    | Some pn =>
        let parent := node_str pn in
        <[parent := default [] (par !! parent) ++ [node]]> par
    | None => par
    end in
  Ok (info, par).

Fixpoint get_node_info_rows (rows : list node_row)
    (tables : gmap string node_record * gmap string (list string))
    : result (gmap string node_record * gmap string (list string)) :=
  match rows with
  | [] => Ok tables
  | r :: rows' => tables ← get_node_info_row tables r; get_node_info_rows rows' tables
  end.

(** [get_node_info]: both tables are reset, then filled from the rows
    the engine answers. *)
Definition get_node_info (rows : list node_row)
    : result (gmap string node_record * gmap string (list string)) :=
  get_node_info_rows rows (∅, ∅).

(** [new_clade(node)]: [self.node_info[node]] fails with [KeyError] for
    a node without a record. *)
Definition new_clade (info : gmap string node_record) (node : string) : result clade :=
  match info !! node with
  | None => Raise (KeyError node)
  | Some r => Ok (Clade (rec_label r) (rec_branch_length r) [])
  end.

(** [clade.clades = cs] *)
Definition set_clades (cs : list clade) (c : clade) : clade :=
  Clade (name c) (branch_length c) cs.

(** [parse_children(node, model)].  [depth] is the number of nested calls
    the interpreter still allows; Python ends a deeper recursion with a
    [RuntimeError]. *)
Fixpoint parse_children (depth : nat) (info : gmap string node_record)
    (par : gmap string (list string)) (node : string) : result (list clade) :=
  match depth with
  | 0 => Raise (RuntimeError "maximum recursion depth exceeded")
  | S depth' =>
      let children := default [] (par !! node) in
      let fix loop (children : list string) : result (list clade) :=
        match children with
        | [] => Ok []
        | child_node :: rest =>
            c ← new_clade info child_node;
            cs ← parse_children depth' info par child_node;
            child_clades ← loop rest;
            Ok (set_clades cs c :: child_clades)
        end in
      loop children
  end.

(** One turn of the loop of [parse_model], up to its [yield]. *)
Definition parse_root (depth : nat) (info : gmap string node_record)
    (par : gmap string (list string)) (rooted0 : option bool) (root_node : rdf_node)
    : result tree :=
  root_node ← node_get_uri root_node;
  c ← new_clade info root_node;
  cs ← parse_children depth info par root_node;
  match rooted0 with
  | Some b => Ok (Tree (set_clades cs c) b)
  | None => Raise (AttributeError "rooted")
  end.

Fixpoint parse_roots (depth : nat) (info : gmap string node_record)
    (par : gmap string (list string)) (rooted0 : option bool) (roots : list rdf_node)
    : list tree * option exn :=
  match roots with
  | [] => ([], None)
  | r :: roots' =>
      match parse_root depth info par rooted0 r with
      | Ok t =>
          let '(ts, e) := parse_roots depth info par rooted0 roots' in
          (t :: ts, e)
      | Raise e => ([], Some e)
      end
  end.

(** The generator [parse_model], run to its end on the rows the engine
    answers to the two queries: the trees it yields and the exception that
    ends it, if any. *)
Definition parse_model (env : redland) (depth : nat) (rooted0 : option bool)
    (node_rows : list node_row) (root_rows : list rdf_node) : list tree * option exn :=
  match import_rdf env with
  | Raise e => ([], Some e)
  | Ok _ =>
      match get_node_info node_rows with
      | Raise e => ([], Some e)
      | Ok (info, par) => parse_roots depth info par rooted0 root_rows
      end
  end.

(** [parse_model] on a model [m]: any answer the engine may give. *)
Definition parse_model_yields (env : redland) (depth : nat) (rooted0 : option bool)
    (m : list statement) (out : list tree * option exn) : Prop :=
  ∃ node_rows root_rows,
    sparql_answer (node_query m) node_rows ∧
    sparql_answer (root_query m) root_rows ∧
    out = parse_model env depth rooted0 node_rows root_rows.

Record parse_kwargs : Type := ParseKwargs {
  pk_rooted : option bool;
  pk_storage : bool;
  pk_mime_type : option string;
  pk_base_uri : option rdf_node
}.

Definition set_p_model (m : list statement) (p : parser) : parser :=
  Parser (handle p) (Some m) (node_info p) (parents p) (p_rooted p).
Definition set_p_rooted (b : bool) (p : parser) : parser :=
  Parser (handle p) (p_model p) (node_info p) (parents p) (Some b).

(** [parse_handle_to_model(rooted=False, storage=None,
    mime_type='text/turtle', **kwargs)]: the parser as the call leaves it,
    and whether the call raised.  The generator it returns is not run by
    its caller. *)
Definition parse_handle_to_model (env : redland) (kw : parse_kwargs) (p : parser)
    : parser * result () :=
  match import_rdf env with
  | Raise e => (p, Raise e)
  | Ok _ =>
  match (if pk_storage kw then Ok () else new_storage env) with
  | Raise e => (p, Raise e)
  | Ok _ =>
  match (match p_model p with
         | Some m => Ok m
         | None => if model_created env then Ok []
                   else Raise (CDAOError "new RDF.model failed")
         end) with
  | Raise e => (p, Raise e)
  | Ok m =>
  let p := set_p_model m p in
  let p := set_p_rooted (default false (pk_rooted kw)) p in
  let mime_type := default "text/turtle" (pk_mime_type kw) in
  if negb (parser_created env mime_type)
  then (p, Raise (Exception ("Failed to create RDF.Parser for MIME type " +:+ mime_type)))
  else
  match (match pk_base_uri kw with
         | Some b => Ok b
         | None =>
             match handle_name (handle p) with
             | Some nm => Ok (Uri ("file://" +:+ abspath env nm))
             | None => Raise (AttributeError "name")
             end
         end) with
  | Raise e => (p, Raise e)
  | Ok base =>
  match parse_string_as_stream env mime_type (handle_text (handle p)) base with
  | Raise e => (p, Raise e)
  | Ok statements => (set_p_model (m ++ statements) p, Ok ())
  end end end end end.

(** [Parser.parse], called with keyword arguments: the statements are loaded when the method
    is called; the generator it returns is [parse_model] on the loaded
    model. *)
Definition Parser_parse (env : redland) (kw : parse_kwargs) (p : parser)
    : parser * result () :=
  parse_handle_to_model env kw p.

End CDAOIO.

(** ** Sample data

    A three-value sample of Python floats with their [str] and [float],
    an environment in which Redland is installed, and small trees. *)

Inductive sample_float : Type := F0_5 | F1_0 | F2_0.

Definition sample_str (x : sample_float) : string :=
  match x with
  | F0_5 => "0.5"
  | F1_0 => "1.0"
  | F2_0 => "2.0"
  end.

Definition sample_parse (s : string) : option sample_float :=
  if decide (s = "0.5") then Some F0_5
  else if decide (s = "1.0") then Some F1_0
  else if decide (s = "2.0") then Some F2_0
  else None.

Definition sample_PyFloat : PyFloat :=
  {| float := sample_float; float_str := sample_str; float_parse := sample_parse |}.

Definition sample_env : redland :=
  Redland true true true (λ _, true) (λ _ _ _, Ok []) (λ _ _ _, Ok "") id.

(** The tree [(A:1.0,B:2.0);] of the specification's example. *)
Definition sample_clade : option string → option sample_float →
    list (@clade sample_PyFloat) → @clade sample_PyFloat :=
  @Clade sample_PyFloat.

Definition sample_tree : @clade sample_PyFloat :=
  sample_clade None None
    [sample_clade (Some "A") (Some F1_0) []; sample_clade (Some "B") (Some F2_0) []].

(** * Properties *)

Example qUri_known : qUri "owl:Ontology" = Uri "http://www.w3.org/2002/07/owl#Ontology".
Proof. reflexivity. Qed.

Example qUri_unknown : qUri "foaf:name" = Uri "foaf:name".
Proof. reflexivity. Qed.

(** The occurrences are those of [str.replace]: the text [owl:] is also
    found at the end of a longer word. *)
Example qUri_inside_word : qUri "cowl:x" = Uri "chttp://www.w3.org/2002/07/owl#x".
Proof. reflexivity. Qed.

Section Facade.
Context `{PyFloat}.

(** C3 does not hold of the code, which also departs from its own
    docstring: whenever the public [write] returns, the value it returns is
    [None], not the number of trees written; [serialize_model] computes
    that number and [Writer.write] drops it. *)
Theorem write_returns_none (env : redland) (ts : list tree) (handle : string)
    (kw : write_kwargs) :
  match write env ts handle kw with
  | Ok (_, r) => r = ReturnNone
  | Raise _ => True
  end.
Proof.
  unfold write, Writer_write.
  destruct (import_rdf env) as [[]|e]; simpl; [|done].
  destruct (add_trees_to_model env None _ _) as [w|e]; simpl; [|done].
  destruct (serialize_model env handle _ w) as [[h n]|e]; simpl; done.
Qed.

(** C4: a node that has no entry in the adjacency table has no children
    ([parse_children] returns the empty list), whereas a node that has no
    Node Info Record makes [new_clade], and with it the turn of
    [parse_model] for a root, fail with [KeyError]. *)
Theorem missing_record_asymmetry (depth : nat) (info : gmap string node_record)
    (par : gmap string (list string)) (node : string) :
  (par !! node = None → parse_children (S depth) info par node = Ok []) ∧
  (info !! node = None →
     new_clade info node = Raise (KeyError node) ∧
     ∀ rooted0, parse_root depth info par rooted0 (Uri node) = Raise (KeyError node)).
Proof.
  split.
  - intros Hnone. simpl. by rewrite Hnone.
  - intros Hnone. unfold parse_root, new_clade. simpl. by rewrite Hnone.
Qed.

(** The environment lets [parse_handle_to_model] reach the choice of the
    base URI: Redland is importable, a storage and a model exist or can be
    made, and there is a parser for the MIME type. *)
Definition parse_ready (env : redland) (kw : parse_kwargs) (p : parser) : Prop :=
  rdf_importable env = true ∧
  (pk_storage kw = true ∨ storage_created env = true) ∧
  (is_Some (p_model p) ∨ model_created env = true) ∧
  parser_created env (default "text/turtle" (pk_mime_type kw)) = true.

(** C9: when the handle has no [name] (as every parser made by
    [from_string]) and no [base_uri] is passed, [parse] fails with an
    [AttributeError] on [name] and has loaded no statement; when
    [base_uri] is passed, [handle.name] is not read and the parsed
    statements are loaded. *)
Theorem parse_needs_name_or_base_uri (env : redland) (kw : parse_kwargs) (p : parser) :
  parse_ready env kw p →
  handle_name (handle p) = None →
  (pk_base_uri kw = None →
     (Parser_parse env kw p).2 = Raise (AttributeError "name") ∧
     p_model (Parser_parse env kw p).1 = Some (default [] (p_model p))) ∧
  (∀ b statements,
     pk_base_uri kw = Some b →
     parse_string_as_stream env (default "text/turtle" (pk_mime_type kw))
       (handle_text (handle p)) b = Ok statements →
     (Parser_parse env kw p).2 = Ok () ∧
     p_model (Parser_parse env kw p).1 = Some (default [] (p_model p) ++ statements)).
Proof.
  intros (Himp & Hsto & Hmod & Hpar) Hname.
  unfold Parser_parse, parse_handle_to_model, new_storage, import_rdf.
  rewrite Himp. simpl.
  assert ((if pk_storage kw then Ok ()
           else if storage_created env then Ok ()
                else Raise (CDAOError "new RDF.Storage failed")) = Ok ()) as ->.
  { destruct Hsto as [->| ->]; [done|]. by destruct (pk_storage kw). }
  assert (match p_model p with
          | Some m => Ok m
          | None => if model_created env then Ok []
                    else Raise (CDAOError "new RDF.model failed")
          end = Ok (default [] (p_model p))) as ->.
  { destruct Hmod as [[m ->]| ->]; [done|]. by destruct (p_model p). }
  rewrite Hpar. simpl. rewrite Hname. split.
  - intros ->. done.
  - intros b statements -> ->. done.
Qed.

End Facade.

(** ** Namespace expansion *)

Section Replace.

(** Two texts differ at a position that both have. *)
Fixpoint clash (p q : string) : bool :=
  match p, q with
  | String a p', String b q' => if decide (a = b) then clash p' q' else true
  | _, _ => false
  end.

(** Every non-empty suffix of [u] clashes with [t]: no occurrence of [t]
    starts inside [u], whatever follows [u], and [t] has no suffix of [u]
    inside. *)
Fixpoint tails_clash (u t : string) : bool :=
  match u with
  | "" => true
  | String _ u' => clash u t && tails_clash u' t
  end.

Lemma prefix_cons (a b : ascii) (p s : string) :
  String.prefix (String a p) (String b s) =
    if decide (a = b) then String.prefix p s else false.
Proof. simpl. destruct (ascii_dec a b), (decide (a = b)); done. Qed.

Lemma clash_sym (p q : string) : clash p q = clash q p.
Proof.
  revert q. induction p as [|a p IH]; intros [|b q]; simpl; try done.
  destruct (decide (a = b)), (decide (b = a)); try done; congruence.
Qed.

Lemma clash_prefix (p q r : string) : clash p q = true → String.prefix p (q +:+ r) = false.
Proof.
  revert q. induction p as [|a p IH]; intros [|b q]; simpl; try done.
  destruct (decide (a = b)), (ascii_dec a b); try done. apply IH.
Qed.

Lemma prefix_app (p r : string) : String.prefix p (p +:+ r) = true.
Proof.
  induction p as [|a p IH]; simpl; [by destruct r|].
  by destruct (ascii_dec a a).
Qed.

Lemma prefix_true (p s : string) : String.prefix p s = true → ∃ r, s = p +:+ r.
Proof.
  revert s. induction p as [|a p IH]; intros s Hp.
  - by exists s.
  - destruct s as [|b s]; [done|]. rewrite prefix_cons in Hp.
    destruct (decide (a = b)) as [->|]; [|done].
    destruct (IH s Hp) as [r ->]. by exists r.
Qed.

Lemma replace_from_skip (x old new r : string) :
  replace_from (String.length x) old new (x +:+ r) = replace_from 0 old new r.
Proof.
  induction x as [|a x IH]; simpl; [|done].
  destruct r; [done|]. done.
Qed.

Lemma replace_from_match (old new r : string) :
  old ≠ "" →
  replace_from 0 old new (old +:+ r) = new +:+ replace_from 0 old new r.
Proof.
  destruct old as [|a old]; [done|]. intros _.
  change (String a old +:+ r) with (String a (old +:+ r)).
  cbn [replace_from]. change (String a (old +:+ r)) with (String a old +:+ r).
  rewrite prefix_app. f_equal.
  cbn [String.length]. rewrite Nat.sub_1_r. cbn [Nat.pred].
  apply replace_from_skip.
Qed.

Lemma replace_from_keep (old new : string) (c : ascii) (s : string) :
  String.prefix old (String c s) = false →
  replace_from 0 old new (String c s) = String c (replace_from 0 old new s).
Proof. intros Hp. cbn [replace_from]. by rewrite Hp. Qed.

Lemma replace_from_text (old new u r : string) :
  tails_clash u old = true →
  replace_from 0 old new (u +:+ r) = u +:+ replace_from 0 old new r.
Proof.
  induction u as [|a u IH]; [done|]. cbn [tails_clash].
  intros [Hc Ht]%andb_true_iff.
  change (String a u +:+ r) with (String a (u +:+ r)).
  rewrite replace_from_keep.
  - by rewrite IH.
  - change (String a (u +:+ r)) with (String a u +:+ r).
    apply clash_prefix. by rewrite clash_sym.
Qed.

(** Replacing [old] does not change whether the text starts with [p],
    when the suffixes of [p] clash with [old] and with [new]. *)
Lemma prefix_replace_from (p old new s : string) :
  old ≠ "" →
  tails_clash p old = true → tails_clash p new = true →
  String.prefix p (replace_from 0 old new s) = String.prefix p s.
Proof.
  intros Hold. revert s. induction p as [|x p IH]; intros s Ho Hn.
  - simpl. by destruct (replace_from 0 old new s), s.
  - cbn [tails_clash] in Ho, Hn.
    apply andb_true_iff in Ho as [Ho Ho']. apply andb_true_iff in Hn as [Hn Hn'].
    destruct s as [|y s]; [done|].
    destruct (String.prefix old (String y s)) eqn:Hp.
    + apply prefix_true in Hp as [r Hr]. rewrite Hr.
      rewrite replace_from_match by done.
      by rewrite !clash_prefix.
    + rewrite replace_from_keep by done. rewrite !prefix_cons.
      destruct (decide (x = y)); [|done]. by apply IH.
Qed.

End Replace.

Section Expand.

(** The text [qUri] looks for: a prefix followed by a colon. *)
Definition token (kv : string * string) : string := kv.1 +:+ ":".

Definition matches (s : string) (kv : string * string) : bool :=
  String.prefix (token kv) s.

(** The entry [a] can be expanded before those of [urls]: no token
    overlaps the token or the URI of [a], none lies inside its URI. *)
Definition separated_from (a kv : string * string) : bool :=
  tails_clash (token kv) (token a) && tails_clash (token kv) a.2 &&
  tails_clash a.2 (token kv).

Lemma token_length (kv : string * string) :
  ∃ c t, token kv = String c t ∧ String.length t = String.length kv.1.
Proof.
  unfold token. destruct kv as [p u]. cbn [fst].
  destruct p as [|c p]; [by exists ":"%char, ""|].
  exists c, (p +:+ ":"). split; [done|].
  cbn [String.length]. induction p as [|d p IH]; simpl; [done|].
  simpl in IH. lia.
Qed.

Lemma expand_from_skip (x : string) (urls : list (string * string)) (r : string) :
  expand_from (String.length x) urls (x +:+ r) = expand_from 0 urls r.
Proof.
  induction x as [|a x IH]; simpl; [|done]. by destruct r.
Qed.

Lemma expand_from_match (urls : list (string * string)) (kv : string * string)
    (s r : string) :
  s = token kv +:+ r →
  List.find (matches s) urls = Some kv →
  expand_from 0 urls s = kv.2 +:+ expand_from 0 urls r.
Proof.
  intros -> Hfind. destruct (token_length kv) as (c & t & Ht & Hlen).
  rewrite Ht in *. change (String c t +:+ r) with (String c (t +:+ r)) in *.
  cbn [expand_from]. unfold matches in Hfind.
  change (λ kv0 : string * string, String.prefix (kv0.1 +:+ ":") (String c (t +:+ r)))
    with (λ kv0, String.prefix (token kv0) (String c (t +:+ r))).
  rewrite Hfind. destruct kv as [p u]. cbn [fst snd] in *.
  by rewrite <-Hlen, expand_from_skip.
Qed.

Lemma expand_from_keep (urls : list (string * string)) (c : ascii) (s : string) :
  List.find (matches (String c s)) urls = None →
  expand_from 0 urls (String c s) = String c (expand_from 0 urls s).
Proof.
  intros Hfind. cbn [expand_from]. unfold matches in Hfind.
  change (λ kv0 : string * string, String.prefix (kv0.1 +:+ ":") (String c s))
    with (λ kv0, String.prefix (token kv0) (String c s)).
  by rewrite Hfind.
Qed.

Lemma find_ext {A : Type} (f g : A → bool) (l : list A) :
  Forall (λ x, f x = g x) l → List.find f l = List.find g l.
Proof.
  induction 1 as [|x l Hx _ IH]; [done|]. simpl. by rewrite Hx, IH.
Qed.

Lemma find_none_forall {A : Type} (f : A → bool) (l : list A) :
  Forall (λ x, f x = false) l → List.find f l = None.
Proof. induction 1 as [|x l Hx _ IH]; [done|]. simpl. by rewrite Hx. Qed.

Lemma find_some_matches {A : Type} (f : A → bool) (l : list A) (x : A) :
  List.find f l = Some x → x ∈ l ∧ f x = true.
Proof.
  induction l as [|y l IH]; [done|]. simpl. destruct (f y) eqn:Hy.
  - intros [= ->]. split; [left|done].
  - intros [Hin Hx]%IH. split; [by right|done].
Qed.

Lemma expand_from_text (urls : list (string * string)) (u r : string) :
  Forall (λ kv, tails_clash u (token kv) = true) urls →
  expand_from 0 urls (u +:+ r) = u +:+ expand_from 0 urls r.
Proof.
  induction u as [|a u IH]; intros Hall; [done|].
  change (String a u +:+ r) with (String a (u +:+ r)).
  rewrite expand_from_keep.
  - rewrite IH; [done|]. eapply Forall_impl; [exact Hall|].
    intros kv Hkv. cbn [tails_clash] in Hkv. by apply andb_true_iff in Hkv as [_ ?].
  - apply find_none_forall. eapply Forall_impl; [exact Hall|].
    intros kv Hkv. cbn [tails_clash] in Hkv. apply andb_true_iff in Hkv as [Hc _].
    unfold matches. change (String a (u +:+ r)) with (String a u +:+ r).
    apply clash_prefix. by rewrite clash_sym.
Qed.

(** One turn of the loop of [qUri] is one more entry in the table of
    the one-pass expansion. *)
Lemma expand_from_replace (a : string * string) (urls : list (string * string)) :
  Forall (λ kv, separated_from a kv = true) urls →
  ∀ s, expand_from 0 urls (replace (token a) a.2 s) = expand_from 0 (a :: urls) s.
Proof.
  intros Hsep.
  destruct (token_length a) as (c0 & t0 & Ht0 & Hlen0).
  assert (token a ≠ "") as Hne by (by rewrite Ht0).
  assert (∀ s, replace (token a) a.2 s = replace_from 0 (token a) a.2 s) as Hrep.
  { intros s. unfold replace. by rewrite Ht0. }
  intros s. rewrite Hrep.
  remember (String.length s) as n eqn:Hn. revert s Hn.
  induction (lt_wf n) as [n _ IH]. intros s ->.
  assert (∀ r, String.length r < String.length s →
    expand_from 0 urls (replace_from 0 (token a) a.2 r) = expand_from 0 (a :: urls) r)
    as IH' by (intros r Hr; by eapply IH).
  clear IH. destruct s as [|c s]; [done|].
  assert (∀ x r, String.length (x +:+ r) = String.length x + String.length r) as Hlen.
  { intros x r. induction x; simpl; [done|]. by f_equal. }
  destruct (String.prefix (token a) (String c s)) eqn:Hpa.
  - (* the text starts with the token of [a] *)
    apply prefix_true in Hpa as [r Hr]. rewrite Hr.
    rewrite replace_from_match by done.
    rewrite expand_from_text.
    2:{ eapply Forall_impl; [exact Hsep|]. intros kv Hkv. unfold separated_from in Hkv.
        by apply andb_true_iff in Hkv as [_ ?]. }
    rewrite (expand_from_match (a :: urls) a _ r eq_refl).
    2:{ simpl. unfold matches. by rewrite prefix_app. }
    f_equal. apply IH'. rewrite Hr, Hlen, Ht0. simpl. lia.
  - rewrite replace_from_keep by done.
    assert (List.find (matches (String c (replace_from 0 (token a) a.2 s))) urls
            = List.find (matches (String c s)) urls) as Hfind.
    { apply find_ext. eapply Forall_impl; [exact Hsep|]. intros kv Hkv.
      unfold separated_from in Hkv.
      apply andb_true_iff in Hkv as [[Hk1 Hk2]%andb_true_iff _].
      unfold matches. destruct (token_length kv) as (c1 & t1 & Ht1 & _).
      rewrite Ht1 in *. rewrite !prefix_cons.
      destruct (decide (c1 = c)); [|done].
      cbn [tails_clash] in Hk1, Hk2.
      apply andb_true_iff in Hk1 as [_ Hk1]. apply andb_true_iff in Hk2 as [_ Hk2].
      by apply prefix_replace_from. }
    assert (List.find (matches (String c s)) (a :: urls)
            = List.find (matches (String c s)) urls) as Hfind'.
    { simpl. unfold matches at 1. by rewrite Hpa. }
    destruct (List.find (matches (String c s)) urls) as [kv|] eqn:Hkv.
    + apply find_some_matches in Hkv as Hkv'. destruct Hkv' as [Hin Hm].
      apply prefix_true in Hm as [r Hr].
      rewrite Forall_forall in Hsep. specialize (Hsep kv Hin).
      unfold separated_from in Hsep.
      apply andb_true_iff in Hsep as [[Hk1 Hk2]%andb_true_iff _].
      assert (String c (replace_from 0 (token a) a.2 s)
              = token kv +:+ replace_from 0 (token a) a.2 r) as Hr'.
      { rewrite <-replace_from_keep by done. rewrite Hr.
        by apply replace_from_text. }
      rewrite (expand_from_match urls kv _ _ Hr' Hfind).
      rewrite (expand_from_match (a :: urls) kv _ r Hr Hfind').
      f_equal. apply IH'. rewrite Hr, Hlen.
      destruct (token_length kv) as (c1 & t1 & -> & _). simpl. lia.
    + rewrite expand_from_keep by done. rewrite (expand_from_keep (a :: urls)) by done.
      f_equal. apply IH'. simpl. lia.
Qed.

End Expand.

Section QUri.

Lemma expand_from_nil (s : string) : expand_from 0 [] s = s.
Proof. induction s as [|c s IH]; [done|]. simpl. by rewrite IH. Qed.

(** Every entry can be expanded before the entries after it. *)
Fixpoint separated (urls : list (string * string)) : bool :=
  match urls with
  | [] => true
  | a :: rest => forallb (separated_from a) rest && separated rest
  end.

Lemma foldl_replace_expand (urls : list (string * string)) (s : string) :
  separated urls = true →
  foldl (λ acc kv, replace (token kv) kv.2 acc) s urls = expand_from 0 urls s.
Proof.
  revert s. induction urls as [|a urls IH]; intros s Hsep.
  - by rewrite expand_from_nil.
  - cbn [separated] in Hsep. apply andb_true_iff in Hsep as [Ha Hrest].
    cbn [foldl]. rewrite IH by done. apply expand_from_replace.
    rewrite forallb_forall in Ha. apply Forall_forall. intros kv Hkv.
    apply Ha. by apply list_elem_of_In.
Qed.

Lemma urls_get_elem (urls : list (string * string)) (kv : string * string) :
  NoDup urls.*1 → kv ∈ urls → urls_get urls kv.1 = kv.2.
Proof.
  induction urls as [|[k v] urls IH]; intros Hnd Hin.
  - by apply elem_of_nil in Hin.
  - cbn [fmap list_fmap fst] in Hnd. apply NoDup_cons in Hnd as [Hk Hnd].
    cbn [urls_get]. apply elem_of_cons in Hin as [->|Hin].
    + cbn [fst snd]. by rewrite decide_True.
    + rewrite decide_False; [by apply IH|].
      intros ->. apply Hk. apply list_elem_of_fmap. by exists kv.
Qed.

Lemma qUri_loop_expand (urls : list (string * string)) (s : string) :
  NoDup urls.*1 → separated urls = true →
  qUri_loop urls s = expand_from 0 urls s.
Proof.
  intros Hnd Hsep. rewrite <-foldl_replace_expand by done. unfold qUri_loop.
  assert (∀ part acc, part ⊆ urls →
    foldl (λ acc kv, replace (kv.1 +:+ ":") (urls_get urls kv.1) acc) acc part
    = foldl (λ acc kv, replace (token kv) kv.2 acc) acc part) as Hfold.
  { induction part as [|kv part IH]; intros acc Hsub; [done|].
    cbn [foldl]. rewrite urls_get_elem; [|done|set_solver].
    apply IH. set_solver. }
  by apply Hfold.
Qed.

Lemma find_exclusive_perm {A : Type} (f : A → bool) (l l' : list A) :
  l ≡ₚ l' →
  (∀ x y, x ∈ l → y ∈ l → f x = true → f y = true → x = y) →
  List.find f l = List.find f l'.
Proof.
  induction 1 as [|x l l' Hp IH|x y l|l l' l'' Hp IH Hp' IH']; intros Hex.
  - done.
  - simpl. destruct (f x); [done|]. apply IH. intros; apply Hex; set_solver.
  - simpl. destruct (f x) eqn:Hx, (f y) eqn:Hy; try done.
    f_equal. apply Hex; set_solver.
  - rewrite IH by done. apply IH'. intros a b Ha Hb. apply Hex; by rewrite Hp.
Qed.

(** No two entries of the table match at the same place. *)
Definition exclusive (urls : list (string * string)) : bool :=
  forallb (λ a, forallb (λ kv, bool_decide (a = kv) || clash (token kv) (token a)) urls)
    urls.

Lemma expand_from_perm (urls urls' : list (string * string)) (k : nat) (s : string) :
  urls ≡ₚ urls' → exclusive urls = true →
  expand_from k urls s = expand_from k urls' s.
Proof.
  intros Hp Hex. revert k. induction s as [|c s IH]; intros k; [done|].
  cbn [expand_from]. destruct k as [|k]; [|apply IH].
  change (λ kv : string * string, String.prefix (kv.1 +:+ ":") (String c s))
    with (matches (String c s)).
  rewrite (find_exclusive_perm _ urls urls' Hp).
  - destruct (List.find _ urls') as [[p u]|]; by rewrite IH.
  - intros x y Hx Hy Hfx Hfy. unfold exclusive in Hex.
    rewrite forallb_forall in Hex. apply list_elem_of_In in Hx, Hy.
    specialize (Hex x Hx). rewrite forallb_forall in Hex. specialize (Hex y Hy).
    apply orb_true_iff in Hex as [Heq|Hcl]; [by apply bool_decide_eq_true in Heq|].
    apply prefix_true in Hfx as [r Hr]. unfold matches in Hfy. rewrite Hr in Hfy.
    by rewrite clash_prefix in Hfy.
Qed.

(** [t] occurs somewhere in [s]. *)
Definition occurs (t s : string) : Prop := ∃ a b, s = a +:+ t +:+ b.

Lemma expand_from_unchanged (urls : list (string * string)) (s : string) :
  (∀ kv, kv ∈ urls → ¬ occurs (token kv) s) → expand_from 0 urls s = s.
Proof.
  induction s as [|c s IH]; intros Hno; [done|].
  rewrite expand_from_keep.
  - rewrite IH; [done|]. intros kv Hkv (a & b & ->).
    apply (Hno kv Hkv). by exists (String c a), b.
  - apply find_none_forall, Forall_forall. intros kv Hkv.
    destruct (matches (String c s) kv) eqn:Hm; [|done].
    apply prefix_true in Hm as [r Hr]. destruct (Hno kv Hkv). by exists "", r.
Qed.

(** X17: whatever the order in which the dictionary of namespaces is
    iterated, [qUri] returns the URI of the one-pass expansion of its
    argument, in which the text [owl:], [cdao:] or [rdf:] is replaced by
    the base URI of the prefix wherever it occurs and all other text is
    kept; in particular a text in which none of the three occurs, at any
    position, is returned as it is. *)
Theorem qUri_expands (urls : list (string * string)) (s : string) :
  urls ≡ₚ RDF_NAMESPACES →
  qUri_in urls s = Uri (expand s) ∧
  ((∀ kv, kv ∈ RDF_NAMESPACES → ¬ occurs (token kv) s) → qUri_in urls s = Uri s).
Proof.
  intros Hp.
  assert (qUri_in urls s = Uri (expand s)) as Heq.
  { unfold qUri_in, expand. f_equal.
    assert (urls ∈ permutations RDF_NAMESPACES) as Hin
      by (apply permutations_Permutation; by symmetry).
    symmetry in Hp.
    assert (exclusive RDF_NAMESPACES = true) as Hex by (vm_compute; reflexivity).
    rewrite (expand_from_perm RDF_NAMESPACES urls 0 s Hp Hex).
    let l := eval vm_compute in (permutations RDF_NAMESPACES) in
      change (permutations RDF_NAMESPACES) with l in Hin.
    rewrite !elem_of_cons in Hin.
    destruct Hin as [->|[->|[->|[->|[->|[->|Hin]]]]]];
      [apply qUri_loop_expand;
       [apply (bool_decide_unpack _); vm_compute; exact I | vm_compute; reflexivity]..|].
    by apply elem_of_nil in Hin. }
  split; [done|]. intros Hno. rewrite Heq. f_equal. by apply expand_from_unchanged.
Qed.

(** C8 does not hold of the code: [str.replace] finds [cdao:] inside the
    longer word [mycdao:].  The prefix token of [mycdao:Node] is [mycdao],
    which is not a key of the table, so that the name should be left as it
    is; in whatever order the dictionary is iterated, [qUri] rewrites it
    into a text that is neither the name nor a URI of the namespace. *)
Theorem qUri_rewrites_unknown_prefix :
  prefix_token "mycdao:Node" = Some "mycdao" ∧
  recognized "mycdao" = false ∧
  Forall (λ urls, qUri_in urls "mycdao:Node"
                  = Uri "myhttp://purl.obolibrary.org/obo/cdao.owl#Node")
    (permutations RDF_NAMESPACES).
Proof.
  split; [reflexivity|]. split; [vm_compute; reflexivity|].
  let l := eval vm_compute in (permutations RDF_NAMESPACES) in
    change (permutations RDF_NAMESPACES) with l.
  repeat (apply List.Forall_cons; [vm_compute; reflexivity|]).
  apply List.Forall_nil.
Qed.

Fixpoint occursb (t s : string) : bool :=
  String.prefix t s ||
  match s with
  | "" => false
  | String _ s' => occursb t s'
  end.

Lemma occurs_occursb (t s : string) : occurs t s → occursb t s = true.
Proof.
  intros (a & b & ->). induction a as [|c a IH].
  - change ("" +:+ t +:+ b) with (t +:+ b).
    assert (String.prefix t (t +:+ b) = true) as Hp by apply prefix_app.
    destruct (t +:+ b); simpl in *; by rewrite Hp.
  - change (String c a +:+ t +:+ b) with (String c (a +:+ t +:+ b)).
    cbn [occursb]. rewrite IH. apply orb_true_r.
Qed.

End QUri.

(** ** Minted identifiers *)

Section Minting.

(** The five kinds of local names a [Writer] mints.  Edge annotations
    are numbered by the edge counter. *)
Inductive kind : Type := KNode | KEdge | KAnn | KTree | KTu.

Global Instance kind_eq_dec : EqDecision kind.
Proof. solve_decision. Defined.

Definition mint (k : kind) (n : nat) : string :=
  match k with
  | KNode => node_uri n
  | KEdge => edge_uri n
  | KAnn => edge_ann_uri n
  | KTree => tree_uri n
  | KTu => tu_uri n
  end.

Definition is_digit (c : ascii) : Prop :=
  (48 ≤ nat_of_ascii c ≤ 57)%nat.

Definition starts_with_digit (s : string) : Prop :=
  match s with
  | "" => False
  | String c _ => is_digit c
  end.

Lemma pretty_N_char_digit (x : N) : is_digit (pretty_N_char x).
Proof.
  unfold pretty_N_char, is_digit.
  repeat case_match; vm_compute; lia.
Qed.

Lemma pretty_N_go_digit (x : N) (s : string) :
  (x = 0%N → starts_with_digit s) → starts_with_digit (pretty_N_go x s).
Proof.
  revert s. induction (N.lt_wf_0 x) as [x _ IH]. intros s Hs.
  destruct (decide (x = 0%N)) as [->|Hx].
  - rewrite pretty_N_go_0. auto.
  - rewrite pretty_N_go_step by lia.
    apply IH; [apply N.div_lt; lia|].
    intros _. simpl. apply pretty_N_char_digit.
Qed.

Lemma pretty_nat_digit (n : nat) : starts_with_digit (pretty n).
Proof.
  unfold pretty, pretty_nat, pretty, pretty_N.
  case_decide as Hn.
  - vm_compute. lia.
  - apply pretty_N_go_digit. intros; done.
Qed.

Lemma pretty_nat_not_underscore (n : nat) (s : string) : pretty n ≠ "_" +:+ s.
Proof.
  intros Heq. pose proof (pretty_nat_digit n) as Hd. rewrite Heq in Hd.
  vm_compute in Hd. lia.
Qed.

Lemma mint_inj (k k' : kind) (n n' : nat) :
  mint k n = mint k' n' → k = k' ∧ n = n'.
Proof.
  destruct k, k'; unfold mint, node_uri, edge_uri, edge_ann_uri, tree_uri, tu_uri;
    intros Heq; simpl in Heq; try discriminate;
    simplify_eq;
    try (split; [reflexivity | by apply (inj pretty)]).
  - exfalso. exact (pretty_nat_not_underscore n ("annotation" +:+ pretty n') Heq).
  - exfalso. exact (pretty_nat_not_underscore n' ("annotation" +:+ pretty n) (eq_sym Heq)).
Qed.

Lemma nUri_mint_inj (b : string) (k k' : kind) (n n' : nat) :
  nUri b (mint k n) = nUri b (mint k' n') → k = k' ∧ n = n'.
Proof.
  unfold nUri. intros [= Heq]. apply (inj (String.append b)) in Heq.
  by apply mint_inj.
Qed.

End Minting.


(** ** Tactics

    Tactics for the membership tests of the query patterns: two terms of
    the vocabulary are compared by computation, two minted identifiers by
    their kind and number. *)
Lemma closed_neq {A : Type} `{EqDecision A} (x y : A) :
  bool_decide (x = y) = false → x ≠ y.
Proof. intros Hb. by apply (bool_decide_eq_false (x = y)). Qed.

Ltac vocabulary_neq :=
  match goal with
  | |- ?x ≠ ?y => apply (closed_neq x y); vm_compute; reflexivity
  end.

Ltac absurd_eq Heq :=
  first
    [ discriminate Heq
    | exfalso; revert Heq; vocabulary_neq
    | apply nUri_mint_inj in Heq; destruct Heq as [Hk Hn];
      first [ discriminate Hk | exfalso; lia ] ].

Ltac refute :=
  let Hx := fresh "Hx" in
  intros Hx;
  repeat match goal with
         | Hy : _ ∧ _ |- _ => destruct Hy
         | Hy : _ ∨ _ |- _ => destruct Hy
         end;
  match goal with
  | Heq : _ = _ |- _ => solve [absurd_eq Heq]
  end.

Ltac filter_list :=
  repeat first
    [ rewrite filter_nil
    | rewrite filter_cons_False by (cbn [subject predicate object]; refute)
    | rewrite filter_cons_True
        by (cbn [subject predicate object]; repeat split; first [reflexivity | tauto]) ].

Ltac forall_list :=
  repeat match goal with
         | |- Forall _ (_ :: _) => apply List.Forall_cons
         | |- Forall _ [] => apply List.Forall_nil
         end.

Ltac nodup_list :=
  repeat (apply NoDup_cons_2;
          [ rewrite ?not_elem_of_cons; repeat split;
            first [ apply not_elem_of_nil
                  | let Heq := fresh "Heq" in intros Heq; absurd_eq Heq ] |]);
  apply NoDup_nil_2.

(** ** The decomposer, clade by clade *)

Section Decomposer.
Context `{PyFloat}.

Lemma clade_ind' (P : clade → Prop) :
  (∀ n b cs, Forall P cs → P (Clade n b cs)) → ∀ c, P c.
Proof.
  intros HP. fix IH 1. intros [n b cs]. apply HP.
  induction cs as [|c cs IHcs]; constructor; [apply IH | apply IHcs].
Qed.

(** The loop over the children in [process_clade], as a function of its
    own. *)
Fixpoint process_children (uri : string) (cs : list clade) (w : writer)
    : list statement * writer :=
  match cs with
  | [] => ([], w)
  | c :: cs' =>
      let '(s1, w) := process_clade c (Some uri) false w in
      let '(s2, w) := process_children uri cs' w in
      (s1 ++ s2, w)
  end.

Lemma process_clade_eq (c : clade) (parent : option string) (is_root : bool) (w : writer) :
  process_clade c parent is_root w =
    let '(statements, uri, w1) := clade_statements c parent is_root w in
    let '(below, w2) := process_children uri (clades c) w1 in
    (statements ++ below, w2).
Proof.
  destruct c as [n b cs]. cbn [process_clade].
  destruct (clade_statements (Clade n b cs) parent is_root w) as [[statements uri] w1].
  assert (∀ cs' w',
    (fix children (cs0 : list clade) (w0 : writer) {struct cs0} :
       list statement * writer :=
       match cs0 with
       | [] => ([], w0)
       | new_clade :: cs'0 =>
           let '(s1, w2) := process_clade new_clade (Some uri) false w0 in
           let '(s2, w3) := children cs'0 w2 in (s1 ++ s2, w3)
       end) cs' w' = process_children uri cs' w') as Hloop.
  { induction cs' as [|c' cs' IH]; intros w'; [done|].
    cbn [process_children]. destruct (process_clade c' (Some uri) false w') as [s1 w2].
    by rewrite IH. }
  rewrite Hloop. unfold is_terminal. cbn [clades].
  destruct cs as [|c' cs]; [|done].
  cbn [process_children]. by rewrite app_nil_r.
Qed.

(** The vocabulary, as the writer spells it and as the queries spell it. *)
Lemma qUri_rdf_type : qUri "rdf:type" = sparql_a.
Proof. reflexivity. Qed.
Lemma qUri_cdao_RootedTree : qUri "cdao:RootedTree" = cdao "RootedTree".
Proof. reflexivity. Qed.
Lemma qUri_cdao_has_root : qUri "cdao:has_root" = cdao "has_root".
Proof. reflexivity. Qed.
Lemma qUri_cdao_Directed_Edge : qUri "cdao:Directed_Edge" = cdao "Directed_Edge".
Proof. reflexivity. Qed.
Lemma qUri_cdao_has_Parent_Node : qUri "cdao:has_Parent_Node" = cdao "has_Parent_Node".
Proof. reflexivity. Qed.
Lemma qUri_cdao_has_Child_Node : qUri "cdao:has_Child_Node" = cdao "has_Child_Node".
Proof. reflexivity. Qed.
Lemma qUri_cdao_belongs_Child :
  qUri "cdao:belongs_to_Edge_as_Child" = cdao "belongs_to_Edge_as_Child".
Proof. reflexivity. Qed.
Lemma qUri_cdao_has_Parent : qUri "cdao:has_Parent" = cdao "has_Parent".
Proof. reflexivity. Qed.
Lemma qUri_cdao_belongs_Parent :
  qUri "cdao:belongs_to_Edge_as_Parent" = cdao "belongs_to_Edge_as_Parent".
Proof. reflexivity. Qed.
Lemma qUri_cdao_EdgeLength : qUri "cdao:EdgeLength" = cdao "EdgeLength".
Proof. reflexivity. Qed.
Lemma qUri_cdao_has_annotation : qUri "cdao:has_annotation" = cdao "has_annotation".
Proof. reflexivity. Qed.
Lemma qUri_cdao_has_value : qUri "cdao:has_value" = cdao "has_value".
Proof. reflexivity. Qed.

(** The four groups of statements of one clade. *)
Definition root_part (b : string) (is_root : bool) (t n : nat) : list statement :=
  if is_root then
    [ Statement (nUri b (mint KTree t)) sparql_a (cdao "RootedTree");
      Statement (nUri b (mint KTree t)) (cdao "has_root") (nUri b (mint KNode n)) ]
  else [].

Definition tu_part (b : string) (nm : option string) (u n : nat) : list statement :=
  match nm with
  | Some s =>
      [ Statement (nUri b (mint KTu u)) sparql_a (cdao "TU");
        Statement (nUri b (mint KNode n)) (cdao "represents_TU") (nUri b (mint KTu u));
        Statement (nUri b (mint KTu u)) (rdf "label") (Literal s) ]
  | None => []
  end.

Definition node_part (b : string) (terminal : bool) (n : nat) : list statement :=
  [ Statement (nUri b (mint KNode n)) sparql_a
      (cdao (if terminal then "TerminalNode" else "AncestralNode")) ].

Definition edge_part (b : string) (parent : option string) (len : string) (e n : nat)
    : list statement :=
  match parent with
  | Some pu =>
      [ Statement (nUri b (mint KEdge e)) sparql_a (cdao "Directed_Edge");
        Statement (nUri b (mint KEdge e)) (cdao "has_Parent_Node") (nUri b pu);
        Statement (nUri b (mint KEdge e)) (cdao "has_Child_Node") (nUri b (mint KNode n));
        Statement (nUri b (mint KNode n)) (cdao "belongs_to_Edge_as_Child")
                  (nUri b (mint KEdge e));
        Statement (nUri b (mint KNode n)) (cdao "has_Parent") (nUri b pu);
        Statement (nUri b pu) (cdao "belongs_to_Edge_as_Parent") (nUri b (mint KEdge e));
        Statement (nUri b (mint KAnn e)) sparql_a (cdao "EdgeLength");
        Statement (nUri b (mint KEdge e)) (cdao "has_annotation") (nUri b (mint KAnn e));
        Statement (nUri b (mint KAnn e)) (cdao "has_value") (Literal len) ]
  | None => []
  end.

(** The writer after the statements of one clade. *)
Definition advance (c : clade) (parent : option string) (is_root : bool) (w : writer)
    : writer :=
  Writer (trees w) (model w) (base_uri w)
    (S (node_counter w))
    (match parent with Some _ => S (edge_counter w) | None => edge_counter w end)
    (if is_root then S (tree_counter w) else tree_counter w)
    (match name_present c with Some _ => S (tu_counter w) | None => tu_counter w end).

Lemma clade_statements_eq (c : clade) (parent : option string) (is_root : bool)
    (w : writer) :
  clade_statements c parent is_root w =
    (root_part (base_uri w) is_root (S (tree_counter w)) (S (node_counter w))
     ++ tu_part (base_uri w) (name_present c) (S (tu_counter w)) (S (node_counter w))
     ++ node_part (base_uri w) (is_terminal c) (S (node_counter w))
     ++ edge_part (base_uri w) parent (str_branch_length (branch_length c))
          (S (edge_counter w)) (S (node_counter w)),
     mint KNode (S (node_counter w)),
     advance c parent is_root w).
Proof.
  unfold clade_statements, advance, node_part.
  destruct is_root, (name_present c) as [nm|], parent as [pu|], (is_terminal c);
    reflexivity.
Qed.



(** The statements about an edge length among a list of statements. *)
Definition edge_length_statements (statements : list statement) : list statement :=
  filter (λ st, (predicate st = qUri "rdf:type" ∧ object st = qUri "cdao:EdgeLength") ∨
                predicate st = qUri "cdao:has_annotation" ∨
                predicate st = qUri "cdao:has_value") statements.

(** What the decomposer emits about the edge length of a clade that is
    processed with a parent: the three statements of an [EdgeLength]
    numbered like the edge, with [str(clade.branch_length)] as the value,
    whatever the branch length is. *)
Lemma edge_length_of_child (c : clade) (pu : string) (is_root : bool) (w : writer) :
  let '(statements, uri, _) := clade_statements c (Some pu) is_root w in
  let b := base_uri w in
  let e := edge_uri (S (edge_counter w)) in
  let a := edge_ann_uri (S (edge_counter w)) in
  edge_length_statements statements
  = [ Statement (nUri b a) (qUri "rdf:type") (qUri "cdao:EdgeLength");
      Statement (nUri b e) (qUri "cdao:has_annotation") (nUri b a);
      Statement (nUri b a) (qUri "cdao:has_value")
                (Literal (str_branch_length (branch_length c))) ].
Proof.
  rewrite clade_statements_eq. unfold edge_length_statements.
  rewrite qUri_rdf_type, qUri_cdao_EdgeLength, qUri_cdao_has_annotation,
    qUri_cdao_has_value.
  rewrite !filter_app.
  unfold root_part, tu_part, node_part, edge_part.
  destruct is_root, (name_present c) as [nm|], (is_terminal c);
    filter_list; reflexivity.
Qed.

(** C2 does not hold of the code: [process_clade] writes the
    [EdgeLength] statements under [if not parent is None], not under a test
    of the branch length.  A clade that has a parent and no branch length
    gets the three statements all the same, with [str(None)], the text
    [None], as the value; and that value cannot be read back: when [float]
    rejects the text, the row of such a node ends [get_node_info] with a
    [ValueError]. *)
Theorem edge_length_written_without_length (c : clade) (pu : string) (is_root : bool)
    (w : writer) :
  branch_length c = None →
  (let b := base_uri w in
   let e := edge_uri (S (edge_counter w)) in
   let a := edge_ann_uri (S (edge_counter w)) in
   edge_length_statements (clade_statements c (Some pu) is_root w).1.1
   = [ Statement (nUri b a) (qUri "rdf:type") (qUri "cdao:EdgeLength");
       Statement (nUri b e) (qUri "cdao:has_annotation") (nUri b a);
       Statement (nUri b a) (qUri "cdao:has_value") (Literal "None") ]) ∧
  (float_parse "None" = None →
   ∀ tables node parent lbl,
     get_node_info_row tables
       (NodeRow (Uri node) (Some parent) (Some (Literal "None")) (Literal <$> lbl))
     = Raise (ValueError "None")).
Proof.
  intros Hnone. split.
  - pose proof (edge_length_of_child c pu is_root w) as Hc.
    destruct (clade_statements c (Some pu) is_root w) as [[statements uri] w'].
    cbn [fst]. rewrite Hc, Hnone. reflexivity.
  - intros Hfloat [info par] node parent lbl. unfold get_node_info_row, to_float.
    cbn [row_node row_label row_branch_length node_get_uri node_literal_value
         mbind result_bind].
    rewrite Hfloat. by destruct lbl.
Qed.

(** ** The counters and the identifiers minted in a run *)

Definition counter (k : kind) (w : writer) : nat :=
  match k with
  | KNode => node_counter w
  | KEdge | KAnn => edge_counter w
  | KTree => tree_counter w
  | KTu => tu_counter w
  end.

(** [x] is an identifier minted between the writer states [w] and [w']. *)
Definition minted_in (w w' : writer) (x : rdf_node) : Prop :=
  ∃ k n, x = nUri (base_uri w) (mint k n) ∧ counter k w < n ≤ counter k w'.

(** The identifiers a list of statements introduces: every minted
    identifier is the subject of the [rdf:type] statement that declares what
    it is. *)
Definition minted (statements : list statement) : list rdf_node :=
  subject <$> filter (λ st, predicate st = qUri "rdf:type") statements.

(** The classes the decomposer declares entities of. *)
Definition cdao_classes : list rdf_node :=
  [ cdao "RootedTree"; cdao "TU"; cdao "TerminalNode"; cdao "AncestralNode";
    cdao "Directed_Edge"; cdao "EdgeLength" ].

(** A run of the writer from [w] to [w'] that emitted [statements]: only
    the counters change and they do not decrease; every subject is an
    identifier minted in the run, except in the statements that tell a
    parent which edge it belongs to; typed entities are of the CDAO
    classes; no identifier is declared twice. *)
Record run (w : writer) (statements : list statement) (w' : writer) : Prop := {
  run_base : base_uri w' = base_uri w;
  run_trees : trees w' = trees w;
  run_model : model w' = model w;
  run_counters : ∀ k, counter k w ≤ counter k w';
  run_subjects :
    Forall (λ st, minted_in w w' (subject st) ∨
                  predicate st = cdao "belongs_to_Edge_as_Parent") statements;
  run_classes :
    Forall (λ st, predicate st = sparql_a → object st ∈ cdao_classes) statements;
  run_minted : NoDup (minted statements)
}.

Lemma minted_in_weaken (w0 w w' w1 : writer) (x : rdf_node) :
  base_uri w = base_uri w0 →
  (∀ k, counter k w0 ≤ counter k w) →
  (∀ k, counter k w' ≤ counter k w1) →
  minted_in w w' x → minted_in w0 w1 x.
Proof.
  intros Hb Hlo Hhi (k & n & -> & Hn). exists k, n. rewrite Hb. split; [done|].
  specialize (Hlo k). specialize (Hhi k). lia.
Qed.

Lemma minted_in_disjoint (w w1 w1' w2 : writer) (x : rdf_node) :
  base_uri w1' = base_uri w →
  (∀ k, counter k w1 ≤ counter k w1') →
  minted_in w w1 x → minted_in w1' w2 x → False.
Proof.
  intros Hb Hle (k & n & -> & Hn) (k' & n' & Heq & Hn').
  rewrite Hb in Heq. apply nUri_mint_inj in Heq as [-> ->].
  specialize (Hle k'). lia.
Qed.

Lemma minted_app (s1 s2 : list statement) : minted (s1 ++ s2) = minted s1 ++ minted s2.
Proof. unfold minted. by rewrite filter_app, fmap_app. Qed.

Lemma elem_of_minted (x : rdf_node) (statements : list statement) :
  x ∈ minted statements ↔
  ∃ st, st ∈ statements ∧ predicate st = sparql_a ∧ subject st = x.
Proof.
  unfold minted. rewrite list_elem_of_fmap, qUri_rdf_type. split.
  - intros (st & -> & [Hp Hin]%list_elem_of_filter). eauto.
  - intros (st & Hin & Hp & <-). exists st. split; [done|].
    by apply list_elem_of_filter.
Qed.

Lemma run_minted_in (w w' : writer) (statements : list statement) (x : rdf_node) :
  run w statements w' → x ∈ minted statements → minted_in w w' x.
Proof.
  intros Hrun (st & Hst & Hp & <-)%elem_of_minted.
  pose proof (run_subjects _ _ _ Hrun) as Hs.
  rewrite Forall_forall in Hs. destruct (Hs st Hst) as [Hm|Hq]; [done|].
  rewrite Hp in Hq. absurd_eq Hq.
Qed.

Lemma run_nil (w : writer) : run w [] w.
Proof. split; auto; constructor. Qed.

Lemma run_app (w w1 w2 : writer) (s1 s2 : list statement) :
  run w s1 w1 → run w1 s2 w2 → run w (s1 ++ s2) w2.
Proof.
  intros H1 H2.
  pose proof (run_base _ _ _ H1) as Hb1. pose proof (run_base _ _ _ H2) as Hb2.
  pose proof (run_counters _ _ _ H1) as Hc1. pose proof (run_counters _ _ _ H2) as Hc2.
  split.
  - congruence.
  - rewrite (run_trees _ _ _ H2). apply H1.
  - rewrite (run_model _ _ _ H2). apply H1.
  - intros k. specialize (Hc1 k). specialize (Hc2 k). lia.
  - apply Forall_app. split.
    + eapply Forall_impl; [apply (run_subjects _ _ _ H1)|].
      intros st [Hm|Hp]; [left|by right].
      eapply minted_in_weaken; [reflexivity| |exact Hc2|exact Hm]. auto.
    + eapply Forall_impl; [apply (run_subjects _ _ _ H2)|].
      intros st [Hm|Hp]; [left|by right].
      eapply minted_in_weaken; [exact Hb1|exact Hc1| |exact Hm]. auto.
  - apply Forall_app. split; [apply H1|apply H2].
  - rewrite minted_app. apply NoDup_app. split; [apply H1|]. split; [|apply H2].
    intros x Hx1 Hx2.
    eapply (minted_in_disjoint w w1 w1 w2 x); eauto using run_minted_in.
Qed.

Lemma run_clade_statements (c : clade) (parent : option string) (is_root : bool)
    (w : writer) :
  run w (clade_statements c parent is_root w).1.1 (advance c parent is_root w).
Proof.
  rewrite clade_statements_eq. cbn [fst].
  unfold root_part, tu_part, node_part, edge_part, advance.
  split; try reflexivity.
  - intros k.
    destruct k, is_root, parent, (name_present c); simpl; lia.
  - destruct is_root, (name_present c) as [nm|], parent as [pu|];
      cbn [app]; forall_list; cbn [subject predicate];
      first
        [ by right
        | left; eexists _, _; split; [reflexivity|]; simpl; lia ].
  - unfold cdao_classes.
    destruct is_root, (name_present c) as [nm|], parent as [pu|], (is_terminal c);
      cbn [app]; forall_list; cbn [object predicate];
      intros Hp; first [ absurd_eq Hp | set_solver ].
  - unfold minted. rewrite qUri_rdf_type.
    destruct is_root, (name_present c) as [nm|], parent as [pu|];
      cbn [app]; filter_list; cbn [fmap list_fmap subject];
      nodup_list.
Qed.

Lemma run_process_children (uri : string) (cs : list clade) :
  Forall (λ c, ∀ parent is_root w,
            run w (process_clade c parent is_root w).1
                  (process_clade c parent is_root w).2) cs →
  ∀ w, run w (process_children uri cs w).1 (process_children uri cs w).2.
Proof.
  induction 1 as [|c cs Hc _ IH]; intros w; cbn [process_children].
  - apply run_nil.
  - specialize (Hc (Some uri) false w).
    destruct (process_clade c (Some uri) false w) as [s1 w1].
    specialize (IH w1). destruct (process_children uri cs w1) as [s2 w2].
    by eapply run_app.
Qed.

Lemma run_process_clade (c : clade) (parent : option string) (is_root : bool)
    (w : writer) :
  run w (process_clade c parent is_root w).1 (process_clade c parent is_root w).2.
Proof.
  revert parent is_root w. induction c as [n b cs IH] using clade_ind'.
  intros parent is_root w. rewrite process_clade_eq.
  pose proof (run_clade_statements (Clade n b cs) parent is_root w) as Hown.
  rewrite clade_statements_eq in *. cbn [fst] in Hown. cbn [clades].
  pose proof (run_process_children (mint KNode (S (node_counter w))) cs IH
                (advance (Clade n b cs) parent is_root w)) as Hbelow.
  destruct (process_children _ cs _) as [below w2].
  by eapply run_app.
Qed.

Lemma process_trees_app (ts1 ts2 : list tree) (w : writer) :
  process_trees (ts1 ++ ts2) w =
    let '(s1, w1) := process_trees ts1 w in
    let '(s2, w2) := process_trees ts2 w1 in
    (s1 ++ s2, w2).
Proof.
  revert w. induction ts1 as [|t ts1 IH]; intros w; cbn [app process_trees].
  - by destruct (process_trees ts2 w).
  - destruct (process_clade (root t) None true w) as [s0 w0]. rewrite IH.
    destruct (process_trees ts1 w0) as [s1 w1].
    destruct (process_trees ts2 w1) as [s2 w2]. by rewrite app_assoc.
Qed.

Lemma run_process_trees (ts : list tree) (w : writer) :
  run w (process_trees ts w).1 (process_trees ts w).2.
Proof.
  revert w. induction ts as [|t ts IH]; intros w; cbn [process_trees].
  - apply run_nil.
  - pose proof (run_process_clade (root t) None true w) as H1.
    destruct (process_clade (root t) None true w) as [s1 w1].
    specialize (IH w1). destruct (process_trees ts w1) as [s2 w2].
    by eapply run_app.
Qed.

(** C7: in one batch, whatever the trees, the counters of the writer
    never decrease from one tree to the next (after any first part [ts1] of
    the batch they are at least what they were, and at most what they are
    at the end), and the identifiers minted in the whole batch (nodes,
    edges, edge annotations, TUs and trees, each declared by one
    [rdf:type] statement) are pairwise distinct. *)
Theorem minted_identifiers_distinct (ts1 ts2 : list tree) (w : writer) :
  let w1 := (process_trees ts1 w).2 in
  let '(statements, w2) := process_trees (ts1 ++ ts2) w in
  (∀ k, counter k w ≤ counter k w1 ∧ counter k w1 ≤ counter k w2) ∧
  NoDup (minted statements).
Proof.
  pose proof (run_process_trees (ts1 ++ ts2) w) as Hall.
  rewrite process_trees_app in *.
  pose proof (run_process_trees ts1 w) as H1.
  destruct (process_trees ts1 w) as [s1 w1].
  pose proof (run_process_trees ts2 w1) as H2.
  destruct (process_trees ts2 w1) as [s2 w2]. cbn [snd fst] in *.
  split; [|apply Hall].
  intros k. split; [apply H1|apply H2].
Qed.

(** C10: when Redland is available, [add_trees_to_model] appends to the
    model the statement that declares the CDAO namespace an
    [owl:Ontology], then the statements of the trees in their order, and
    none of the latter is that statement again; this holds for every batch,
    the empty one included. *)
Theorem ontology_statement_once (env : redland) (ts : option (list tree))
    (base : string) (w : writer) :
  rdf_importable env = true →
  storage_created env = true →
  is_Some (model w) ∨ model_created env = true →
  ∃ w',
    add_trees_to_model env ts base w = Ok w' ∧
    let per_tree := (process_trees (default (trees w) ts) (set_base_uri base w)).1 in
    model w' = Some (default [] (model w) ++ ontology_statement :: per_tree) ∧
    ontology_statement ∉ per_tree.
Proof.
  intros Himp Hsto Hmod.
  unfold add_trees_to_model, new_storage, import_rdf. rewrite Himp, Hsto. simpl.
  assert (match model w with
          | Some m => Ok m
          | None => if model_created env then Ok []
                    else Raise (CDAOError "new RDF.model failed")
          end = Ok (default [] (model w))) as ->.
  { destruct Hmod as [[m ->]| ->]; [done|]. by destruct (model w). }
  simpl.
  pose proof (run_process_trees (default (trees w) ts) (set_base_uri base w)) as Hrun.
  destruct (process_trees (default (trees w) ts) (set_base_uri base w)) as [stmts w1].
  eexists. split; [reflexivity|]. cbn [fst snd model set_model] in *. split.
  - by rewrite <-app_assoc.
  - intros Hin. pose proof (run_classes _ _ _ Hrun) as Hcl.
    rewrite Forall_forall in Hcl. specialize (Hcl _ Hin eq_refl).
    unfold cdao_classes in Hcl. cbn [object ontology_statement] in Hcl.
    rewrite !elem_of_cons in Hcl.
    repeat (destruct Hcl as [Hcl|Hcl]; [absurd_eq Hcl|]).
    by apply elem_of_nil in Hcl.
Qed.

End Decomposer.

(** ** Reconstruction from the rows of a numbered tree *)

Section Reconstruction.
Context `{PyFloat}.

(** A tree whose nodes carry the identifier the writer gave them. *)
Inductive ntree : Type :=
  NTree (id : string) (nm : option string) (len : option float) (kids : list ntree).

Definition nt_id (t : ntree) : string := let 'NTree i _ _ _ := t in i.
Definition nt_name (t : ntree) : option string := let 'NTree _ n _ _ := t in n.
Definition nt_len (t : ntree) : option float := let 'NTree _ _ l _ := t in l.
Definition nt_kids (t : ntree) : list ntree := let 'NTree _ _ _ k := t in k.

Lemma ntree_ind' (P : ntree → Prop) :
  (∀ i n l kids, Forall P kids → P (NTree i n l kids)) → ∀ t, P t.
Proof.
  intros HP. fix IH 1. intros [i n l kids]. apply HP.
  induction kids as [|k kids IHk]; constructor; [apply IH | apply IHk].
Qed.

Fixpoint forget (t : ntree) : clade :=
  let 'NTree _ n l kids := t in Clade n l (forget <$> kids).

(** The nodes of a numbered tree, in the order the writer visits them,
    each with the identifier of its parent. *)
Fixpoint nodes_with_parent (p : option string) (t : ntree)
    : list (option string * ntree) :=
  let 'NTree i _ _ kids := t in
  (p, t) :: (kids ≫= nodes_with_parent (Some i)).

Definition ids (p : option string) (t : ntree) : list string :=
  (λ pu, nt_id pu.2) <$> nodes_with_parent p t.

(** The solution row of the node query for a node. *)
Definition row_of (pu : option string * ntree) : node_row :=
  NodeRow (Uri (nt_id pu.2)) (Uri <$> pu.1)
    ((λ _, Literal (str_branch_length (nt_len pu.2))) <$> pu.1)
    (Literal <$> truthy (nt_name pu.2)).

Fixpoint nt_height (t : ntree) : nat :=
  let 'NTree _ _ _ kids := t in S (foldr (λ k h, nt_height k `max` h) 0 kids).

(** What [get_node_info] records for one row, when the row is readable. *)
Definition row_record (r : node_row) : result (string * node_record) :=
  node ← node_get_uri (row_node r);
  lbl ← match row_label r with
        | Some l => Some <$> node_literal_value l
        | None => Ok None
        end;
  len ← match row_branch_length r with
        | Some v => text ← node_literal_value v; Some <$> to_float text
        | None => Ok None
        end;
  Ok (node, NodeRecord lbl len).

Definition add_child (par : gmap string (list string)) (node : string) (r : node_row)
    : gmap string (list string) :=
  match row_parent_node r with
  | Some pn => <[node_str pn := default [] (par !! node_str pn) ++ [node]]> par
  | None => par
  end.

Lemma get_node_info_row_eq (info : gmap string node_record)
    (par : gmap string (list string)) (r : node_row) :
  get_node_info_row (info, par) r =
    match row_record r with
    | Ok (node, rec) => Ok (<[node := rec]> info, add_child par node r)
    | Raise e => Raise e
    end.
Proof.
  unfold get_node_info_row, row_record, add_child.
  destruct (node_get_uri (row_node r)) as [node|e]; [|done]. simpl.
  destruct (row_label r) as [l|]; [destruct (node_literal_value l)|]; simpl; try done;
    (destruct (row_branch_length r) as [v|];
     [destruct (node_literal_value v) as [text|]; simpl;
      [destruct (to_float text)|]|]);
    simpl; done.
Qed.

(** The children [get_node_info] lists under the key [s]. *)
Definition children_in (rows : list node_row) (s : string) : list string :=
  (λ r, node_str (row_node r)) <$>
    filter (λ r, node_str <$> row_parent_node r = Some s) rows.

Lemma row_record_node (r : node_row) (node : string) (rec : node_record) :
  row_record r = Ok (node, rec) → node = node_str (row_node r).
Proof.
  unfold row_record. destruct (row_node r); simpl; [|done].
  destruct (row_label r) as [l|]; [destruct (node_literal_value l)|]; simpl; try done;
    (destruct (row_branch_length r) as [v|];
     [destruct (node_literal_value v) as [text|]; simpl;
      [destruct (to_float text)|]|]);
    simpl; congruence.
Qed.

Lemma get_node_info_rows_spec (rows : list node_row) (recs : list (string * node_record)) :
  Forall2 (λ r nr, row_record r = Ok nr) rows recs →
  ∀ info0 par0, ∃ info par,
    get_node_info_rows rows (info0, par0) = Ok (info, par) ∧
    (∀ s, default [] (par !! s) = default [] (par0 !! s) ++ children_in rows s) ∧
    (∀ s, s ∉ recs.*1 → info !! s = info0 !! s) ∧
    (NoDup recs.*1 → ∀ s rec, (s, rec) ∈ recs → info !! s = Some rec).
Proof.
  induction 1 as [|r [node rec] rows recs Hr _ IH]; intros info0 par0.
  - exists info0, par0. split; [done|]. split; [|split].
    + intros s. by rewrite app_nil_r.
    + done.
    + intros _ s rec Hin. by apply elem_of_nil in Hin.
  - cbn [get_node_info_rows]. rewrite get_node_info_row_eq, Hr.
    destruct (IH (<[node := rec]> info0) (add_child par0 node r))
      as (info & par & Hrun & Hpar & Hout & Hin).
    exists info, par. split; [exact Hrun|]. split; [|split].
    + intros s. rewrite Hpar. unfold children_in. rewrite filter_cons.
      apply row_record_node in Hr as ->. unfold add_child.
      destruct (row_parent_node r) as [pn|]; cbn [fmap option_fmap option_map].
      * destruct (decide (Some (node_str pn) = Some s)) as [[= ->]|Hne].
        -- rewrite lookup_insert_eq. simpl. by rewrite <-app_assoc.
        -- rewrite lookup_insert_ne by congruence. done.
      * rewrite decide_False by done. done.
    + intros s Hs. cbn [fmap list_fmap fst] in Hs. apply not_elem_of_cons in Hs as [Hne Hs].
      rewrite (Hout s Hs). by rewrite lookup_insert_ne.
    + intros Hnd s rec' Hel. cbn [fmap list_fmap fst] in Hnd.
      apply NoDup_cons in Hnd as [Hfresh Hnd].
      apply elem_of_cons in Hel as [[= -> ->]|Hel].
      * rewrite (Hout node Hfresh). by rewrite lookup_insert_eq.
      * by apply Hin.
Qed.

Fixpoint nt_ids (t : ntree) : list string :=
  let 'NTree i _ _ kids := t in i :: (kids ≫= nt_ids).

Lemma nt_ids_eq (i : string) (n : option string) (l : option float) (kids : list ntree) :
  nt_ids (NTree i n l kids) = i :: (kids ≫= nt_ids).
Proof. reflexivity. Qed.

Lemma nodes_with_parent_eq (p : option string) (i : string) (n : option string)
    (l : option float) (kids : list ntree) :
  nodes_with_parent p (NTree i n l kids)
  = (p, NTree i n l kids) :: (kids ≫= nodes_with_parent (Some i)).
Proof. reflexivity. Qed.

Lemma nodes_with_parent_ids (p : option string) (t : ntree) :
  (λ pu, nt_id pu.2) <$> nodes_with_parent p t = nt_ids t.
Proof.
  revert p. induction t as [i n l kids IH] using ntree_ind'. intros p.
  rewrite nodes_with_parent_eq, nt_ids_eq. cbn [fmap list_fmap snd nt_id]. f_equal.
  induction IH as [|k kids Hk _ IHkids]; [done|].
  rewrite !bind_cons, fmap_app. by rewrite Hk, IHkids.
Qed.

(** The entries of an enumeration whose parent is [s]. *)
Definition children_of (s : string) (e : list (option string * ntree))
    : list (option string * ntree) :=
  filter (λ pu, pu.1 = Some s) e.

Lemma children_of_app (s : string) (e1 e2 : list (option string * ntree)) :
  children_of s (e1 ++ e2) = children_of s e1 ++ children_of s e2.
Proof. apply filter_app. Qed.

Lemma children_of_cons (s : string) (x : option string * ntree)
    (e : list (option string * ntree)) :
  children_of s (x :: e) =
    if decide (x.1 = Some s) then x :: children_of s e else children_of s e.
Proof. unfold children_of. by rewrite filter_cons. Qed.

Lemma children_of_outside (t : ntree) (p : option string) (s : string) :
  s ∉ nt_ids t →
  children_of s (nodes_with_parent p t) = if decide (p = Some s) then [(p, t)] else [].
Proof.
  revert p. induction t as [i n l kids IH] using ntree_ind'. intros p Hs.
  rewrite nodes_with_parent_eq. rewrite nt_ids_eq in Hs.
  apply not_elem_of_cons in Hs as [Hne Hs].
  rewrite children_of_cons.
  assert (children_of s (kids ≫= nodes_with_parent (Some i)) = []) as ->.
  { induction IH as [|k kids Hk _ IHkids]; [done|].
    rewrite bind_cons in *. apply not_elem_of_app in Hs as [Hs1 Hs2].
    rewrite children_of_app, IHkids by done. rewrite Hk by done.
    rewrite decide_False by congruence. done. }
  cbn [fst]. by destruct (decide (p = Some s)).
Qed.

Lemma children_of_others (kids : list ntree) (i s : string) :
  s ≠ i → s ∉ kids ≫= nt_ids →
  children_of s (kids ≫= nodes_with_parent (Some i)) = [].
Proof.
  intros Hne. induction kids as [|k kids IH]; intros Hs; [done|].
  rewrite bind_cons in *. apply not_elem_of_app in Hs as [Hs1 Hs2].
  rewrite children_of_app, IH by done.
  rewrite children_of_outside by done. rewrite decide_False by congruence. done.
Qed.

Lemma children_of_root (t : ntree) (p : option string) :
  NoDup (nt_ids t) → p ≠ Some (nt_id t) →
  children_of (nt_id t) (nodes_with_parent p t) = (λ k, (Some (nt_id t), k)) <$> nt_kids t.
Proof.
  destruct t as [i n l kids]. rewrite nodes_with_parent_eq, nt_ids_eq.
  cbn [nt_id nt_kids]. intros [Hi Hnd]%NoDup_cons Hp.
  rewrite children_of_cons, decide_False by done.
  clear Hnd. induction kids as [|k kids IH]; [done|].
  rewrite bind_cons in *. apply not_elem_of_app in Hi as [Hi1 Hi2].
  rewrite children_of_app, IH by done.
  rewrite children_of_outside by done. by rewrite decide_True.
Qed.

Lemma nt_id_in_ids (t : ntree) : nt_id t ∈ nt_ids t.
Proof. destruct t. left. Qed.

(** The subtree [u], enumerated with parent [p], lies in the
    enumeration [e] and holds all the children of its nodes. *)
Record inside (e : list (option string * ntree)) (p : option string) (u : ntree)
    : Prop := {
  inside_children :
    ∀ s, s ∈ nt_ids u → children_of s e = children_of s (nodes_with_parent p u);
  inside_nodes : nodes_with_parent p u ⊆ e;
  inside_parent : ∀ s, s ∈ nt_ids u → p ≠ Some s;
  inside_nodup : NoDup (nt_ids u)
}.

Lemma inside_whole (t : ntree) :
  NoDup (nt_ids t) → inside (nodes_with_parent None t) None t.
Proof. intros Hnd. split; done. Qed.

Lemma inside_kid (e : list (option string * ntree)) (p : option string) (u k : ntree) :
  inside e p u → k ∈ nt_kids u → inside e (Some (nt_id u)) k.
Proof.
  intros [Hch Hsub Hp Hnd] Hk. destruct u as [i n l kids].
  rewrite nodes_with_parent_eq in *. rewrite nt_ids_eq in *. cbn [nt_kids nt_id] in *.
  apply list_elem_of_split in Hk as (l1 & l2 & ->).
  rewrite !bind_app, !bind_cons in *.
  apply NoDup_cons in Hnd as [Hi Hnd].
  apply NoDup_app in Hnd as (Hnd1 & Hdisj1 & Hnd).
  apply NoDup_app in Hnd as (Hndk & Hdisj2 & Hnd2).
  rewrite !not_elem_of_app in Hi. destruct Hi as (Hi1 & Hik & Hi2).
  split.
  - intros s Hs. rewrite Hch by (right; set_solver).
    assert (s ≠ i) as Hne by (intros ->; done).
    rewrite children_of_cons, decide_False.
    2:{ cbn [fst]. apply Hp. right. set_solver. }
    rewrite !children_of_app.
    rewrite (children_of_others l1), (children_of_others l2); try done.
    + by rewrite app_nil_r.
    + intros Hin. by apply (Hdisj2 s).
    + intros Hin. apply (Hdisj1 s Hin). apply elem_of_app. by left.
  - set_solver.
  - intros s Hs [= ->]. done.
  - done.
Qed.

(** The reconstructed clade [c'] is the clade [c] up to the order of
    the children: the name is kept (an empty name comes back absent), a
    root comes back without branch length, any other clade with a branch
    length close to the original one, and the children correspond one to
    one after a permutation. *)
Inductive similar (close : float → float → Prop) : bool → clade → clade → Prop :=
  | similar_clade (is_root : bool) (c c' : clade) (cs : list clade) :
      name c' = truthy (name c) →
      (if is_root then branch_length c' = None
       else ∃ x y, branch_length c = Some x ∧ branch_length c' = Some y ∧ close x y) →
      clades c ≡ₚ cs →
      Forall2 (similar close false) cs (clades c') →
      similar close is_root c c'.

(** The loop of [parse_children], as a function of its own. *)
Fixpoint parse_children_loop (depth' : nat) (info : gmap string node_record)
    (par : gmap string (list string)) (children : list string) : result (list clade) :=
  match children with
  | [] => Ok []
  | child_node :: rest =>
      c ← new_clade info child_node;
      cs ← parse_children depth' info par child_node;
      child_clades ← parse_children_loop depth' info par rest;
      Ok (set_clades cs c :: child_clades)
  end.

Lemma parse_children_eq (depth' : nat) (info : gmap string node_record)
    (par : gmap string (list string)) (node : string) :
  parse_children (S depth') info par node =
    parse_children_loop depth' info par (default [] (par !! node)).
Proof.
  cbn [parse_children]. generalize (default [] (par !! node)) as children.
  induction children as [|ch rest IH]; [done|].
  cbn [parse_children_loop]. by rewrite IH.
Qed.

Section Rebuild.
Context (close : float → float → Prop).
Context (e : list (option string * ntree)).
Context (info : gmap string node_record) (par : gmap string (list string)).

Hypothesis par_children :
  ∀ s, default [] (par !! s) ≡ₚ (λ pu, nt_id pu.2) <$> children_of s e.
Hypothesis info_child :
  ∀ q x, (Some q, x) ∈ e →
    ∃ v y, nt_len x = Some v ∧ close v y ∧
           info !! nt_id x = Some (NodeRecord (truthy (nt_name x)) (Some y)).

Lemma parse_children_inside (u : ntree) :
  ∀ p depth, inside e p u → nt_height u ≤ depth →
    ∃ cs kids', parse_children depth info par (nt_id u) = Ok cs ∧
                nt_kids u ≡ₚ kids' ∧
                Forall2 (λ k c', similar close false (forget k) c') kids' cs.
Proof.
  induction u as [i n l kids IH] using ntree_ind'. intros p depth Hin Hdepth.
  destruct depth as [|depth]; [cbn in Hdepth; lia|].
  rewrite parse_children_eq. cbn [nt_id nt_kids].
  pose proof (par_children i) as Hperm.
  rewrite (inside_children _ _ _ Hin i) in Hperm by apply (nt_id_in_ids (NTree i n l kids)).
  pose proof (children_of_root (NTree i n l kids) p (inside_nodup _ _ _ Hin)) as Hroot.
  cbn [nt_id nt_kids] in Hroot. rewrite Hroot in Hperm.
  2:{ apply (inside_parent _ _ _ Hin). apply (nt_id_in_ids (NTree i n l kids)). }
  rewrite <-list_fmap_compose in Hperm.
  apply Permutation_map_inv in Hperm as (kids' & Heq & Hkids).
  change (map ?f ?l) with (f <$> l) in Heq. rewrite Heq.
  assert (∀ part, part ⊆ kids →
    ∃ cs, parse_children_loop depth info par (nt_id <$> part) = Ok cs ∧
          Forall2 (λ k c', similar close false (forget k) c') part cs) as Hloop.
  { induction part as [|k part IHpart]; intros Hsub.
    - exists []. split; [done|constructor].
    - assert (k ∈ kids) as Hk by (apply Hsub; left).
      destruct IHpart as (cs & Hcs & Hrel); [intros x Hx; apply Hsub; by right|].
      pose proof (inside_kid e p (NTree i n l kids) k Hin Hk) as Hink.
      cbn [nt_id] in Hink.
      rewrite Forall_forall in IH.
      destruct (IH k Hk (Some i) depth Hink) as (csk & kidsk & Hpk & Hpermk & Hrelk).
      { cbn [nt_height] in Hdepth. apply le_S_n in Hdepth.
        etrans; [|exact Hdepth]. clear -Hk.
        induction kids as [|k0 kids IHk]; [by apply elem_of_nil in Hk|].
        cbn [foldr]. apply elem_of_cons in Hk as [->|Hk]; [lia|].
        specialize (IHk Hk). lia. }
      destruct (info_child i k) as (v & y & Hv & Hclose & Hinfo).
      { apply (inside_nodes _ _ _ Hink). destruct k. left. }
      cbn [fmap list_fmap parse_children_loop]. unfold new_clade. rewrite Hinfo.
      cbn [mbind result_bind]. rewrite Hpk. cbn [mbind result_bind].
      change (list_fmap _ _ nt_id part) with (nt_id <$> part). rewrite Hcs.
      cbn [mbind result_bind]. eexists. split; [reflexivity|].
      constructor; [|exact Hrel].
      destruct k as [ik nk lk kk]. cbn [nt_name nt_len nt_kids forget] in *.
      eapply (similar_clade close false _ _ (forget <$> kidsk)).
      + done.
      + exists v, y. cbn. by subst.
      + cbn [clades]. by apply fmap_Permutation.
      + cbn [clades set_clades]. by apply Forall2_fmap_l. }
  destruct (Hloop kids') as (cs & Hcs & Hrel).
  { intros x Hx. by rewrite Hkids. }
  exists cs, kids'. done.
Qed.

End Rebuild.

(** What [get_node_info] records for a node of a numbered tree. *)
Definition record_of (pu : option string * ntree) : string * node_record :=
  (nt_id pu.2,
   NodeRecord (truthy (nt_name pu.2))
     (match pu.1 with
      | Some _ => float_parse (str_branch_length (nt_len pu.2))
      | None => None
      end)).

Lemma children_in_row_of (e : list (option string * ntree)) (s : string) :
  children_in (row_of <$> e) s = (λ pu, nt_id pu.2) <$> children_of s e.
Proof.
  unfold children_in, children_of.
  induction e as [|[q x] e IH]; [done|].
  cbn [fmap list_fmap]. rewrite !filter_cons.
  change (list_fmap _ _ row_of e) with (row_of <$> e).
  destruct q as [q|]; cbn [row_of row_parent_node fst snd fmap option_fmap option_map
                            node_str].
  - destruct (decide (Some q = Some s)) as [Heq|Hne].
    + cbn [fmap list_fmap row_node row_of node_str snd]. f_equal. exact IH.
    + exact IH.
  - rewrite !decide_False by done. exact IH.
Qed.

(** The law of Python floats the round trip rests on: the text of a
    float reads back as a float close to it. *)
Definition float_round_trip (close : float → float → Prop) : Prop :=
  ∀ x, ∃ y, float_parse (float_str x) = Some y ∧ close x y.

(** Every node that has a parent has a branch length. *)
Definition lengths_present (e : list (option string * ntree)) : Prop :=
  ∀ q x, (Some q, x) ∈ e → is_Some (nt_len x).

Lemma row_record_row_of (close : float → float → Prop) (pu : option string * ntree) :
  float_round_trip close →
  (is_Some pu.1 → is_Some (nt_len pu.2)) →
  row_record (row_of pu) = Ok (record_of pu).
Proof.
  intros Hlaw Hlen. destruct pu as [[q|] x]; unfold row_record, row_of, record_of;
    cbn [fst snd row_node row_label row_branch_length node_get_uri fmap option_fmap
         option_map mbind result_bind].
  - destruct (Hlen ltac:(by eexists)) as [v Hv]. cbn [snd] in Hv. rewrite Hv.
    destruct (Hlaw v) as (y & Hy & _). cbn [str_branch_length].
    destruct (truthy (nt_name x)); cbn; unfold to_float; rewrite Hy; done.
  - destruct (truthy (nt_name x)); done.
Qed.

Lemma get_node_info_numbered (close : float → float → Prop) (t : ntree)
    (rows : list node_row) :
  float_round_trip close →
  NoDup (nt_ids t) →
  lengths_present (nodes_with_parent None t) →
  rows ≡ₚ row_of <$> nodes_with_parent None t →
  ∃ info par,
    get_node_info rows = Ok (info, par) ∧
    info !! nt_id t = Some (NodeRecord (truthy (nt_name t)) None) ∧
    (∀ s, default [] (par !! s)
          ≡ₚ (λ pu, nt_id pu.2) <$> children_of s (nodes_with_parent None t)) ∧
    (∀ q x, (Some q, x) ∈ nodes_with_parent None t →
       ∃ v y, nt_len x = Some v ∧ close v y ∧
              info !! nt_id x = Some (NodeRecord (truthy (nt_name x)) (Some y))).
Proof.
  intros Hlaw Hnd Hlen Hrows.
  apply Permutation_map_inv in Hrows as (e' & -> & He).
  change (map row_of e') with (row_of <$> e').
  assert (Forall2 (λ r nr, row_record r = Ok nr) (row_of <$> e') (record_of <$> e'))
    as Hrec.
  { apply Forall2_fmap, Forall_Forall2_diag, Forall_forall. intros [q x] Hin.
    apply (row_record_row_of close); [done|]. intros [q' Hq]. cbn [fst snd] in *.
    subst q. apply (Hlen q'). by rewrite He. }
  destruct (get_node_info_rows_spec _ _ Hrec ∅ ∅) as (info & par & Hrun & Hpar & _ & Hinfo).
  assert (NoDup (record_of <$> e').*1) as Hnd'.
  { rewrite <-list_fmap_compose.
    change (fst ∘ record_of) with (λ pu : option string * ntree, nt_id pu.2).
    rewrite <-He, nodes_with_parent_ids. done. }
  specialize (Hinfo Hnd').
  exists info, par. split; [exact Hrun|]. split; [|split].
  - apply (Hinfo _ _). apply list_elem_of_fmap. exists (None, t).
    split; [done|]. rewrite <-He. destruct t. left.
  - intros s. rewrite Hpar, lookup_empty. cbn [default app].
    rewrite children_in_row_of. unfold children_of. by rewrite He.
  - intros q x Hin. destruct (Hlen q x Hin) as [v Hv].
    destruct (Hlaw v) as (y & Hy & Hclose). exists v, y. split; [done|]. split; [done|].
    rewrite (Hinfo (nt_id x) (record_of (Some q, x)).2).
    + unfold record_of. cbn [fst snd]. by rewrite Hv, <-Hy.
    + apply list_elem_of_fmap. exists (Some q, x). split; [done|]. by rewrite <-He.
Qed.

(** The second part of the round trip: from any answer to the node query
    that is a permutation of the rows of a numbered tree, [parse_model]
    yields one tree, similar to the tree the numbers were put on. *)
Lemma parse_model_numbered (close : float → float → Prop) (env : redland)
    (depth : nat) (b : bool) (t : ntree) (rows : list node_row) :
  float_round_trip close →
  rdf_importable env = true →
  NoDup (nt_ids t) →
  lengths_present (nodes_with_parent None t) →
  nt_height t ≤ depth →
  rows ≡ₚ row_of <$> nodes_with_parent None t →
  ∃ c', parse_model env depth (Some b) rows [Uri (nt_id t)] = ([Tree c' b], None) ∧
        similar close true (forget t) c'.
Proof.
  intros Hlaw Himp Hnd Hlen Hdepth Hrows.
  destruct (get_node_info_numbered close t rows Hlaw Hnd Hlen Hrows)
    as (info & par & Hrun & Hroot & Hpar & Hinfo).
  destruct (parse_children_inside close _ info par Hpar Hinfo t None depth
              (inside_whole t Hnd) Hdepth) as (cs & kids' & Hcs & Hperm & Hrel).
  unfold parse_model, import_rdf. rewrite Himp, Hrun.
  cbn [parse_roots]. unfold parse_root, new_clade.
  cbn [node_get_uri mbind result_bind]. rewrite Hroot. cbn [mbind result_bind].
  rewrite Hcs. cbn [mbind result_bind].
  eexists. split; [reflexivity|].
  destruct t as [i n l kids]. cbn [forget nt_name nt_kids] in *.
  eapply (similar_clade close true _ _ (forget <$> kids')).
  - done.
  - done.
  - cbn [clades]. by apply fmap_Permutation.
  - cbn [clades set_clades]. by apply Forall2_fmap_l.
Qed.

End Reconstruction.

(** ** From the statements of a tree to the rows of its numbered tree *)

Section RoundTrip.
Context `{PyFloat}.

Fixpoint height (c : clade) : nat :=
  let 'Clade _ _ cs := c in S (foldr (λ k h, height k `max` h) 0 cs).

(** Every clade below [c] has a branch length. *)
Fixpoint children_have_lengths (c : clade) : bool :=
  let 'Clade _ _ cs := c in
  forallb (λ k, bool_decide (is_Some (branch_length k)) && children_have_lengths k) cs.

Lemma nt_height_forget (t : ntree) : nt_height t = height (forget t).
Proof.
  induction t as [i n l kids IH] using ntree_ind'. cbn [nt_height forget height].
  f_equal. induction IH as [|k kids Hk _ IHkids]; [done|].
  cbn [fmap list_fmap foldr]. rewrite Hk. f_equal. exact IHkids.
Qed.

Lemma lengths_present_forget (t : ntree) (p : option string) :
  children_have_lengths (forget t) = true →
  (is_Some p → is_Some (nt_len t)) →
  lengths_present (nodes_with_parent p t).
Proof.
  revert p. induction t as [i n l kids IH] using ntree_ind'. intros p Hc Hp q x Hin.
  rewrite nodes_with_parent_eq in Hin. cbn [forget children_have_lengths] in Hc.
  apply elem_of_cons in Hin as [[= <- ->]|Hin]; [apply Hp; by eexists|].
  clear Hp. induction IH as [|k kids Hk _ IHkids]; [by apply elem_of_nil in Hin|].
  cbn [fmap list_fmap forallb] in Hc.
  apply andb_true_iff in Hc as [[Hlen Hck]%andb_true_iff Hc].
  rewrite bind_cons in Hin. apply elem_of_app in Hin as [Hin|Hin].
  - apply (Hk (Some i) Hck) with (q := q); [|done]. intros _.
    apply bool_decide_eq_true in Hlen. by destruct k.
  - by apply IHkids.
Qed.

(** The numbered tree of a clade: every node with the identifier
    [process_clade] gives it, under the base URI of the writer. *)
Fixpoint number (c : clade) (parent : option string) (is_root : bool) (w : writer)
    : ntree :=
  let 'Clade n b cs := c in
  let uri := mint KNode (S (node_counter w)) in
  NTree (base_uri w +:+ uri) n b
    ((fix kids (cs : list clade) (w : writer) : list ntree :=
        match cs with
        | [] => []
        | k :: cs' =>
            number k (Some uri) false w
            :: kids cs' (process_clade k (Some uri) false w).2
        end) cs (advance (Clade n b cs) parent is_root w)).

Fixpoint number_children (uri : string) (cs : list clade) (w : writer) : list ntree :=
  match cs with
  | [] => []
  | k :: cs' =>
      number k (Some uri) false w
      :: number_children uri cs' (process_clade k (Some uri) false w).2
  end.

Lemma number_eq (c : clade) (parent : option string) (is_root : bool) (w : writer) :
  number c parent is_root w =
    NTree (base_uri w +:+ mint KNode (S (node_counter w))) (name c) (branch_length c)
      (number_children (mint KNode (S (node_counter w))) (clades c)
         (advance c parent is_root w)).
Proof.
  destruct c as [n b cs]. cbn [number name branch_length clades]. f_equal.
  generalize (advance (Clade n b cs) parent is_root w) as w1.
  induction cs as [|k cs IH]; intros w1; [done|].
  cbn [number_children]. by rewrite IH.
Qed.

Lemma process_clade_snd (c : clade) (parent : option string) (is_root : bool)
    (w : writer) :
  (process_clade c parent is_root w).2 =
    (process_children (mint KNode (S (node_counter w))) (clades c)
       (advance c parent is_root w)).2.
Proof.
  rewrite process_clade_eq, clade_statements_eq.
  by destruct (process_children _ (clades c) _).
Qed.

Lemma process_clade_fst (c : clade) (parent : option string) (is_root : bool)
    (w : writer) :
  (process_clade c parent is_root w).1 =
    (clade_statements c parent is_root w).1.1 ++
    (process_children (mint KNode (S (node_counter w))) (clades c)
       (advance c parent is_root w)).1.
Proof.
  rewrite process_clade_eq, clade_statements_eq.
  by destruct (process_children _ (clades c) _).
Qed.

Lemma process_children_cons (uri : string) (k : clade) (cs : list clade) (w : writer) :
  process_children uri (k :: cs) w =
    ((process_clade k (Some uri) false w).1 ++
     (process_children uri cs (process_clade k (Some uri) false w).2).1,
     (process_children uri cs (process_clade k (Some uri) false w).2).2).
Proof.
  cbn [process_children]. destruct (process_clade k (Some uri) false w) as [s1 w1].
  cbn [fst snd]. by destruct (process_children uri cs w1).
Qed.

Lemma forget_number (c : clade) (parent : option string) (is_root : bool) (w : writer) :
  forget (number c parent is_root w) = c.
Proof.
  revert parent is_root w. induction c as [n b cs IH] using clade_ind'.
  intros parent is_root w. rewrite number_eq. cbn [forget name branch_length clades].
  f_equal. generalize (advance (Clade n b cs) parent is_root w) as w1.
  induction IH as [|k cs Hk _ IHcs]; intros w1; [done|].
  cbn [number_children fmap list_fmap]. rewrite Hk. f_equal. apply IHcs.
Qed.

(** A node identifier minted between [w] and [w']. *)
Definition node_id_in (w w' : writer) (s : string) : Prop :=
  ∃ k, s = base_uri w +:+ mint KNode k ∧ node_counter w < k ≤ node_counter w'.

Lemma node_id_in_disjoint (w w1 w1' w2 : writer) (s : string) :
  base_uri w1' = base_uri w → node_counter w1 ≤ node_counter w1' →
  node_id_in w w1 s → node_id_in w1' w2 s → False.
Proof.
  intros Hb Hle (k & -> & Hk) (k' & Heq & Hk'). rewrite Hb in Heq.
  apply (inj (String.append (base_uri w))) in Heq. apply mint_inj in Heq as [_ ->]. lia.
Qed.

Lemma number_children_ids (uri : string) (cs : list clade) :
  Forall (λ c, ∀ parent is_root w,
            NoDup (nt_ids (number c parent is_root w)) ∧
            ∀ s, s ∈ nt_ids (number c parent is_root w) →
                 node_id_in w (process_clade c parent is_root w).2 s) cs →
  ∀ w, NoDup (number_children uri cs w ≫= nt_ids) ∧
       ∀ s, s ∈ number_children uri cs w ≫= nt_ids →
            node_id_in w (process_children uri cs w).2 s.
Proof.
  induction 1 as [|k cs Hk _ IH]; intros w.
  - split; [constructor|]. intros s Hs. by apply elem_of_nil in Hs.
  - cbn [number_children]. rewrite bind_cons, process_children_cons. cbn [snd].
    destruct (Hk (Some uri) false w) as [Hnd1 Hin1].
    pose proof (run_process_clade k (Some uri) false w) as Hrun1.
    set (w1 := (process_clade k (Some uri) false w).2) in *.
    destruct (IH w1) as [Hnd2 Hin2].
    pose proof (run_process_children uri cs
      ltac:(apply Forall_forall; intros; apply run_process_clade) w1) as Hrun2.
    set (w2 := (process_children uri cs w1).2) in *.
    pose proof (run_counters _ _ _ Hrun1 KNode) as Hc1.
    pose proof (run_counters _ _ _ Hrun2 KNode) as Hc2.
    pose proof (run_base _ _ _ Hrun1) as Hb1. cbn [counter] in Hc1, Hc2.
    split.
    + apply NoDup_app. split; [done|]. split; [|done].
      intros s Hs1 Hs2.
      by apply (node_id_in_disjoint w w1 w1 w2 s Hb1 ltac:(lia) (Hin1 s Hs1) (Hin2 s Hs2)).
    + intros s [Hs|Hs]%elem_of_app.
      * destruct (Hin1 s Hs) as (j & -> & Hj). exists j. split; [done|lia].
      * destruct (Hin2 s Hs) as (j & -> & Hj). exists j. rewrite Hb1. split; [done|lia].
Qed.

Lemma number_ids (c : clade) (parent : option string) (is_root : bool) (w : writer) :
  NoDup (nt_ids (number c parent is_root w)) ∧
  ∀ s, s ∈ nt_ids (number c parent is_root w) →
       node_id_in w (process_clade c parent is_root w).2 s.
Proof.
  revert parent is_root w. induction c as [n b cs IH] using clade_ind'.
  intros parent is_root w. rewrite number_eq, nt_ids_eq, process_clade_snd.
  cbn [clades].
  destruct (number_children_ids (mint KNode (S (node_counter w))) cs IH
              (advance (Clade n b cs) parent is_root w)) as [Hnd Hin].
  pose proof (run_process_children (mint KNode (S (node_counter w))) cs
    ltac:(apply Forall_forall; intros; apply run_process_clade)
    (advance (Clade n b cs) parent is_root w)) as Hrun.
  pose proof (run_counters _ _ _ Hrun KNode) as Hc. cbn [counter advance node_counter] in Hc.
  split.
  - apply NoDup_cons. split; [|done]. intros Hs.
    destruct (Hin _ Hs) as (j & Heq & Hj). cbn [advance base_uri node_counter] in Heq, Hj.
    apply (inj (String.append (base_uri w))) in Heq. apply mint_inj in Heq as [_ <-]. lia.
  - intros s [->|Hs]%elem_of_cons.
    + exists (S (node_counter w)). split; [done|lia].
    + destruct (Hin _ Hs) as (j & -> & Hj). cbn [advance base_uri node_counter] in *.
      exists j. split; [done|lia].
Qed.

(** The rows of the node query for the nodes [nodes], over the model [m]. *)
Definition rows_for (m : list statement) (nodes : list rdf_node) : list node_row :=
  node ← nodes;
  pv ← optional (parent_pattern m node);
  lbl ← optional (label_pattern m node);
  [NodeRow node (fst <$> pv) (snd <$> pv) lbl].

Lemma node_query_rows_for (m : list statement) : node_query m = rows_for m (node_pattern m).
Proof. reflexivity. Qed.

Lemma rows_for_app (m : list statement) (n1 n2 : list rdf_node) :
  rows_for m (n1 ++ n2) = rows_for m n1 ++ rows_for m n2.
Proof. unfold rows_for. apply bind_app. Qed.

Lemma rows_for_perm (m : list statement) (n1 n2 : list rdf_node) :
  n1 ≡ₚ n2 → rows_for m n1 ≡ₚ rows_for m n2.
Proof. intros Hp. unfold rows_for. by rewrite Hp. Qed.

Lemma objects_of_app (a b : list statement) (s p : rdf_node) :
  objects_of (a ++ b) s p = objects_of a s p ++ objects_of b s p.
Proof. unfold objects_of. by rewrite filter_app, fmap_app. Qed.

Lemma subjects_of_app (a b : list statement) (p o : rdf_node) :
  subjects_of (a ++ b) p o = subjects_of a p o ++ subjects_of b p o.
Proof. unfold subjects_of. by rewrite filter_app, fmap_app. Qed.

Lemma node_pattern_app (a b : list statement) :
  node_pattern (a ++ b) ≡ₚ node_pattern a ++ node_pattern b.
Proof.
  unfold node_pattern. rewrite !subjects_of_app.
  rewrite <-!app_assoc. apply Permutation_app_head.
  rewrite !app_assoc. apply Permutation_app_tail. apply Permutation_app_comm.
Qed.

(** A statement that says nothing (that the queries read) about the
    identifiers minted between [w] and [w']. *)
Definition foreign (w w' : writer) (st : statement) : Prop :=
  predicate st = cdao "belongs_to_Edge_as_Parent" ∨ ¬ minted_in w w' (subject st).

Lemma objects_of_foreign (w w' : writer) (l : list statement) (s p : rdf_node) :
  Forall (foreign w w') l → minted_in w w' s → p ≠ cdao "belongs_to_Edge_as_Parent" →
  objects_of l s p = [].
Proof.
  intros Hl Hs Hp. unfold objects_of.
  induction Hl as [|st l Hst _ IH]; [done|].
  rewrite filter_cons_False; [exact IH|].
  intros [<- <-]. destruct Hst as [Hst|Hst]; done.
Qed.

Lemma foreign_weaken (w0 w1 w w' : writer) (l : list statement) :
  base_uri w = base_uri w0 →
  (∀ k, counter k w0 ≤ counter k w) → (∀ k, counter k w' ≤ counter k w1) →
  Forall (foreign w0 w1) l → Forall (foreign w w') l.
Proof.
  intros Hb Hlo Hhi Hl. eapply Forall_impl; [exact Hl|].
  intros st [Hp|Hm]; [by left|right].
  intros Hin. apply Hm. by eapply minted_in_weaken.
Qed.

Lemma run_foreign_after (w w' w1 w2 : writer) (l : list statement) :
  run w1 l w2 → base_uri w1 = base_uri w → (∀ k, counter k w' ≤ counter k w1) →
  Forall (foreign w w') l.
Proof.
  intros Hrun Hb Hle. eapply Forall_impl; [apply (run_subjects _ _ _ Hrun)|].
  intros st [Hm|Hp]; [right|by left]. intros Hm'.
  by eapply (minted_in_disjoint w w' w1 w2).
Qed.

Lemma run_foreign_before (w w' w1 w2 : writer) (l : list statement) :
  run w1 l w2 → base_uri w = base_uri w1 → (∀ k, counter k w2 ≤ counter k w) →
  Forall (foreign w w') l.
Proof.
  intros Hrun Hb Hle. eapply Forall_impl; [apply (run_subjects _ _ _ Hrun)|].
  intros st [Hm|Hp]; [right|by left]. intros Hm'.
  by eapply (minted_in_disjoint w1 w2 w w').
Qed.

(** In a model whose other statements are foreign to a clade's
    identifiers, a lookup under one of them reads the clade's own
    statements only. *)
Lemma objects_of_own (w w1 : writer) (pre own post : list statement) (s p : rdf_node) :
  Forall (foreign w w1) pre → Forall (foreign w w1) post →
  minted_in w w1 s → p ≠ cdao "belongs_to_Edge_as_Parent" →
  objects_of (pre ++ own ++ post) s p = objects_of own s p.
Proof.
  intros Hpre Hpost Hs Hp. rewrite !objects_of_app.
  rewrite (objects_of_foreign w w1 pre), (objects_of_foreign w w1 post) by done.
  by rewrite app_nil_r.
Qed.

(** The statements of one clade, by groups, and what the patterns of the
    node query find in them. *)
Definition own_statements (b : string) (is_root : bool) (nm : option string)
    (terminal : bool) (parent : option string) (len : string) (t n u e : nat)
    : list statement :=
  root_part b is_root t n ++ tu_part b nm u n ++ node_part b terminal n
  ++ edge_part b parent len e n.

Section OwnStatements.
Context (b : string) (is_root : bool) (nm : option string) (terminal : bool).
Context (parent : option string) (len : string) (t n u e : nat).

Abbreviation own := (own_statements b is_root nm terminal parent len t n u e).

Ltac own_lookup :=
  unfold objects_of, subjects_of, own_statements, root_part, tu_part, node_part, edge_part;
  rewrite !filter_app;
  destruct is_root, nm, parent; filter_list; reflexivity.

Lemma own_has_Parent :
  objects_of own (nUri b (mint KNode n)) (cdao "has_Parent")
  = match parent with Some pu => [nUri b pu] | None => [] end.
Proof. own_lookup. Qed.

Lemma own_belongs_Child :
  objects_of own (nUri b (mint KNode n)) (cdao "belongs_to_Edge_as_Child")
  = match parent with Some _ => [nUri b (mint KEdge e)] | None => [] end.
Proof. own_lookup. Qed.

Lemma own_has_annotation :
  objects_of own (nUri b (mint KEdge e)) (cdao "has_annotation")
  = match parent with Some _ => [nUri b (mint KAnn e)] | None => [] end.
Proof. own_lookup. Qed.

Lemma own_annotation_type :
  objects_of own (nUri b (mint KAnn e)) sparql_a
  = match parent with Some _ => [cdao "EdgeLength"] | None => [] end.
Proof. own_lookup. Qed.

Lemma own_has_value :
  objects_of own (nUri b (mint KAnn e)) (cdao "has_value")
  = match parent with Some _ => [Literal len] | None => [] end.
Proof. own_lookup. Qed.

Lemma own_represents_TU :
  objects_of own (nUri b (mint KNode n)) (cdao "represents_TU")
  = match nm with Some _ => [nUri b (mint KTu u)] | None => [] end.
Proof. own_lookup. Qed.

Lemma own_label :
  objects_of own (nUri b (mint KTu u)) (rdf "label")
  = match nm with Some s => [Literal s] | None => [] end.
Proof. own_lookup. Qed.

Lemma own_node_pattern : node_pattern own = [nUri b (mint KNode n)].
Proof.
  unfold node_pattern, subjects_of, own_statements, root_part, tu_part, node_part,
    edge_part.
  rewrite !filter_app.
  destruct is_root, nm, parent, terminal; filter_list; reflexivity.
Qed.

Lemma own_tree :
  subjects_of own sparql_a (cdao "RootedTree")
  = if is_root then [nUri b (mint KTree t)] else [].
Proof.
  unfold subjects_of, own_statements, root_part, tu_part, node_part, edge_part.
  rewrite !filter_app.
  destruct is_root, nm, parent, terminal; filter_list; reflexivity.
Qed.

Lemma own_has_root :
  objects_of own (nUri b (mint KTree t)) (cdao "has_root")
  = if is_root then [nUri b (mint KNode n)] else [].
Proof. own_lookup. Qed.

End OwnStatements.

Lemma clade_statements_own (c : clade) (parent : option string) (is_root : bool)
    (w : writer) :
  (clade_statements c parent is_root w).1.1 =
    own_statements (base_uri w) is_root (name_present c) (is_terminal c) parent
      (str_branch_length (branch_length c))
      (S (tree_counter w)) (S (node_counter w)) (S (tu_counter w)) (S (edge_counter w)).
Proof. by rewrite clade_statements_eq. Qed.

Lemma minted_in_advance (c : clade) (parent : option string) (is_root : bool)
    (w : writer) (k : kind) :
  match k with
  | KNode => True
  | KEdge | KAnn => is_Some parent
  | KTree => is_root = true
  | KTu => is_Some (name_present c)
  end →
  minted_in w (advance c parent is_root w) (nUri (base_uri w) (mint k (S (counter k w)))).
Proof.
  intros Hk. exists k, (S (counter k w)). split; [done|].
  destruct k; cbn [counter advance node_counter edge_counter tree_counter tu_counter];
    try lia.
  - destruct Hk as [pu ->]. lia.
  - destruct Hk as [pu ->]. lia.
  - rewrite Hk. lia.
  - destruct Hk as [nm ->]. lia.
Qed.

Lemma minted_node (c : clade) (parent : option string) (is_root : bool) (w : writer) :
  minted_in w (advance c parent is_root w)
    (nUri (base_uri w) (mint KNode (S (node_counter w)))).
Proof. exact (minted_in_advance c parent is_root w KNode I). Qed.

Lemma minted_edge (c : clade) (pu : string) (is_root : bool) (w : writer) :
  minted_in w (advance c (Some pu) is_root w)
    (nUri (base_uri w) (mint KEdge (S (edge_counter w)))).
Proof. exact (minted_in_advance c (Some pu) is_root w KEdge (mk_is_Some _ _ eq_refl)). Qed.

Lemma minted_ann (c : clade) (pu : string) (is_root : bool) (w : writer) :
  minted_in w (advance c (Some pu) is_root w)
    (nUri (base_uri w) (mint KAnn (S (edge_counter w)))).
Proof. exact (minted_in_advance c (Some pu) is_root w KAnn (mk_is_Some _ _ eq_refl)). Qed.

Lemma minted_tu (c : clade) (parent : option string) (is_root : bool) (w : writer) :
  is_Some (name_present c) →
  minted_in w (advance c parent is_root w)
    (nUri (base_uri w) (mint KTu (S (tu_counter w)))).
Proof. exact (minted_in_advance c parent is_root w KTu). Qed.

Lemma minted_tree (c : clade) (parent : option string) (w : writer) :
  minted_in w (advance c parent true w)
    (nUri (base_uri w) (mint KTree (S (tree_counter w)))).
Proof. exact (minted_in_advance c parent true w KTree eq_refl). Qed.

(** The row of the node query for the node of one clade. *)
Lemma own_row (c : clade) (parent : option string) (is_root : bool) (w : writer)
    (pre post : list statement) :
  Forall (foreign w (advance c parent is_root w)) pre →
  Forall (foreign w (advance c parent is_root w)) post →
  rows_for (pre ++ (clade_statements c parent is_root w).1.1 ++ post)
           (node_pattern (clade_statements c parent is_root w).1.1)
  = [ row_of ((λ pu, base_uri w +:+ pu) <$> parent, number c parent is_root w) ].
Proof.
  intros Hpre Hpost. set (w1 := advance c parent is_root w) in *.
  rewrite clade_statements_own.
  rewrite own_node_pattern, number_eq.
  unfold rows_for, row_of. cbn [mbind list_bind nt_id nt_name nt_len fst snd].
  rewrite app_nil_r.
  set (own := own_statements _ _ _ _ _ _ _ _ _ _).
  assert (parent_pattern (pre ++ own ++ post) (nUri (base_uri w) (mint KNode (S (node_counter w))))
          = match parent with
            | Some pu => [(nUri (base_uri w) pu,
                           Literal (str_branch_length (branch_length c)))]
            | None => []
            end) as ->.
  { unfold parent_pattern.
    rewrite (objects_of_own w w1 pre own post _ (cdao "has_Parent") Hpre Hpost
               (minted_node c parent is_root w)) by vocabulary_neq.
    rewrite (objects_of_own w w1 pre own post _ (cdao "belongs_to_Edge_as_Child") Hpre Hpost
               (minted_node c parent is_root w)) by vocabulary_neq.
    subst own. rewrite own_has_Parent, own_belongs_Child.
    destruct parent as [pu|]; [|done].
    set (own := own_statements _ _ _ _ _ _ _ _ _ _).
    cbn [mbind list_bind app].
    rewrite (objects_of_own w w1 pre own post _ (cdao "has_annotation") Hpre Hpost
               (minted_edge c pu is_root w))
      by vocabulary_neq.
    subst own. rewrite own_has_annotation.
    set (own := own_statements _ _ _ _ _ _ _ _ _ _).
    cbn [mbind list_bind app].
    rewrite (objects_of_own w w1 pre own post _ sparql_a Hpre Hpost
               (minted_ann c pu is_root w))
      by vocabulary_neq.
    rewrite (objects_of_own w w1 pre own post _ (cdao "has_value") Hpre Hpost
               (minted_ann c pu is_root w))
      by vocabulary_neq.
    subst own. rewrite own_annotation_type, own_has_value.
    rewrite filter_cons_True by done. rewrite filter_nil. reflexivity. }
  assert (label_pattern (pre ++ own ++ post) (nUri (base_uri w) (mint KNode (S (node_counter w))))
          = match name_present c with
            | Some s => [Literal s]
            | None => []
            end) as ->.
  { unfold label_pattern.
    rewrite (objects_of_own w w1 pre own post _ (cdao "represents_TU") Hpre Hpost
               (minted_node c parent is_root w)) by vocabulary_neq.
    subst own. rewrite own_represents_TU.
    destruct (name_present c) as [s|] eqn:Hname; [|done].
    set (own := own_statements _ _ _ _ _ _ _ _ _ _).
    cbn [mbind list_bind app].
    rewrite (objects_of_own w w1 pre own post _ (rdf "label") Hpre Hpost
               (minted_tu c parent is_root w
                  ltac:(rewrite Hname; by eexists))) by vocabulary_neq.
    subst own. rewrite own_label. reflexivity. }
  unfold name_present. destruct parent as [pu|], (truthy (name c)) as [s|]; reflexivity.
Qed.

Lemma run_children (uri : string) (cs : list clade) (w : writer) :
  run w (process_children uri cs w).1 (process_children uri cs w).2.
Proof.
  apply run_process_children, Forall_forall. intros c _ parent is_root w'.
  apply run_process_clade.
Qed.

Lemma run_advance (c : clade) (parent : option string) (is_root : bool) (w : writer) :
  run w (clade_statements c parent is_root w).1.1 (advance c parent is_root w).
Proof. apply run_clade_statements. Qed.

Lemma nodes_with_parent_number (p : option string) (c : clade)
    (parent : option string) (is_root : bool) (w : writer) :
  nodes_with_parent p (number c parent is_root w) =
    (p, number c parent is_root w)
    :: (number_children (mint KNode (S (node_counter w))) (clades c)
          (advance c parent is_root w)
        ≫= nodes_with_parent (Some (base_uri w +:+ mint KNode (S (node_counter w))))).
Proof. by rewrite number_eq, nodes_with_parent_eq, <-number_eq. Qed.

Definition rows_of_block (c : clade) (parent : option string) (is_root : bool)
    (w : writer) : Prop :=
  ∀ pre post,
    Forall (foreign w (process_clade c parent is_root w).2) pre →
    Forall (foreign w (process_clade c parent is_root w).2) post →
    rows_for (pre ++ (process_clade c parent is_root w).1 ++ post)
             (node_pattern (process_clade c parent is_root w).1)
    ≡ₚ row_of <$> nodes_with_parent ((λ pu, base_uri w +:+ pu) <$> parent)
                    (number c parent is_root w).

Lemma rows_of_children (uri : string) (cs : list clade) :
  Forall (λ c, ∀ parent is_root w, rows_of_block c parent is_root w) cs →
  ∀ w pre post,
    Forall (foreign w (process_children uri cs w).2) pre →
    Forall (foreign w (process_children uri cs w).2) post →
    rows_for (pre ++ (process_children uri cs w).1 ++ post)
             (node_pattern (process_children uri cs w).1)
    ≡ₚ row_of <$> (number_children uri cs w
                     ≫= nodes_with_parent (Some (base_uri w +:+ uri))).
Proof.
  induction 1 as [|k cs Hk _ IH]; intros w pre post Hpre Hpost; [done|].
  rewrite process_children_cons in *. cbn [fst snd number_children] in *.
  pose proof (run_process_clade k (Some uri) false w) as Hrun1.
  set (s1 := (process_clade k (Some uri) false w).1) in *.
  set (w1 := (process_clade k (Some uri) false w).2) in *.
  pose proof (run_children uri cs w1) as Hrun2.
  set (s2 := (process_children uri cs w1).1) in *.
  set (w2 := (process_children uri cs w1).2) in *.
  pose proof (run_base _ _ _ Hrun1) as Hb1.
  pose proof (run_counters _ _ _ Hrun1) as Hc1.
  pose proof (run_counters _ _ _ Hrun2) as Hc2.
  rewrite (rows_for_perm _ _ _ (node_pattern_app s1 s2)), rows_for_app.
  rewrite bind_cons, fmap_app. apply Permutation_app.
  - rewrite <-(app_assoc s1 s2 post).
    apply (Hk (Some uri) false w pre (s2 ++ post)).
    + eapply foreign_weaken; [reflexivity| |exact Hc2|exact Hpre]. auto.
    + apply Forall_app. split.
      * eapply run_foreign_after; [exact Hrun2|exact Hb1|auto].
      * eapply foreign_weaken; [reflexivity| |exact Hc2|exact Hpost]. auto.
  - rewrite <-(app_assoc s1 s2 post), (app_assoc pre s1 (s2 ++ post)).
    rewrite <-Hb1. apply (IH w1 (pre ++ s1) post).
    + apply Forall_app. split.
      * eapply foreign_weaken; [exact Hb1|exact Hc1| |exact Hpre]. auto.
      * eapply run_foreign_before; [exact Hrun1|exact Hb1|auto].
    + eapply foreign_weaken; [exact Hb1|exact Hc1| |exact Hpost]. auto.
Qed.

(** The first part of the round trip: the node query, over the
    statements of a tree in a model whose other statements are foreign to
    it, answers the rows of the numbered tree, in some order. *)
Lemma rows_of_process_clade (c : clade) (parent : option string) (is_root : bool)
    (w : writer) :
  rows_of_block c parent is_root w.
Proof.
  revert parent is_root w. induction c as [n b cs IH] using clade_ind'.
  intros parent is_root w pre post. rewrite process_clade_fst, process_clade_snd.
  cbn [clades]. intros Hpre Hpost.
  pose proof (run_advance (Clade n b cs) parent is_root w) as Hrun1.
  set (own := (clade_statements (Clade n b cs) parent is_root w).1.1) in *.
  set (w1 := advance (Clade n b cs) parent is_root w) in *.
  set (uri := mint KNode (S (node_counter w))) in *.
  pose proof (run_children uri cs w1) as Hrun2.
  set (below := (process_children uri cs w1).1) in *.
  set (w2 := (process_children uri cs w1).2) in *.
  pose proof (run_base _ _ _ Hrun1) as Hb1.
  pose proof (run_counters _ _ _ Hrun1) as Hc1.
  pose proof (run_counters _ _ _ Hrun2) as Hc2.
  rewrite (rows_for_perm _ _ _ (node_pattern_app own below)), rows_for_app.
  rewrite nodes_with_parent_number, fmap_cons. cbn [clades].
  rewrite <-(app_assoc own below post). subst own.
  rewrite (own_row (Clade n b cs) parent is_root w pre (below ++ post)).
  2:{ eapply foreign_weaken; [reflexivity| |exact Hc2|exact Hpre]. auto. }
  2:{ apply Forall_app. split.
      - eapply run_foreign_after; [exact Hrun2|exact Hb1|auto].
      - eapply foreign_weaken; [reflexivity| |exact Hc2|exact Hpost]. auto. }
  cbn [app]. apply perm_skip.
  rewrite (app_assoc pre _ (below ++ post)).
  fold uri w1. change (base_uri w) with (base_uri w1).
  apply (rows_of_children uri cs IH w1 (pre ++ _) post).
  - apply Forall_app. split.
    + eapply foreign_weaken; [exact Hb1|exact Hc1| |exact Hpre]. auto.
    + eapply run_foreign_before; [exact Hrun1|exact Hb1|auto].
  - eapply foreign_weaken; [exact Hb1|exact Hc1| |exact Hpost]. auto.
Qed.

Lemma no_tree_below_children (uri : string) (cs : list clade) :
  Forall (λ c, ∀ parent w,
            subjects_of (process_clade c parent false w).1 sparql_a (cdao "RootedTree")
            = []) cs →
  ∀ w, subjects_of (process_children uri cs w).1 sparql_a (cdao "RootedTree") = [].
Proof.
  induction 1 as [|k cs Hk _ IH]; intros w; [done|].
  rewrite process_children_cons. cbn [fst]. by rewrite subjects_of_app, Hk, IH.
Qed.

Lemma no_tree_below (c : clade) (parent : option string) (w : writer) :
  subjects_of (process_clade c parent false w).1 sparql_a (cdao "RootedTree") = [].
Proof.
  revert parent w. induction c as [n b cs IH] using clade_ind'. intros parent w.
  rewrite process_clade_fst, subjects_of_app, clade_statements_own, own_tree.
  cbn [clades app]. by apply no_tree_below_children.
Qed.

(** The root query, over the statements of one tree, answers the node
    of the root. *)
Lemma root_query_process_clade (c : clade) (w : writer) :
  root_query (process_clade c None true w).1
  = [Uri (nt_id (number c None true w))].
Proof.
  unfold root_query. rewrite process_clade_fst, subjects_of_app.
  pose proof (run_children (mint KNode (S (node_counter w))) (clades c)
                (advance c None true w)) as Hrun.
  rewrite (no_tree_below_children _ (clades c)).
  2:{ apply Forall_forall. intros k _ parent w'. apply no_tree_below. }
  rewrite clade_statements_own, own_tree. cbn [app mbind list_bind].
  rewrite app_nil_r, <-clade_statements_own.
  rewrite <-(app_nil_l (_ ++ _)).
  rewrite (objects_of_own w (advance c None true w) [] _ _ _ (cdao "has_root")).
  - rewrite clade_statements_own, own_has_root, number_eq. reflexivity.
  - constructor.
  - eapply run_foreign_after; [exact Hrun|reflexivity|auto].
  - apply minted_tree.
  - vocabulary_neq.
Qed.

(** C1, amended: take a tree in which every clade other than the root
    has a branch length, decompose it with [process_clade] (from any state
    of the writer) and read the statements back with [parse_model], with a
    recursion depth that is enough for the height of the tree and whatever
    the order in which the query engine answers.  Then the parser yields
    exactly one tree and that tree is the original one up to the order of
    the children of each node: the names are the same (an empty name comes
    back absent), the branch lengths of the clades other than the root come
    back within the tolerance of the float round trip, and the root comes
    back without branch length. *)
Theorem round_trip (close : float → float → Prop) (env : redland) (depth : nat)
    (b : bool) (c : clade) (w : writer) :
  float_round_trip close →
  rdf_importable env = true →
  children_have_lengths c = true →
  height c ≤ depth →
  (∃ out, parse_model_yields env depth (Some b) (process_clade c None true w).1 out) ∧
  ∀ out, parse_model_yields env depth (Some b) (process_clade c None true w).1 out →
         ∃ c', out = ([Tree c' b], None) ∧ similar close true c c'.
Proof.
  intros Hlaw Himp Hlen Hdepth. split.
  { eexists. exists (node_query (process_clade c None true w).1),
                    (root_query (process_clade c None true w).1).
    unfold sparql_answer. split; [done|]. split; [done|]. reflexivity. }
  intros out (rows & roots & Hrows & Hroots & ->). unfold sparql_answer in *.
  rewrite root_query_process_clade in Hroots. apply Permutation_singleton_r in Hroots as ->.
  rewrite node_query_rows_for in Hrows.
  pose proof (rows_of_process_clade c None true w [] []) as Hblock.
  rewrite app_nil_r in Hblock. cbn [app fmap option_fmap option_map] in Hblock.
  rewrite Hblock in Hrows by constructor.
  destruct (number_ids c None true w) as [Hnd _].
  destruct (parse_model_numbered close env depth b (number c None true w) rows)
    as (c' & Hparse & Hsim); try done.
  - apply lengths_present_forget; [by rewrite forget_number|]. by intros [? [=]].
  - by rewrite nt_height_forget, forget_number.
  - exists c'. split; [done|]. by rewrite forget_number in Hsim.
Qed.

End RoundTrip.

(** * Further properties of the reader and the writer *)

Section Coverage.
Context `{PyFloat}.

(** ** Failures of the facade and of the parser *)

Definition redland_required : exn :=
  CDAOError "Redland Python bindings are required for CDAO support.".

(** X1: without the Redland bindings every entry point fails with the
    same [CDAOError]: nothing is written, no tree is yielded, and the parser
    is left as it was. *)
Theorem redland_missing_fails_everywhere (env : redland) :
  rdf_importable env = false →
  new_storage env = Raise redland_required ∧
  (∀ kw p, Parser_parse env kw p = (p, Raise redland_required)) ∧
  (∀ depth r rows roots,
     parse_model env depth r rows roots = ([], Some redland_required)) ∧
  (∀ ts base w, add_trees_to_model env ts base w = Raise redland_required) ∧
  (∀ h mime w, serialize_model env h mime w = Raise redland_required) ∧
  (∀ h kw w, Writer_write env h kw w = Raise redland_required) ∧
  (∀ ts h kw, write env ts h kw = Raise redland_required).
Proof.
  intros Himp.
  unfold new_storage, Parser_parse, parse_handle_to_model, parse_model,
    add_trees_to_model, serialize_model, write, Writer_write, import_rdf.
  rewrite Himp. repeat split.
Qed.

Lemma decide_ready_or_not (env : redland) (kw : parse_kwargs) (p : parser) :
  parse_ready env kw p ∨ ¬ parse_ready env kw p.
Proof.
  unfold parse_ready.
  destruct (rdf_importable env), (pk_storage kw), (storage_created env),
    (model_created env), (p_model p) as [m|],
    (parser_created env (default "text/turtle" (pk_mime_type kw)));
    first [ left; repeat split; eauto; fail
          | right; intros (? & Hs & Hm & ?); try done;
            first [ by destruct Hs | by destruct Hm as [[? ?]|] ] ].
Qed.

(** The base URI [parse_handle_to_model] hands to the RDF parser: the
    keyword [base_uri], or else a [file://] URI made of the name of the
    handle. *)
Definition chosen_base_uri (env : redland) (kw : parse_kwargs) (p : parser)
    : option rdf_node :=
  match pk_base_uri kw with
  | Some b => Some b
  | None => (λ nm, Uri ("file://" +:+ abspath env nm)) <$> handle_name (handle p)
  end.

Lemma parse_handle_to_model_ready (env : redland) (kw : parse_kwargs) (p : parser) :
  parse_ready env kw p →
  parse_handle_to_model env kw p =
    let m := default [] (p_model p) in
    let p1 := set_p_rooted (default false (pk_rooted kw)) (set_p_model m p) in
    match chosen_base_uri env kw p with
    | None => (p1, Raise (AttributeError "name"))
    | Some b =>
        match parse_string_as_stream env (default "text/turtle" (pk_mime_type kw))
                (handle_text (handle p)) b with
        | Ok statements => (set_p_model (m ++ statements) p1, Ok ())
        | Raise e => (p1, Raise e)
        end
    end.
Proof.
  intros (Himp & Hsto & Hmod & Hpar).
  unfold parse_handle_to_model, new_storage, import_rdf, chosen_base_uri.
  rewrite Himp. cbn [mbind result_bind].
  assert ((if pk_storage kw then Ok ()
           else if storage_created env then Ok ()
                else Raise (CDAOError "new RDF.Storage failed")) = Ok ()) as ->.
  { destruct Hsto as [->| ->]; [done|]. by destruct (pk_storage kw). }
  assert (match p_model p with
          | Some m => Ok m
          | None => if model_created env then Ok []
                    else Raise (CDAOError "new RDF.model failed")
          end = Ok (default [] (p_model p))) as ->.
  { destruct Hmod as [[m ->]| ->]; [done|]. by destruct (p_model p). }
  rewrite Hpar. cbn [negb handle set_p_model set_p_rooted].
  destruct (pk_base_uri kw) as [b|]; [done|].
  by destruct (handle_name (handle p)).
Qed.

Lemma parse_handle_to_model_not_ready (env : redland) (kw : parse_kwargs) (p : parser) :
  ¬ parse_ready env kw p → (parse_handle_to_model env kw p).2 ≠ Ok ().
Proof.
  unfold parse_ready, parse_handle_to_model, new_storage, import_rdf. intros Hn.
  destruct (rdf_importable env); cbn [mbind result_bind snd]; [|done].
  destruct (pk_storage kw), (storage_created env); cbn [snd]; try done;
    (destruct (p_model p) as [m|]; [|destruct (model_created env)]; cbn [snd]; try done;
     (destruct (parser_created env (default "text/turtle" (pk_mime_type kw)));
      cbn [negb snd]; [|done];
      exfalso; apply Hn; repeat split; eauto)).
Qed.

(** X2: [parse_handle_to_model] succeeds exactly when Redland, storage,
    model and parser are available, a base URI can be chosen (the keyword
    [base_uri], or else the name of the handle) and the RDF parser accepts
    the text; on success the model holds the statements it held before
    followed by the parsed ones, and [rooted] is the keyword or [False]. *)
Theorem parse_handle_to_model_succeeds_iff (env : redland) (kw : parse_kwargs)
    (p : parser) :
  let mime := default "text/turtle" (pk_mime_type kw) in
  ((parse_handle_to_model env kw p).2 = Ok () ↔
   parse_ready env kw p ∧
   ∃ b statements,
     chosen_base_uri env kw p = Some b ∧
     parse_string_as_stream env mime (handle_text (handle p)) b = Ok statements) ∧
  (∀ b statements,
     parse_ready env kw p →
     chosen_base_uri env kw p = Some b →
     parse_string_as_stream env mime (handle_text (handle p)) b = Ok statements →
     p_model (parse_handle_to_model env kw p).1
       = Some (default [] (p_model p) ++ statements) ∧
     p_rooted (parse_handle_to_model env kw p).1 = Some (default false (pk_rooted kw))).
Proof.
  intros mime. subst mime. split; [split|].
  - intros Hok. destruct (decide_ready_or_not env kw p) as [Hr|Hn].
    2:{ by apply parse_handle_to_model_not_ready in Hn. }
    split; [done|]. rewrite (parse_handle_to_model_ready env kw p Hr) in Hok.
    cbv zeta in Hok. destruct (chosen_base_uri env kw p) as [b|]; [|done].
    destruct (parse_string_as_stream _ _ _ b) as [statements|e] eqn:Hp; [|done].
    by exists b, statements.
  - intros (Hr & b & statements & Hb & Hp).
    rewrite (parse_handle_to_model_ready env kw p Hr). cbv zeta. by rewrite Hb, Hp.
  - intros b statements Hr Hb Hp.
    rewrite (parse_handle_to_model_ready env kw p Hr). cbv zeta. by rewrite Hb, Hp.
Qed.

(** X3: a parser on which [parse_handle_to_model] has not run has no
    attribute [rooted]; [parse_model] then never yields a tree: every root
    ends in an exception. *)
Theorem parse_model_without_rooted (env : redland) (depth : nat)
    (rows : list node_row) (roots : list rdf_node) :
  (parse_model env depth None rows roots).1 = [] ∧
  (roots ≠ [] → (parse_model env depth None rows roots).2 ≠ None).
Proof.
  unfold parse_model.
  destruct (import_rdf env); [|by split].
  destruct (get_node_info rows) as [[info par]|e]; [|by split].
  destruct roots as [|r roots]; [by split|].
  cbn [parse_roots]. unfold parse_root.
  destruct (node_get_uri r) as [root_node|e]; cbn [mbind result_bind]; [|by split].
  destruct (new_clade info root_node) as [c|e]; cbn [mbind result_bind]; [|by split].
  destruct (parse_children depth info par root_node) as [cs|e]; cbn [mbind result_bind];
    by split.
Qed.

Lemma parse_roots_app (depth : nat) (info : gmap string node_record)
    (par : gmap string (list string)) (rooted0 : option bool)
    (roots1 roots2 : list rdf_node) :
  parse_roots depth info par rooted0 (roots1 ++ roots2) =
    match parse_roots depth info par rooted0 roots1 with
    | (ts1, None) =>
        let '(ts2, e) := parse_roots depth info par rooted0 roots2 in (ts1 ++ ts2, e)
    | (ts1, Some e) => (ts1, Some e)
    end.
Proof.
  induction roots1 as [|r roots1 IH]; cbn [app parse_roots].
  - by destruct (parse_roots depth info par rooted0 roots2).
  - destruct (parse_root depth info par rooted0 r) as [t|e]; [|done].
    rewrite IH. destruct (parse_roots depth info par rooted0 roots1) as [ts1 [e|]];
      [done|]. by destruct (parse_roots depth info par rooted0 roots2).
Qed.

(** X4: [parse_model] is a generator: the trees of the roots that come
    before the first failing one are yielded, in the order of the answers of
    the root query, and no root after the failing one is looked at. *)
Theorem parse_model_app (env : redland) (depth : nat) (rooted0 : option bool)
    (rows : list node_row) (roots1 roots2 : list rdf_node) :
  parse_model env depth rooted0 rows (roots1 ++ roots2) =
    match parse_model env depth rooted0 rows roots1 with
    | (ts1, None) =>
        let '(ts2, e) := parse_model env depth rooted0 rows roots2 in (ts1 ++ ts2, e)
    | (ts1, Some e) => (ts1, Some e)
    end.
Proof.
  unfold parse_model. destruct (import_rdf env); [|done].
  destruct (get_node_info rows) as [[info par]|e]; [|done].
  apply parse_roots_app.
Qed.

(** X5: a node listed among its own children makes [parse_children]
    recurse until the interpreter stops it: whatever the depth allowed, the
    call ends in an exception and returns no clades. *)
Theorem parse_children_self_parent (info : gmap string node_record)
    (par : gmap string (list string)) (node : string) (depth : nat) :
  node ∈ default [] (par !! node) →
  ∃ e, parse_children depth info par node = Raise e.
Proof.
  intros Hin. induction depth as [|depth [e IH]]; [by eexists|].
  rewrite parse_children_eq.
  induction (default [] (par !! node)) as [|ch rest IHrest];
    [by apply elem_of_nil in Hin|].
  cbn [parse_children_loop].
  destruct (new_clade info ch) as [c|e1]; cbn [mbind result_bind]; [|by eexists].
  apply elem_of_cons in Hin as [<-|Hin].
  - rewrite IH. by eexists.
  - destruct (parse_children depth info par ch); cbn [mbind result_bind]; [|by eexists].
    destruct (IHrest Hin) as [e2 ->]. by eexists.
Qed.

(** ** What a decomposition counts *)

(** The sum of [g] over the clades of a tree. *)
Fixpoint tree_sum (g : clade → nat) (c : clade) : nat :=
  let 'Clade n b cs := c in
  g (Clade n b cs) + foldr (λ k acc, tree_sum g k + acc) 0 cs.

Lemma tree_sum_eq (g : clade → nat) (c : clade) :
  tree_sum g c = g c + foldr (λ k acc, tree_sum g k + acc) 0 (clades c).
Proof. by destruct c. Qed.

Definition size (c : clade) : nat := tree_sum (λ _, 1) c.
Definition named (c : clade) : nat :=
  tree_sum (λ k, match name_present k with Some _ => 1 | None => 0 end) c.
Definition leaves (c : clade) : nat :=
  tree_sum (λ k, if is_terminal k then 1 else 0) c.

Lemma process_children_counters (uri : string) (cs : list clade) :
  Forall (λ c, ∀ parent is_root w,
    let w' := (process_clade c parent is_root w).2 in
    node_counter w' = node_counter w + size c ∧
    edge_counter w' = edge_counter w + size c - match parent with Some _ => 0 | None => 1 end ∧
    tree_counter w' = tree_counter w + (if is_root then 1 else 0) ∧
    tu_counter w' = tu_counter w + named c) cs →
  ∀ w, let w' := (process_children uri cs w).2 in
    node_counter w' = node_counter w + foldr (λ k acc, size k + acc) 0 cs ∧
    edge_counter w' = edge_counter w + foldr (λ k acc, size k + acc) 0 cs ∧
    tree_counter w' = tree_counter w ∧
    tu_counter w' = tu_counter w + foldr (λ k acc, named k + acc) 0 cs.
Proof.
  induction 1 as [|k cs Hk _ IH]; intros w; cbv zeta.
  - cbn. lia.
  - rewrite process_children_cons. cbn [snd foldr].
    destruct (Hk (Some uri) false w) as (Hn & He & Ht & Hu).
    destruct (IH (process_clade k (Some uri) false w).2) as (Hn' & He' & Ht' & Hu').
    lia.
Qed.

(** X6: processing a tree advances the node counter by the number of
    its clades, the edge counter by the number of clades that have a parent,
    the TU counter by the number of clades with a non-empty name, and the
    tree counter by one exactly when the clade is processed as a root. *)
Theorem process_clade_counters (c : clade) (parent : option string) (is_root : bool)
    (w : writer) :
  let w' := (process_clade c parent is_root w).2 in
  node_counter w' = node_counter w + size c ∧
  edge_counter w' = edge_counter w + size c - match parent with Some _ => 0 | None => 1 end ∧
  tree_counter w' = tree_counter w + (if is_root then 1 else 0) ∧
  tu_counter w' = tu_counter w + named c.
Proof.
  revert parent is_root w. induction c as [n b cs IH] using clade_ind'.
  intros parent is_root w. cbv zeta. rewrite process_clade_snd. cbn [clades].
  destruct (process_children_counters (mint KNode (S (node_counter w))) cs IH
              (advance (Clade n b cs) parent is_root w)) as (Hn & He & Ht & Hu).
  unfold size, named in *. rewrite !tree_sum_eq. cbn [clades].
  cbn [advance node_counter edge_counter tree_counter tu_counter] in Hn, He, Ht, Hu.
  rewrite Hn, He, Ht, Hu.
  destruct parent, is_root, (name_present (Clade n b cs)); lia.
Qed.

Lemma process_clade_tree_counter (c : clade) (parent : option string) (is_root : bool)
    (w : writer) :
  tree_counter (process_clade c parent is_root w).2
  = tree_counter w + (if is_root then 1 else 0).
Proof.
  revert parent is_root w. induction c as [n b cs IH] using clade_ind'.
  intros parent is_root w. rewrite process_clade_snd. cbn [clades].
  assert (∀ uri w1, tree_counter (process_children uri cs w1).2 = tree_counter w1) as ->.
  { intros uri. induction IH as [|k cs Hk _ IHcs]; intros w1; [done|].
    rewrite process_children_cons. cbn [snd]. rewrite IHcs, Hk. lia. }
  cbn [advance tree_counter]. destruct is_root; lia.
Qed.

Lemma process_trees_cons (t : tree) (ts : list tree) (w : writer) :
  process_trees (t :: ts) w =
    ((process_clade (root t) None true w).1 ++
     (process_trees ts (process_clade (root t) None true w).2).1,
     (process_trees ts (process_clade (root t) None true w).2).2).
Proof.
  cbn [process_trees]. destruct (process_clade (root t) None true w) as [s1 w1].
  cbn [fst snd]. by destruct (process_trees ts w1).
Qed.

Lemma process_trees_tree_counter (ts : list tree) (w : writer) :
  tree_counter (process_trees ts w).2 = tree_counter w + length ts.
Proof.
  revert w. induction ts as [|t ts IH]; intros w.
  - cbn. lia.
  - rewrite process_trees_cons. cbn [snd length].
    rewrite IH, process_clade_tree_counter. lia.
Qed.

(** X7: on a fresh writer, once the trees are added, [serialize_model]
    writes the serialised model after what the handle holds and returns the
    number of trees of the batch (the number [write] is documented to
    return). *)
Theorem serialize_model_counts_trees (env : redland) (ts : list tree)
    (base handle mime text : string) (w' : writer) :
  add_trees_to_model env None base (Writer_init ts) = Ok w' →
  serialize_model_to_string env mime RDF_NAMESPACES (default [] (model w')) = Ok text →
  serialize_model env handle mime w' = Ok (handle +:+ text, length ts).
Proof.
  unfold add_trees_to_model, serialize_model, new_storage, import_rdf.
  destruct (rdf_importable env); cbn [mbind result_bind]; [|done].
  destruct (storage_created env); cbn [mbind result_bind]; [|done].
  cbn [model set_base_uri Writer_init trees default].
  destruct (model_created env); cbn [mbind result_bind]; [|done].
  pose proof (process_trees_tree_counter ts (set_base_uri base (Writer_init ts))) as Hc.
  destruct (process_trees ts (set_base_uri base (Writer_init ts))) as [stmts w1].
  intros [= <-] Htext. cbn [model set_model tree_counter default] in *.
  rewrite Htext. cbn [mbind result_bind snd] in *. by rewrite Hc.
Qed.

(** ** The census of a decomposition *)


Lemma process_children_additive (f : list statement → nat) (h : clade → nat)
    (uri : string) (cs : list clade) :
  f [] = 0 → (∀ a b, f (a ++ b) = f a + f b) →
  Forall (λ c, ∀ w, f (process_clade c (Some uri) false w).1 = tree_sum h c) cs →
  ∀ w, f (process_children uri cs w).1 = foldr (λ k acc, tree_sum h k + acc) 0 cs.
Proof.
  intros Hnil Happ. induction 1 as [|k cs Hk _ IH]; intros w; [done|].
  rewrite process_children_cons. cbn [fst foldr]. by rewrite Happ, Hk, IH.
Qed.

(** A measure of statement lists that adds up over concatenation, and
    whose value on the statements of one clade is [h], adds up over the
    tree. *)
Lemma process_clade_additive (f : list statement → nat) (h : clade → bool → bool → nat) :
  f [] = 0 → (∀ a b, f (a ++ b) = f a + f b) →
  (∀ c parent is_root w,
     f (clade_statements c parent is_root w).1.1
     = h c (bool_decide (is_Some parent)) is_root) →
  ∀ c parent is_root w,
    f (process_clade c parent is_root w).1
    = h c (bool_decide (is_Some parent)) is_root
      + foldr (λ k acc, tree_sum (λ k, h k true false) k + acc) 0 (clades c).
Proof.
  intros Hnil Happ Hown. induction c as [n b cs IH] using clade_ind'.
  intros parent is_root w. rewrite process_clade_fst, Happ, Hown. f_equal.
  cbn [clades]. apply process_children_additive; [done..|].
  eapply Forall_impl; [exact IH|]. intros k Hk w'. rewrite Hk, tree_sum_eq.
  by rewrite bool_decide_true by (by eexists).
Qed.

Lemma tree_sum_ext (g1 g2 : clade → nat) (c : clade) :
  (∀ k, g1 k = g2 k) → tree_sum g1 c = tree_sum g2 c.
Proof.
  intros Hg. induction c as [n b cs IH] using clade_ind'. rewrite !tree_sum_eq, Hg.
  f_equal. cbn [clades]. induction IH as [|k cs Hk _ IHcs]; [done|].
  cbn [foldr]. by rewrite Hk, IHcs.
Qed.

Lemma tree_sum_linear (a b : nat) (g1 g2 : clade → nat) (c : clade) :
  tree_sum (λ k, a * g1 k + b * g2 k) c = a * tree_sum g1 c + b * tree_sum g2 c.
Proof.
  induction c as [n0 b0 cs IH] using clade_ind'. rewrite !tree_sum_eq. cbn [clades].
  assert (foldr (λ k acc, tree_sum (λ k, a * g1 k + b * g2 k) k + acc) 0 cs
          = a * foldr (λ k acc, tree_sum g1 k + acc) 0 cs
            + b * foldr (λ k acc, tree_sum g2 k + acc) 0 cs) as ->; [|lia].
  induction IH as [|k cs Hk _ IHcs]; [cbn; lia|]. cbn [foldr]. rewrite Hk, IHcs. lia.
Qed.

Lemma size_positive (c : clade) : 1 ≤ size c.
Proof. unfold size. rewrite tree_sum_eq. lia. Qed.

Lemma leaves_le_size (c : clade) : leaves c ≤ size c.
Proof.
  unfold leaves, size. induction c as [n b cs IH] using clade_ind'.
  rewrite !tree_sum_eq. cbn [clades].
  assert (foldr (λ k acc, tree_sum (λ k, if is_terminal k then 1 else 0) k + acc) 0 cs
          ≤ foldr (λ k acc, tree_sum (λ _, 1) k + acc) 0 cs) as Hle.
  { induction IH as [|k cs Hk _ IHcs]; [done|]. cbn [foldr]. lia. }
  destruct (is_terminal (Clade n b cs)); lia.
Qed.

(** The number of entities of a class that a list of statements declares. *)
Definition class_count (cls : string) (statements : list statement) : nat :=
  length (subjects_of statements sparql_a (cdao cls)).

Lemma class_count_app (cls : string) (a b : list statement) :
  class_count cls (a ++ b) = class_count cls a + class_count cls b.
Proof. unfold class_count. by rewrite subjects_of_app, length_app. Qed.


Lemma own_class_counts (b : string) (is_root : bool) (nm : option string)
    (terminal : bool) (parent : option string) (len : string) (t n u e : nat) :
  let own := own_statements b is_root nm terminal parent len t n u e in
  class_count "RootedTree" own = (if is_root then 1 else 0) ∧
  class_count "TU" own = match nm with Some _ => 1 | None => 0 end ∧
  class_count "TerminalNode" own = (if terminal then 1 else 0) ∧
  class_count "AncestralNode" own = (if terminal then 0 else 1) ∧
  class_count "Directed_Edge" own = match parent with Some _ => 1 | None => 0 end ∧
  class_count "EdgeLength" own = match parent with Some _ => 1 | None => 0 end ∧
  length own = (if is_root then 2 else 0) + match nm with Some _ => 3 | None => 0 end
               + 1 + match parent with Some _ => 9 | None => 0 end.
Proof.
  cbv zeta.
  unfold class_count, subjects_of, own_statements, root_part, tu_part, node_part,
    edge_part.
  rewrite !filter_app.
  destruct is_root, nm, parent, terminal; repeat split; filter_list; reflexivity.
Qed.

Lemma kids_sum_zero (cs : list clade) :
  foldr (λ k acc, tree_sum (λ _, 0) k + acc) 0 cs = 0.
Proof.
  assert (∀ c, tree_sum (λ _, 0) c = 0) as Hz.
  { induction c as [n b cs' IH] using clade_ind'. rewrite tree_sum_eq. cbn [clades].
    induction IH as [|k cs' Hk _ IHcs]; [done|]. cbn [foldr] in *. lia. }
  induction cs as [|k cs IH]; [done|]. cbn [foldr]. rewrite Hz. lia.
Qed.

(** X8: the census of the decomposition of one tree: one [RootedTree];
    a [TerminalNode] for every clade without children and an
    [AncestralNode] for every other clade; a [TU] for every clade with a
    non-empty name; a [Directed_Edge] and an [EdgeLength] for every clade
    but the root; and the number of statements in all. *)
Theorem decomposition_census (c : clade) (w : writer) :
  let statements := (process_clade c None true w).1 in
  class_count "RootedTree" statements = 1 ∧
  class_count "TerminalNode" statements = leaves c ∧
  class_count "AncestralNode" statements = size c - leaves c ∧
  class_count "TU" statements = named c ∧
  class_count "Directed_Edge" statements = size c - 1 ∧
  class_count "EdgeLength" statements = size c - 1 ∧
  length statements = 2 + size c + 3 * named c + 9 * (size c - 1).
Proof.
  cbv zeta.
  assert (∀ cls (h : clade → bool → bool → nat),
    (∀ c parent is_root w,
       class_count cls (clade_statements c parent is_root w).1.1
       = h c (bool_decide (is_Some parent)) is_root) →
    class_count cls (process_clade c None true w).1
    = h c false true + foldr (λ k acc, tree_sum (λ k, h k true false) k + acc) 0 (clades c))
    as Hcount.
  { intros cls h Hown.
    rewrite (process_clade_additive (class_count cls) h eq_refl (class_count_app cls) Hown).
    by rewrite bool_decide_false by (by intros [? ?]). }
  pose proof (size_positive c) as Hpos. pose proof (leaves_le_size c) as Hle.
  unfold size, leaves, named in *. rewrite !tree_sum_eq in *.
  repeat split.
  - rewrite (Hcount _ (λ _ _ r, if r then 1 else 0)).
    + by rewrite kids_sum_zero.
    + intros. rewrite clade_statements_own. apply own_class_counts.
  - rewrite (Hcount _ (λ k _ _, if is_terminal k then 1 else 0)); [done|].
    intros. rewrite clade_statements_own. apply own_class_counts.
  - rewrite (Hcount _ (λ k _ _, if is_terminal k then 0 else 1)).
    2:{ intros. rewrite clade_statements_own. apply own_class_counts. }
    assert (∀ k, tree_sum (λ k, if is_terminal k then 0 else 1) k
                 + tree_sum (λ k, if is_terminal k then 1 else 0) k
                 = tree_sum (λ _, 1) k) as Hsplit.
    { intros k.
      trans (tree_sum (λ k, 1 * (if is_terminal k then 0 else 1)
                            + 1 * (if is_terminal k then 1 else 0)) k).
      - rewrite tree_sum_linear. lia.
      - apply tree_sum_ext. intros k'. destruct (is_terminal k'); lia. }
    assert (∀ cs,
      foldr (λ k acc, tree_sum (λ k, if is_terminal k then 0 else 1) k + acc) 0 cs
      + foldr (λ k acc, tree_sum (λ k, if is_terminal k then 1 else 0) k + acc) 0 cs
      = foldr (λ k acc, tree_sum (λ _, 1) k + acc) 0 cs) as Hkids.
    { induction cs as [|k cs IH]; [done|]. cbn [foldr].
      specialize (Hsplit k). lia. }
    specialize (Hkids (clades c)). destruct (is_terminal c); lia.
  - rewrite (Hcount _ (λ k _ _, match name_present k with Some _ => 1 | None => 0 end));
      [done|].
    intros. rewrite clade_statements_own. apply own_class_counts.
  - rewrite (Hcount _ (λ _ hp _, if hp then 1 else 0)); [cbn; lia|].
    intros c0 [pu|] r w0; rewrite clade_statements_own;
      [rewrite bool_decide_true by (by eexists)
      |rewrite bool_decide_false by (by intros [? ?])]; apply own_class_counts.
  - rewrite (Hcount _ (λ _ hp _, if hp then 1 else 0)); [cbn; lia|].
    intros c0 [pu|] r w0; rewrite clade_statements_own;
      [rewrite bool_decide_true by (by eexists)
      |rewrite bool_decide_false by (by intros [? ?])]; apply own_class_counts.
  - rewrite (process_clade_additive length
               (λ k hp r, (if r then 2 else 0)
                          + match name_present k with Some _ => 3 | None => 0 end
                          + 1 + (if hp then 9 else 0)) eq_refl (@length_app _)).
    2:{ intros c0 [pu|] r w0; rewrite clade_statements_own;
        [rewrite bool_decide_true by (by eexists)
        |rewrite bool_decide_false by (by intros [? ?])]; apply own_class_counts. }
    rewrite bool_decide_false by (by intros [? ?]).
    assert (∀ k, tree_sum (λ k, 0 + match name_present k with Some _ => 3 | None => 0 end
                                + 1 + 9) k
                 = 3 * tree_sum (λ k, match name_present k with Some _ => 1 | None => 0 end) k
                   + 10 * tree_sum (λ _, 1) k) as Hlin.
    { intros k.
      rewrite <-(tree_sum_linear 3 10
                   (λ k, match name_present k with Some _ => 1 | None => 0 end)
                   (λ _, 1) k).
      apply tree_sum_ext. intros k'. destruct (name_present k'); lia. }
    assert (∀ cs,
      foldr (λ k acc, tree_sum
               (λ k, 0 + match name_present k with Some _ => 3 | None => 0 end
                     + 1 + 9) k + acc) 0 cs
      = 3 * foldr (λ k acc, tree_sum
                     (λ k, match name_present k with Some _ => 1 | None => 0 end) k
                     + acc) 0 cs
        + 10 * foldr (λ k acc, tree_sum (λ _, 1) k + acc) 0 cs) as Hkids.
    { induction cs as [|k cs IH]; [done|]. cbn [foldr]. rewrite Hlin, IH. lia. }
    rewrite (Hkids (clades c)). destruct (name_present c); lia.
Qed.


(** ** Reading back what cannot be read *)

Lemma get_node_info_rows_raise (e : exn) (rows : list node_row) :
  Forall (λ r, row_record r = Raise e ∨ ∃ nr, row_record r = Ok nr) rows →
  Exists (λ r, row_record r = Raise e) rows →
  ∀ tables, get_node_info_rows rows tables = Raise e.
Proof.
  induction 1 as [|r rows Hr _ IH]; intros Hex [info par]; [by apply Exists_nil in Hex|].
  cbn [get_node_info_rows]. rewrite get_node_info_row_eq.
  destruct Hr as [->|[[node rec] Hok]]; [done|]. rewrite Hok. cbn [mbind result_bind].
  apply IH. apply Exists_cons in Hex as [Hex|Hex]; [congruence|done].
Qed.

Lemma missing_length_forget (t : ntree) (p : option string) :
  children_have_lengths (forget t) = false →
  ∃ q x, (Some q, x) ∈ nodes_with_parent p t ∧ nt_len x = None.
Proof.
  revert p. induction t as [i n l kids IH] using ntree_ind'. intros p Hc.
  rewrite nodes_with_parent_eq. cbn [forget children_have_lengths] in Hc.
  assert (∃ q x, (Some q, x) ∈ kids ≫= nodes_with_parent (Some i) ∧ nt_len x = None)
    as (q & x & Hin & Hx); [|exists q, x; split; [by right|done]].
  induction IH as [|k kids Hk _ IHkids]; [done|].
  cbn [fmap list_fmap forallb] in Hc. rewrite bind_cons.
  apply andb_false_iff in Hc as [Hc|Hc].
  - apply andb_false_iff in Hc as [Hc|Hc].
    + exists i, k. split.
      * apply elem_of_app. left. destruct k. rewrite nodes_with_parent_eq. left.
      * apply bool_decide_eq_false in Hc. destruct k as [? ? [v|] ?]; [|done].
        destruct Hc. by eexists.
    + destruct (Hk (Some i) Hc) as (q & x & Hin & Hx). exists q, x.
      split; [|done]. apply elem_of_app. by left.
  - destruct (IHkids Hc) as (q & x & Hin & Hx). exists q, x.
    split; [|done]. apply elem_of_app. by right.
Qed.

Lemma row_record_row_of_cases (close : float → float → Prop)
    (pu : option string * ntree) :
  float_round_trip close → float_parse "None" = None →
  row_record (row_of pu) = Raise (ValueError "None") ∨
  ∃ nr, row_record (row_of pu) = Ok nr.
Proof.
  intros Hlaw Hnone. destruct pu as [[q|] x]; unfold row_record, row_of;
    cbn [fst snd row_node row_label row_branch_length node_get_uri fmap option_fmap
         option_map mbind result_bind].
  - destruct (nt_len x) as [v|]; cbn [str_branch_length].
    + destruct (Hlaw v) as (y & Hy & _). right.
      destruct (truthy (nt_name x)); cbn; unfold to_float; rewrite Hy; by eexists.
    + left. destruct (truthy (nt_name x)); cbn; unfold to_float; by rewrite Hnone.
  - right. destruct (truthy (nt_name x)); by eexists.
Qed.

(** X9: the writer spells an absent branch length [None]; when Python
    reads that text as no float, a tree in which some clade other than the
    root has no branch length cannot be read back: whatever the order of the
    query answers, [parse_model] yields no tree and ends with the
    [ValueError] of [float]. *)
Theorem round_trip_fails_without_length (close : float → float → Prop) (env : redland)
    (depth : nat) (rooted0 : option bool) (c : clade) (w : writer)
    (out : list tree * option exn) :
  float_round_trip close →
  float_parse "None" = None →
  rdf_importable env = true →
  children_have_lengths c = false →
  parse_model_yields env depth rooted0 (process_clade c None true w).1 out →
  out = ([], Some (ValueError "None")).
Proof.
  intros Hlaw Hnone Himp Hlen (rows & roots & Hrows & _ & ->). unfold sparql_answer in *.
  rewrite node_query_rows_for in Hrows.
  pose proof (rows_of_process_clade c None true w [] []) as Hblock.
  rewrite app_nil_r in Hblock. cbn [app fmap option_fmap option_map] in Hblock.
  rewrite Hblock in Hrows by constructor.
  apply Permutation_map_inv in Hrows as (e' & -> & He).
  change (map row_of e') with (row_of <$> e').
  unfold parse_model, import_rdf, get_node_info. rewrite Himp.
  rewrite (get_node_info_rows_raise (ValueError "None")); [done| |].
  - apply Forall_forall. intros r (pu & -> & _)%list_elem_of_fmap.
    by apply (row_record_row_of_cases close).
  - destruct (missing_length_forget (number c None true w) None) as (q & x & Hin & Hx).
    { by rewrite forget_number. }
    apply Exists_exists. exists (row_of (Some q, x)). split.
    + apply list_elem_of_fmap. exists (Some q, x). split; [done|]. by rewrite <-He.
    + unfold row_record, row_of.
      cbn [fst snd row_node row_label row_branch_length node_get_uri fmap option_fmap
           option_map mbind result_bind].
      rewrite Hx. cbn [str_branch_length].
      destruct (truthy (nt_name x)); cbn; unfold to_float; by rewrite Hnone.
Qed.

(** ** A batch, written and read back *)

Fixpoint last_char (s : string) : option ascii :=
  match s with
  | "" => None
  | String c t => match t with "" => Some c | _ => last_char t end
  end.

Lemma last_char_cons (c : ascii) (t : string) :
  t ≠ "" → last_char (String c t) = last_char t.
Proof. by destruct t. Qed.

Lemma last_char_app (s t : string) : t ≠ "" → last_char (s +:+ t) = last_char t.
Proof.
  intros Ht. induction s as [|c s IH]; [done|].
  change (String c s +:+ t) with (String c (s +:+ t)).
  rewrite last_char_cons; [done|]. by destruct s, t.
Qed.

Lemma pretty_N_go_last (x : N) (s : string) :
  s ≠ "" → last_char (pretty_N_go x s) = last_char s.
Proof.
  revert s. induction (N.lt_wf_0 x) as [x _ IH]. intros s Hs.
  destruct (decide (x = 0%N)) as [->|Hx].
  - by rewrite pretty_N_go_0.
  - rewrite pretty_N_go_step by lia.
    rewrite IH; [by apply last_char_cons|apply N.div_lt; lia|done].
Qed.

Lemma pretty_nat_last (n : nat) : ∃ c, last_char (pretty n) = Some c ∧ is_digit c.
Proof.
  unfold pretty, pretty_nat, pretty, pretty_N.
  case_decide as Hn.
  - eexists. split; [reflexivity|]. vm_compute. lia.
  - rewrite pretty_N_go_step by lia. rewrite pretty_N_go_last by done.
    eexists. split; [reflexivity|]. apply pretty_N_char_digit.
Qed.

(** A minted identifier ends with a digit, under every base URI. *)
Lemma minted_last (b : string) (k : kind) (n : nat) :
  ∃ c, last_char (b +:+ mint k n) = Some c ∧ is_digit c.
Proof.
  destruct (pretty_nat_last n) as (c & Hc & Hd). exists c. split; [|done].
  assert (pretty n ≠ "") as Hne by (intros Heq; by rewrite Heq in Hc).
  assert (last_char (mint k n) = Some c) as Hm.
  { destruct k; unfold mint, node_uri, edge_uri, edge_ann_uri, tree_uri, tu_uri;
      by rewrite last_char_app. }
  rewrite last_char_app; [done|]. intros Heq. by rewrite Heq in Hm.
Qed.

Lemma ontology_foreign (w w' : writer) : foreign w w' ontology_statement.
Proof.
  right. intros (k & n & Heq & _). cbn [subject ontology_statement] in Heq.
  unfold nUri in Heq. injection Heq as Heq.
  destruct (minted_last (base_uri w) k n) as (c & Hc & Hd).
  rewrite <-Heq in Hc. vm_compute in Hc. injection Hc as <-.
  vm_compute in Hd. lia.
Qed.

(** The numbered trees of a batch. *)
Fixpoint number_trees (ts : list tree) (w : writer) : list ntree :=
  match ts with
  | [] => []
  | t :: ts' =>
      number (root t) None true w
      :: number_trees ts' (process_clade (root t) None true w).2
  end.

Lemma forget_number_trees (ts : list tree) (w : writer) :
  forget <$> number_trees ts w = root <$> ts.
Proof.
  revert w. induction ts as [|t ts IH]; intros w; [done|].
  cbn [number_trees fmap list_fmap]. rewrite forget_number. f_equal. apply IH.
Qed.

Lemma number_trees_ids (ts : list tree) (w : writer) :
  NoDup (number_trees ts w ≫= nt_ids) ∧
  ∀ s, s ∈ number_trees ts w ≫= nt_ids → node_id_in w (process_trees ts w).2 s.
Proof.
  revert w. induction ts as [|t ts IH]; intros w.
  - split; [constructor|]. intros s Hs. by apply elem_of_nil in Hs.
  - cbn [number_trees]. rewrite bind_cons, process_trees_cons. cbn [snd].
    destruct (number_ids (root t) None true w) as [Hnd1 Hin1].
    pose proof (run_process_clade (root t) None true w) as Hrun1.
    set (w1 := (process_clade (root t) None true w).2) in *.
    destruct (IH w1) as [Hnd2 Hin2].
    pose proof (run_process_trees ts w1) as Hrun2.
    set (w2 := (process_trees ts w1).2) in *.
    pose proof (run_counters _ _ _ Hrun1 KNode) as Hc1.
    pose proof (run_counters _ _ _ Hrun2 KNode) as Hc2.
    pose proof (run_base _ _ _ Hrun1) as Hb1. cbn [counter] in Hc1, Hc2.
    split.
    + apply NoDup_app. split; [done|]. split; [|done].
      intros s Hs1 Hs2.
      by apply (node_id_in_disjoint w w1 w1 w2 s Hb1 ltac:(lia) (Hin1 s Hs1) (Hin2 s Hs2)).
    + intros s [Hs|Hs]%elem_of_app.
      * destruct (Hin1 s Hs) as (j & -> & Hj). exists j. split; [done|lia].
      * destruct (Hin2 s Hs) as (j & -> & Hj). exists j. rewrite Hb1. split; [done|lia].
Qed.

Lemma number_trees_Forall (P : tree → Prop) (Q : ntree → Prop) (ts : list tree) :
  (∀ t w, P t → Q (number (root t) None true w)) →
  Forall P ts → ∀ w, Forall Q (number_trees ts w).
Proof.
  intros HPQ. induction 1 as [|t ts Ht _ IH]; intros w; cbn [number_trees]; constructor;
    auto.
Qed.

(** The node query over a batch in a model whose other statements are
    foreign to it. *)
Lemma rows_of_trees (ts : list tree) (w : writer) (pre post : list statement) :
  Forall (foreign w (process_trees ts w).2) pre →
  Forall (foreign w (process_trees ts w).2) post →
  rows_for (pre ++ (process_trees ts w).1 ++ post) (node_pattern (process_trees ts w).1)
  ≡ₚ row_of <$> (number_trees ts w ≫= nodes_with_parent None).
Proof.
  revert w pre post. induction ts as [|t ts IH]; intros w pre post Hpre Hpost; [done|].
  rewrite process_trees_cons in *. cbn [fst snd number_trees] in *.
  pose proof (run_process_clade (root t) None true w) as Hrun1.
  set (s1 := (process_clade (root t) None true w).1) in *.
  set (w1 := (process_clade (root t) None true w).2) in *.
  pose proof (run_process_trees ts w1) as Hrun2.
  set (s2 := (process_trees ts w1).1) in *.
  set (w2 := (process_trees ts w1).2) in *.
  pose proof (run_base _ _ _ Hrun1) as Hb1.
  pose proof (run_counters _ _ _ Hrun1) as Hc1.
  pose proof (run_counters _ _ _ Hrun2) as Hc2.
  rewrite (rows_for_perm _ _ _ (node_pattern_app s1 s2)), rows_for_app.
  rewrite bind_cons, fmap_app. apply Permutation_app.
  - rewrite <-(app_assoc s1 s2 post).
    apply (rows_of_process_clade (root t) None true w pre (s2 ++ post)).
    + eapply foreign_weaken; [reflexivity| |exact Hc2|exact Hpre]. auto.
    + apply Forall_app. split.
      * eapply run_foreign_after; [exact Hrun2|exact Hb1|auto].
      * eapply foreign_weaken; [reflexivity| |exact Hc2|exact Hpost]. auto.
  - rewrite <-(app_assoc s1 s2 post), (app_assoc pre s1 (s2 ++ post)).
    apply (IH w1 (pre ++ s1) post).
    + apply Forall_app. split.
      * eapply foreign_weaken; [exact Hb1|exact Hc1| |exact Hpre]. auto.
      * eapply run_foreign_before; [exact Hrun1|exact Hb1|auto].
    + eapply foreign_weaken; [exact Hb1|exact Hc1| |exact Hpost]. auto.
Qed.

(** The root of one tree, looked up in a model whose other statements
    are foreign to the tree. *)
Lemma root_of_tree (c : clade) (w : writer) (pre post : list statement) :
  Forall (foreign w (process_clade c None true w).2) pre →
  Forall (foreign w (process_clade c None true w).2) post →
  (t ← subjects_of (process_clade c None true w).1 sparql_a (cdao "RootedTree");
   objects_of (pre ++ (process_clade c None true w).1 ++ post) t (cdao "has_root"))
  = [Uri (nt_id (number c None true w))].
Proof.
  intros Hpre Hpost. rewrite process_clade_snd in Hpre, Hpost.
  rewrite process_clade_fst, subjects_of_app.
  pose proof (run_children (mint KNode (S (node_counter w))) (clades c)
                (advance c None true w)) as Hrun.
  pose proof (run_counters _ _ _ Hrun) as Hc.
  rewrite (no_tree_below_children _ (clades c)).
  2:{ apply Forall_forall. intros k _ parent w'. apply no_tree_below. }
  rewrite clade_statements_own, own_tree. cbn [app mbind list_bind].
  rewrite app_nil_r, <-clade_statements_own, <-app_assoc.
  rewrite (objects_of_own w (advance c None true w) pre _ _ _ (cdao "has_root")).
  - rewrite clade_statements_own, own_has_root, number_eq. reflexivity.
  - eapply foreign_weaken; [reflexivity| |exact Hc|exact Hpre]. auto.
  - apply Forall_app. split.
    + eapply run_foreign_after; [exact Hrun|reflexivity|auto].
    + eapply foreign_weaken; [reflexivity| |exact Hc|exact Hpost]. auto.
  - apply minted_tree.
  - vocabulary_neq.
Qed.

Lemma roots_of_trees (ts : list tree) (w : writer) (pre post : list statement) :
  Forall (foreign w (process_trees ts w).2) pre →
  Forall (foreign w (process_trees ts w).2) post →
  (t ← subjects_of (process_trees ts w).1 sparql_a (cdao "RootedTree");
   objects_of (pre ++ (process_trees ts w).1 ++ post) t (cdao "has_root"))
  = (λ t, Uri (nt_id t)) <$> number_trees ts w.
Proof.
  revert w pre post. induction ts as [|t ts IH]; intros w pre post Hpre Hpost; [done|].
  rewrite process_trees_cons in *. cbn [fst snd number_trees] in *.
  pose proof (run_process_clade (root t) None true w) as Hrun1.
  set (s1 := (process_clade (root t) None true w).1) in *.
  set (w1 := (process_clade (root t) None true w).2) in *.
  pose proof (run_process_trees ts w1) as Hrun2.
  set (s2 := (process_trees ts w1).1) in *.
  set (w2 := (process_trees ts w1).2) in *.
  pose proof (run_base _ _ _ Hrun1) as Hb1.
  pose proof (run_counters _ _ _ Hrun1) as Hc1.
  pose proof (run_counters _ _ _ Hrun2) as Hc2.
  rewrite subjects_of_app, bind_app, fmap_cons.
  change (?x :: ?l) with ([x] ++ l). f_equal.
  - rewrite <-(app_assoc s1 s2 post).
    apply (root_of_tree (root t) w pre (s2 ++ post)).
    + eapply foreign_weaken; [reflexivity| |exact Hc2|exact Hpre]. auto.
    + apply Forall_app. split.
      * eapply run_foreign_after; [exact Hrun2|exact Hb1|auto].
      * eapply foreign_weaken; [reflexivity| |exact Hc2|exact Hpost]. auto.
  - rewrite <-(app_assoc s1 s2 post), (app_assoc pre s1 (s2 ++ post)).
    apply (IH w1 (pre ++ s1) post).
    + apply Forall_app. split.
      * eapply foreign_weaken; [exact Hb1|exact Hc1| |exact Hpre]. auto.
      * eapply run_foreign_before; [exact Hrun1|exact Hb1|auto].
    + eapply foreign_weaken; [exact Hb1|exact Hc1| |exact Hpost]. auto.
Qed.

(** *** Reading a forest back *)

Lemma forest_ids (f : list ntree) :
  (λ pu : option string * ntree, nt_id pu.2) <$> (f ≫= nodes_with_parent None)
  = f ≫= nt_ids.
Proof.
  induction f as [|t f IH]; [done|].
  by rewrite !bind_cons, fmap_app, nodes_with_parent_ids, IH.
Qed.

Lemma children_of_forest_outside (f : list ntree) (s : string) :
  s ∉ f ≫= nt_ids → children_of s (f ≫= nodes_with_parent None) = [].
Proof.
  induction f as [|t f IH]; intros Hs; [done|].
  rewrite bind_cons in *. apply not_elem_of_app in Hs as [Hs1 Hs2].
  rewrite children_of_app, IH by done.
  rewrite children_of_outside by done. by rewrite decide_False.
Qed.

Lemma inside_forest (f : list ntree) (t : ntree) :
  NoDup (f ≫= nt_ids) → t ∈ f → inside (f ≫= nodes_with_parent None) None t.
Proof.
  intros Hnd Ht. apply list_elem_of_split in Ht as (l1 & l2 & ->).
  rewrite !bind_app, !bind_cons in *.
  apply NoDup_app in Hnd as (Hnd1 & Hdisj1 & Hnd).
  apply NoDup_app in Hnd as (Hndt & Hdisj2 & Hnd2).
  split.
  - intros s Hs. rewrite !children_of_app.
    rewrite (children_of_forest_outside l1), (children_of_forest_outside l2).
    + by rewrite app_nil_r.
    + intros Hin. by apply (Hdisj2 s).
    + intros Hin. apply (Hdisj1 s Hin). apply elem_of_app. by left.
  - intros x Hx. apply elem_of_app. right. apply elem_of_app. by left.
  - done.
  - done.
Qed.

Lemma get_node_info_forest (close : float → float → Prop) (f : list ntree)
    (rows : list node_row) :
  float_round_trip close →
  NoDup (f ≫= nt_ids) →
  lengths_present (f ≫= nodes_with_parent None) →
  rows ≡ₚ row_of <$> (f ≫= nodes_with_parent None) →
  ∃ info par,
    get_node_info rows = Ok (info, par) ∧
    (∀ t, t ∈ f → info !! nt_id t = Some (NodeRecord (truthy (nt_name t)) None)) ∧
    (∀ s, default [] (par !! s)
          ≡ₚ (λ pu, nt_id pu.2) <$> children_of s (f ≫= nodes_with_parent None)) ∧
    (∀ q x, (Some q, x) ∈ f ≫= nodes_with_parent None →
       ∃ v y, nt_len x = Some v ∧ close v y ∧
              info !! nt_id x = Some (NodeRecord (truthy (nt_name x)) (Some y))).
Proof.
  intros Hlaw Hnd Hlen Hrows.
  apply Permutation_map_inv in Hrows as (e' & -> & He).
  change (map row_of e') with (row_of <$> e').
  assert (Forall2 (λ r nr, row_record r = Ok nr) (row_of <$> e') (record_of <$> e'))
    as Hrec.
  { apply Forall2_fmap, Forall_Forall2_diag, Forall_forall. intros [q x] Hin.
    apply (row_record_row_of close); [done|]. intros [q' Hq]. cbn [fst snd] in *.
    subst q. apply (Hlen q'). by rewrite He. }
  destruct (get_node_info_rows_spec _ _ Hrec ∅ ∅) as (info & par & Hrun & Hpar & _ & Hinfo).
  assert (NoDup (record_of <$> e').*1) as Hnd'.
  { rewrite <-list_fmap_compose.
    change (fst ∘ record_of) with (λ pu : option string * ntree, nt_id pu.2).
    rewrite <-He, forest_ids. done. }
  specialize (Hinfo Hnd').
  exists info, par. split; [exact Hrun|]. split; [|split].
  - intros t Ht. apply (Hinfo _ _). apply list_elem_of_fmap. exists (None, t).
    split; [done|]. rewrite <-He. apply list_elem_of_bind. exists t. split; [|done].
    destruct t. left.
  - intros s. rewrite Hpar, lookup_empty. cbn [default app].
    rewrite children_in_row_of. unfold children_of. by rewrite He.
  - intros q x Hin. destruct (Hlen q x Hin) as [v Hv].
    destruct (Hlaw v) as (y & Hy & Hclose). exists v, y. split; [done|]. split; [done|].
    rewrite (Hinfo (nt_id x) (record_of (Some q, x)).2).
    + unfold record_of. cbn [fst snd]. by rewrite Hv, <-Hy.
    + apply list_elem_of_fmap. exists (Some q, x). split; [done|]. by rewrite <-He.
Qed.

(** The second part for a batch: from any answers to the two queries
    that are the rows and the roots of a numbered forest, in some order,
    [parse_model] yields one tree for every tree of the forest, in the
    order of the roots. *)
Lemma parse_model_forest (close : float → float → Prop) (env : redland)
    (depth : nat) (b : bool) (f : list ntree) (rows : list node_row)
    (roots : list rdf_node) :
  float_round_trip close →
  rdf_importable env = true →
  NoDup (f ≫= nt_ids) →
  lengths_present (f ≫= nodes_with_parent None) →
  Forall (λ t, nt_height t ≤ depth) f →
  rows ≡ₚ row_of <$> (f ≫= nodes_with_parent None) →
  roots ≡ₚ (λ t, Uri (nt_id t)) <$> f →
  ∃ f' out,
    parse_model env depth (Some b) rows roots = (out, None) ∧
    f ≡ₚ f' ∧
    Forall2 (λ t tr, rooted tr = b ∧ similar close true (forget t) (root tr)) f' out.
Proof.
  intros Hlaw Himp Hnd Hlen Hdepth Hrows Hroots.
  destruct (get_node_info_forest close f rows Hlaw Hnd Hlen Hrows)
    as (info & par & Hrun & Hroot & Hpar & Hinfo).
  unfold parse_model, import_rdf. rewrite Himp, Hrun.
  apply Permutation_map_inv in Hroots as (f' & -> & Hf).
  change (map ?g f') with (g <$> f').
  exists f'. 
  assert (∀ part, part ⊆ f →
    ∃ out, parse_roots depth info par (Some b) ((λ t, Uri (nt_id t)) <$> part)
           = (out, None) ∧
           Forall2 (λ t tr, rooted tr = b ∧ similar close true (forget t) (root tr))
             part out) as Hloop.
  { induction part as [|t part IHpart]; intros Hsub.
    - exists []. split; [done|constructor].
    - assert (t ∈ f) as Ht by (apply Hsub; left).
      destruct IHpart as (out & Hout & Hrel); [intros x Hx; apply Hsub; by right|].
      rewrite Forall_forall in Hdepth.
      destruct (parse_children_inside close _ info par Hpar Hinfo t None depth
                  (inside_forest f t Hnd Ht) (Hdepth t Ht))
        as (cs & kids' & Hcs & Hperm & Hrelk).
      cbn [fmap list_fmap parse_roots]. unfold parse_root, new_clade.
      cbn [node_get_uri mbind result_bind]. rewrite (Hroot t Ht).
      cbn [mbind result_bind]. rewrite Hcs. cbn [mbind result_bind].
      change (list_fmap _ _ ?g part) with (g <$> part). rewrite Hout.
      eexists. split; [reflexivity|]. constructor; [|exact Hrel].
      split; [done|]. cbn [root].
      destruct t as [i n l kids]. cbn [forget nt_name nt_kids] in *.
      eapply (similar_clade close true _ _ (forget <$> kids')).
      + done.
      + done.
      + cbn [clades]. by apply fmap_Permutation.
      + cbn [clades set_clades]. by apply Forall2_fmap_l. }
  destruct (Hloop f') as (out & Hout & Hrel).
  { intros x Hx. by rewrite Hf. }
  exists out. done.
Qed.

Lemma node_query_batch (ts : list tree) (w : writer) :
  node_query (ontology_statement :: (process_trees ts w).1)
  ≡ₚ row_of <$> (number_trees ts w ≫= nodes_with_parent None).
Proof.
  rewrite node_query_rows_for.
  change (ontology_statement :: (process_trees ts w).1)
    with ([ontology_statement] ++ (process_trees ts w).1).
  rewrite (rows_for_perm _ _ _ (node_pattern_app _ _)).
  assert (node_pattern [ontology_statement] = []) as -> by (vm_compute; reflexivity).
  cbn [app]. rewrite <-(app_nil_r (process_trees ts w).1) at 1.
  apply (rows_of_trees ts w [ontology_statement] []); [|constructor].
  constructor; [apply ontology_foreign|constructor].
Qed.

Lemma root_query_batch (ts : list tree) (w : writer) :
  root_query (ontology_statement :: (process_trees ts w).1)
  = (λ t, Uri (nt_id t)) <$> number_trees ts w.
Proof.
  unfold root_query.
  replace (ontology_statement :: (process_trees ts w).1)
    with ([ontology_statement] ++ (process_trees ts w).1 ++ [])
    by (by rewrite app_nil_r).
  assert (subjects_of ([ontology_statement] ++ (process_trees ts w).1 ++ [])
            sparql_a (cdao "RootedTree")
          = subjects_of (process_trees ts w).1 sparql_a (cdao "RootedTree")) as ->.
  { rewrite app_nil_r, subjects_of_app.
    assert (subjects_of [ontology_statement] sparql_a (cdao "RootedTree") = []) as ->
      by (vm_compute; reflexivity).
    done. }
  apply (roots_of_trees ts w [ontology_statement] []); [|constructor].
  constructor; [apply ontology_foreign|constructor].
Qed.

(** X11: a batch of trees written by [add_trees_to_model] into a new
    model is read back by [parse_model]: when every clade other than a root
    has a branch length and the recursion depth is enough for every tree,
    then, whatever the order in which the query engine answers, the parser
    ends without exception and yields as many trees as were written; they
    are the trees of the batch in some order, each up to the order of the
    children of its nodes, with the names kept (an empty name comes back
    absent), the branch lengths within the tolerance of the float round
    trip, no branch length at the root, and the [rooted] flag of the parser
    in place of the one the tree had. *)
Theorem batch_round_trip (close : float → float → Prop) (env : redland) (depth : nat)
    (b : bool) (ts : list tree) (base : string) (w w' : writer) :
  float_round_trip close →
  model w = None →
  Forall (λ t, children_have_lengths (root t) = true ∧ height (root t) ≤ depth) ts →
  add_trees_to_model env (Some ts) base w = Ok w' →
  ∃ m, model w' = Some m ∧
    (∃ out, parse_model_yields env depth (Some b) m out) ∧
    ∀ out, parse_model_yields env depth (Some b) m out →
      ∃ cs, out.2 = None ∧ root <$> ts ≡ₚ cs ∧
            Forall2 (λ c tr, rooted tr = b ∧ similar close true c (root tr)) cs out.1.
Proof.
  intros Hlaw Hmodel Hts.
  unfold add_trees_to_model, new_storage, import_rdf.
  destruct (rdf_importable env) eqn:Himp; cbn [mbind result_bind]; [|done].
  destruct (storage_created env); cbn [mbind result_bind]; [|done].
  cbn [model set_base_uri default]. rewrite Hmodel.
  destruct (model_created env); cbn [mbind result_bind]; [|done].
  unfold id. set (w0 := set_base_uri base w).
  pose proof (node_query_batch ts w0) as Hnodes.
  pose proof (root_query_batch ts w0) as Hrootq.
  destruct (process_trees ts w0) as [stmts w1]. cbn [fst] in Hnodes, Hrootq.
  intros [= <-]. cbn [model set_model app].
  eexists. split; [reflexivity|]. split.
  { eexists. exists (node_query (ontology_statement :: stmts)),
                    (root_query (ontology_statement :: stmts)).
    unfold sparql_answer. split; [done|]. split; [done|]. reflexivity. }
  intros out (rows & roots & Hrows & Hroots & ->). unfold sparql_answer in *.
  rewrite Hnodes in Hrows. rewrite Hrootq in Hroots.
  destruct (number_trees_ids ts w0) as [Hnd _].
  destruct (parse_model_forest close env depth b (number_trees ts w0) rows roots)
    as (f' & out & Hparse & Hperm & Hrel); try done.
  - intros q x (t & Hx & Ht)%list_elem_of_bind.
    assert (Forall (λ t, lengths_present (nodes_with_parent None t)) (number_trees ts w0))
      as Hall.
    { apply (number_trees_Forall
               (λ t, children_have_lengths (root t) = true ∧ height (root t) ≤ depth));
        [|done].
      intros t0 w2 [Hc _]. apply lengths_present_forget; [by rewrite forget_number|].
      by intros [? [=]]. }
    rewrite Forall_forall in Hall. by apply (Hall t Ht q x).
  - apply (number_trees_Forall
             (λ t, children_have_lengths (root t) = true ∧ height (root t) ≤ depth));
      [|done].
    intros t0 w2 [_ Hh]. by rewrite nt_height_forget, forget_number.
  - rewrite Hparse. cbn [fst snd]. exists (forget <$> f'). split; [done|]. split.
    + rewrite <-(forget_number_trees ts w0). by apply fmap_Permutation.
    + by apply Forall2_fmap_l.
Qed.

(** ** The tables of [get_node_info] *)

(** Every node listed as a child has a record. *)
Definition children_known (info : gmap string node_record)
    (par : gmap string (list string)) : Prop :=
  ∀ p ch, ch ∈ default [] (par !! p) → is_Some (info !! ch).

Lemma get_node_info_row_known (info : gmap string node_record)
    (par : gmap string (list string)) (r : node_row)
    (info' : gmap string node_record) (par' : gmap string (list string)) :
  children_known info par →
  get_node_info_row (info, par) r = Ok (info', par') →
  children_known info' par'.
Proof.
  intros Hknown. rewrite get_node_info_row_eq.
  destruct (row_record r) as [[node rec]|e]; [|done]. intros [= <- <-] p ch Hch.
  destruct (decide (ch = node)) as [->|Hne]; [by rewrite lookup_insert_eq|].
  rewrite lookup_insert_ne by done. apply (Hknown p). unfold add_child in Hch.
  destruct (row_parent_node r) as [pn|]; [|done].
  destruct (decide (node_str pn = p)) as [Heq|Hp].
  - subst p. rewrite lookup_insert_eq in Hch. cbn [default] in Hch.
    apply elem_of_app in Hch as [Hch|Hch]; [done|].
    apply list_elem_of_singleton in Hch. done.
  - by rewrite lookup_insert_ne in Hch.
Qed.

Lemma get_node_info_rows_known (rows : list node_row) :
  ∀ info par info' par',
    children_known info par →
    get_node_info_rows rows (info, par) = Ok (info', par') →
    children_known info' par'.
Proof.
  induction rows as [|r rows IH]; intros info par info' par' Hknown; cbn [get_node_info_rows].
  - by intros [= <- <-].
  - destruct (get_node_info_row (info, par) r) as [[info1 par1]|e] eqn:Hrow; [|done].
    cbn [mbind result_bind]. apply IH. by eapply get_node_info_row_known.
Qed.

Lemma parse_children_known (info : gmap string node_record)
    (par : gmap string (list string)) :
  children_known info par →
  ∀ depth node e, parse_children depth info par node = Raise e →
    e = RuntimeError "maximum recursion depth exceeded".
Proof.
  intros Hknown. induction depth as [|depth IH]; intros node e.
  - by intros [= <-].
  - rewrite parse_children_eq.
    pose proof (Hknown node) as Hch.
    induction (default [] (par !! node)) as [|ch rest IHrest]; [done|].
    cbn [parse_children_loop]. unfold new_clade.
    destruct (Hch ch ltac:(left)) as [rec ->]. cbn [mbind result_bind].
    destruct (parse_children depth info par ch) as [cs|e1] eqn:Hcs; cbn [mbind result_bind].
    + destruct (parse_children_loop depth info par rest) as [cs'|e2];
        cbn [mbind result_bind]; [done|].
      intros [= <-]. apply IHrest; [|done]. intros ch' Hin. apply Hch. by right.
    + intros [= <-]. by eapply IH.
Qed.

(** X12: in the tables [get_node_info] fills, every node listed among
    the children of a node has a record of its own; so the [KeyError] of
    [new_clade] can never arise inside [parse_children], whose only
    exception is the end of the recursion depth; in [parse_model] a
    [KeyError] can only name a root. *)
Theorem get_node_info_children_known (rows : list node_row)
    (info : gmap string node_record) (par : gmap string (list string)) :
  get_node_info rows = Ok (info, par) →
  (∀ p ch, ch ∈ default [] (par !! p) → is_Some (info !! ch)) ∧
  (∀ depth node e, parse_children depth info par node = Raise e →
     e = RuntimeError "maximum recursion depth exceeded") ∧
  (∀ depth rooted0 r node,
     parse_root depth info par rooted0 r = Raise (KeyError node) → r = Uri node).
Proof.
  intros Hrows.
  assert (children_known info par) as Hknown.
  { apply (get_node_info_rows_known rows ∅ ∅ info par); [|exact Hrows].
    intros p ch Hch. rewrite lookup_empty in Hch. by apply elem_of_nil in Hch. }
  split; [exact Hknown|]. split; [by apply parse_children_known|].
  intros depth rooted0 r node. unfold parse_root.
  destruct r as [s|s]; cbn [node_get_uri mbind result_bind]; [|done].
  unfold new_clade. destruct (info !! s) as [rec|]; cbn [mbind result_bind].
  - destruct (parse_children depth info par s) as [cs|e] eqn:Hcs; cbn [mbind result_bind].
    + by destruct rooted0.
    + intros [= ->]. by apply (parse_children_known info par Hknown) in Hcs.
  - by intros [= ->].
Qed.

(** X13: [parse_model] yields at most one tree for every answer of the
    root query, exactly one when it ends without exception, and every tree
    it yields carries the [rooted] flag of the parser, whatever the model
    says. *)
Theorem parse_model_trees (env : redland) (depth : nat) (rooted0 : option bool)
    (rows : list node_row) (roots : list rdf_node) :
  let out := parse_model env depth rooted0 rows roots in
  length out.1 ≤ length roots ∧
  (out.2 = None → length out.1 = length roots) ∧
  Forall (λ t, rooted0 = Some (rooted t)) out.1.
Proof.
  cbv zeta. unfold parse_model, import_rdf.
  destruct (rdf_importable env); cbn [fst snd length];
    [|repeat split; [lia|done|constructor]].
  destruct (get_node_info rows) as [[info par]|e]; cbn [fst snd length];
    [|repeat split; [lia|done|constructor]].
  induction roots as [|r roots IH]; cbn [parse_roots];
    [repeat split; [done..|constructor]|].
  destruct (parse_root depth info par rooted0 r) as [t|e] eqn:Hroot;
    [|repeat split; cbn; [lia|done|constructor]].
  destruct (parse_roots depth info par rooted0 roots) as [ts e].
  cbn [fst snd length] in *. destruct IH as (Hle & Heq & Hall).
  assert (rooted0 = Some (rooted t)) as Hflag.
  { unfold parse_root in Hroot.
    destruct (node_get_uri r); cbn [mbind result_bind] in Hroot; [|done].
    destruct (new_clade info _); cbn [mbind result_bind] in Hroot; [|done].
    destruct (parse_children depth info par _); cbn [mbind result_bind] in Hroot; [|done].
    destruct rooted0; [|done]. by injection Hroot as <-. }
  repeat split.
  - lia.
  - intros He. by rewrite Heq.
  - by constructor.
Qed.

(** ** A writer used again *)

(** X14: a writer keeps its model and its counters from one call of
    [add_trees_to_model] to the next: the second call appends to the
    statements of the first the ontology statement once more and the
    statements of its own batch, numbered from where the first call stopped,
    so that the two batches share no identifier under the same base URI, and
    [tree_counter] counts the trees of both. *)
Theorem add_trees_to_model_again (env : redland) (ts1 ts2 : option (list tree))
    (base : string) (w w1 w2 : writer) :
  model w = None →
  add_trees_to_model env ts1 base w = Ok w1 →
  add_trees_to_model env ts2 base w1 = Ok w2 →
  let s1 := (process_trees (default (trees w) ts1) (set_base_uri base w)).1 in
  let s2 := (process_trees (default (trees w) ts2) (set_base_uri base w1)).1 in
  model w2 = Some (ontology_statement :: s1 ++ ontology_statement :: s2) ∧
  tree_counter w2
    = tree_counter w + length (default (trees w) ts1) + length (default (trees w) ts2) ∧
  NoDup (minted (s1 ++ s2)).
Proof.
  intros Hmodel. unfold add_trees_to_model, new_storage, import_rdf.
  destruct (rdf_importable env); cbn [mbind result_bind]; [|done].
  destruct (storage_created env); cbn [mbind result_bind]; [|done].
  cbn [model set_base_uri trees]. rewrite Hmodel.
  destruct (model_created env); cbn [mbind result_bind]; [|done].
  set (w0 := set_base_uri base w).
  pose proof (run_process_trees (default (trees w) ts1) w0) as Hrun1.
  pose proof (process_trees_tree_counter (default (trees w) ts1) w0) as Hc1.
  destruct (process_trees (default (trees w) ts1) w0) as [s1 wa].
  intros [= <-]. cbn [model set_model trees base_uri node_counter edge_counter
                      tree_counter tu_counter mbind result_bind fst snd] in *.
  rewrite (run_trees _ _ _ Hrun1). cbn [trees w0 set_base_uri].
  set (wb := set_base_uri base (set_model (ontology_statement :: s1) wa)).
  pose proof (run_process_trees (default (trees w) ts2) wb) as Hrun2.
  pose proof (process_trees_tree_counter (default (trees w) ts2) wb) as Hc2.
  destruct (process_trees (default (trees w) ts2) wb) as [s2 wc].
  intros [= <-]. cbn [model set_model tree_counter fst snd] in *. split; [|split].
  - cbn [app]. by rewrite <-!app_assoc.
  - rewrite Hc2. subst wb. cbn [tree_counter set_base_uri set_model]. rewrite Hc1.
    subst w0. cbn [tree_counter set_base_uri]. lia.
  - rewrite minted_app. apply NoDup_app.
    split; [apply (run_minted _ _ _ Hrun1)|]. split; [|apply (run_minted _ _ _ Hrun2)].
    intros x Hx1 Hx2.
    apply (minted_in_disjoint w0 wa wb wc x); [done| |by eapply run_minted_in..].
    intros k. by destruct k.
Qed.

Lemma get_node_info_rows_last (rows : list node_row) (recs : list (string * node_record)) :
  Forall2 (λ r nr, row_record r = Ok nr) rows recs →
  ∀ info0 par0, ∃ info par,
    get_node_info_rows rows (info0, par0) = Ok (info, par) ∧
    (∀ s, default [] (par !! s) = default [] (par0 !! s) ++ children_in rows s) ∧
    (∀ n, info !! n = match last (filter (λ nr, nr.1 = n) recs) with
                      | Some nr => Some nr.2
                      | None => info0 !! n
                      end).
Proof.
  intros Hrecs info0 par0.
  destruct (get_node_info_rows_spec rows recs Hrecs info0 par0)
    as (info & par & Hrun & Hpar & _ & _).
  exists info, par. split; [exact Hrun|]. split; [exact Hpar|].
  clear Hpar. revert info0 par0 info par Hrun.
  induction Hrecs as [|r [node rec] rows recs Hr _ IH]; intros info0 par0 info par.
  - by intros [= <- <-].
  - cbn [get_node_info_rows]. rewrite get_node_info_row_eq, Hr. cbn [mbind result_bind].
    intros Hrun n. rewrite (IH _ _ _ _ Hrun n). rewrite filter_cons. cbn [fst].
    destruct (decide (node = n)) as [->|Hne].
    + destruct (filter (λ nr, nr.1 = n) recs) as [|nr l] eqn:Hf.
      * change (<[n:=rec]> info0 !! n = Some rec). apply lookup_insert_eq.
      * rewrite last_cons_cons. destruct (last (nr :: l)) eqn:Hl; [done|].
        by apply last_None in Hl.
    + by rewrite lookup_insert_ne.
Qed.

(** X15: what [get_node_info] leaves in the two tables, when every row
    can be read: [parents] lists under each key, in the order of the
    answers and with repetitions, the node of every row that names the key
    as its parent; [node_info] holds for a node the record of the last row
    that answers for it, and nothing for a node no row answers for. *)
Theorem get_node_info_tables (rows : list node_row) (recs : list (string * node_record)) :
  Forall2 (λ r nr, row_record r = Ok nr) rows recs →
  ∃ info par,
    get_node_info rows = Ok (info, par) ∧
    (∀ s, default [] (par !! s) = children_in rows s) ∧
    (∀ n, info !! n = snd <$> last (filter (λ nr, nr.1 = n) recs)).
Proof.
  intros Hrecs.
  destruct (get_node_info_rows_last rows recs Hrecs ∅ ∅) as (info & par & Hrun & Hpar & Hinfo).
  exists info, par. split; [exact Hrun|]. split.
  - intros s. by rewrite Hpar, lookup_empty.
  - intros n. rewrite Hinfo, lookup_empty.
    by destruct (last (filter (λ nr, nr.1 = n) recs)).
Qed.

(** ** Edges *)

(** A property of statement lists that the empty list has, that
    concatenation keeps and that the statements of every single clade
    have, holds of the statements of a tree. *)
Lemma process_clade_closed (P : list statement → Prop) :
  P [] → (∀ a b, P a → P b → P (a ++ b)) →
  (∀ c parent is_root w, P (clade_statements c parent is_root w).1.1) →
  ∀ c parent is_root w, P (process_clade c parent is_root w).1.
Proof.
  intros Hnil Happ Hown. induction c as [n b cs IH] using clade_ind'.
  intros parent is_root w. rewrite process_clade_fst. apply Happ; [apply Hown|].
  cbn [clades]. generalize (advance (Clade n b cs) parent is_root w) as w1.
  induction IH as [|k cs Hk _ IHcs]; intros w1; [done|].
  rewrite process_children_cons. cbn [fst]. apply Happ; [apply Hk|apply IHcs].
Qed.

(** The nine statements that describe the edge [e] from [p] to [n], with
    its annotation [a] of value [v]. *)
Definition edge_block (e n p a : rdf_node) (v : string) : list statement :=
  [ Statement e sparql_a (cdao "Directed_Edge");
    Statement e (cdao "has_Parent_Node") p;
    Statement e (cdao "has_Child_Node") n;
    Statement n (cdao "belongs_to_Edge_as_Child") e;
    Statement n (cdao "has_Parent") p;
    Statement p (cdao "belongs_to_Edge_as_Parent") e;
    Statement a sparql_a (cdao "EdgeLength");
    Statement e (cdao "has_annotation") a;
    Statement a (cdao "has_value") (Literal v) ].

Definition edges_complete (l : list statement) : Prop :=
  ∀ n p, Statement n (cdao "has_Parent") p ∈ l →
    ∃ e a v, edge_block e n p a v ⊆ l.

Lemma edges_complete_app (a b : list statement) :
  edges_complete a → edges_complete b → edges_complete (a ++ b).
Proof.
  intros Ha Hb n p [Hin|Hin]%elem_of_app.
  - destruct (Ha n p Hin) as (e & an & v & Hsub). exists e, an, v.
    intros st Hst. apply elem_of_app. left. by apply Hsub.
  - destruct (Hb n p Hin) as (e & an & v & Hsub). exists e, an, v.
    intros st Hst. apply elem_of_app. right. by apply Hsub.
Qed.

Lemma edges_complete_own (c : clade) (parent : option string) (is_root : bool)
    (w : writer) :
  edges_complete (clade_statements c parent is_root w).1.1.
Proof.
  intros n p Hin. rewrite clade_statements_own in *.
  assert (Statement n (cdao "has_Parent") p
          ∈ filter (λ st, predicate st = cdao "has_Parent")
              (own_statements (base_uri w) is_root (name_present c) (is_terminal c) parent
                 (str_branch_length (branch_length c))
                 (S (tree_counter w)) (S (node_counter w)) (S (tu_counter w))
                 (S (edge_counter w)))) as Hf
    by (by apply list_elem_of_filter).
  clear Hin. revert Hf.
  unfold own_statements, root_part, tu_part, node_part, edge_part.
  rewrite !filter_app.
  destruct is_root, (name_present c) as [nm|], parent as [pu|]; filter_list;
    cbn [app]; intros Hf; try (by apply elem_of_nil in Hf);
    apply list_elem_of_singleton in Hf; injection Hf as -> ->;
    exists (nUri (base_uri w) (mint KEdge (S (edge_counter w)))),
           (nUri (base_uri w) (mint KAnn (S (edge_counter w)))),
           (str_branch_length (branch_length c));
    intros st Hst; unfold edge_block in Hst; rewrite !elem_of_cons in Hst;
    repeat (destruct Hst as [Hst|Hst];
            [rewrite Hst; repeat first [apply list_elem_of_here | apply list_elem_of_further]|]);
    by apply elem_of_nil in Hst.
Qed.

(** X16: in the statements of a tree, every [has_Parent] link from a
    node to its parent comes with the whole description of the edge between
    them: a [Directed_Edge] with this parent and this child, known to both
    of them, and its [EdgeLength] annotation with a value; so the path that
    the node query of the parser follows from a node with a parent to its
    branch length always exists. *)
Theorem has_Parent_comes_with_edge (c : clade) (parent : option string) (is_root : bool)
    (w : writer) (n p : rdf_node) :
  Statement n (cdao "has_Parent") p ∈ (process_clade c parent is_root w).1 →
  ∃ e a v, edge_block e n p a v ⊆ (process_clade c parent is_root w).1.
Proof.
  revert n p. apply (process_clade_closed edges_complete).
  - intros n p Hin. by apply elem_of_nil in Hin.
  - apply edges_complete_app.
  - apply edges_complete_own.
Qed.

End Coverage.

Section Stability.

(** ** The expansion is stable *)

Definition string_tail (s : string) : string :=
  match s with
  | "" => ""
  | String _ t => t
  end.

(** The one-pass expansion does not change whether the text starts with
    [p], when the suffixes of [p] clash with every token and every URI. *)
Lemma prefix_expand_from (urls : list (string * string)) (p s : string) :
  Forall (λ kv, tails_clash p (token kv) = true ∧ tails_clash p kv.2 = true) urls →
  String.prefix p (expand_from 0 urls s) = String.prefix p s.
Proof.
  revert s. induction p as [|x p IH]; intros s Hall.
  - simpl. by destruct (expand_from 0 urls s), s.
  - destruct s as [|y s]; [done|].
    destruct (List.find (matches (String y s)) urls) as [kv|] eqn:Hfind.
    + apply find_some_matches in Hfind as Hkv. destruct Hkv as [Hin Hm].
      apply prefix_true in Hm as [r Hr].
      rewrite (expand_from_match urls kv _ r Hr Hfind), Hr.
      rewrite Forall_forall in Hall. destruct (Hall kv Hin) as [Ht Hu].
      cbn [tails_clash] in Ht, Hu.
      apply andb_true_iff in Ht as [Ht _]. apply andb_true_iff in Hu as [Hu _].
      by rewrite !clash_prefix.
    + rewrite expand_from_keep by done. rewrite !prefix_cons.
      destruct (decide (x = y)); [|done]. apply IH.
      eapply Forall_impl; [exact Hall|]. intros kv [Ht Hu]. cbn [tails_clash] in Ht, Hu.
      apply andb_true_iff in Ht as [_ Ht]. apply andb_true_iff in Hu as [_ Hu]. done.
Qed.

Lemma occursb_text (t u r : string) :
  tails_clash u t = true → occursb t (u +:+ r) = occursb t r.
Proof.
  induction u as [|c u IH]; [done|]. cbn [tails_clash].
  intros [Hc Ht]%andb_true_iff.
  change (String c u +:+ r) with (String c (u +:+ r)). cbn [occursb].
  rewrite IH by done.
  change (String c (u +:+ r)) with (String c u +:+ r).
  rewrite clash_prefix; [done|]. by rewrite clash_sym.
Qed.

(** No token starts inside a URI of the table, and what is left of a
    token after its first character clashes with every token and URI. *)
Definition stable (urls : list (string * string)) : bool :=
  forallb (λ kv0,
    forallb (λ kv,
      tails_clash (string_tail (token kv0)) (token kv) &&
      tails_clash (string_tail (token kv0)) kv.2 &&
      tails_clash kv.2 (token kv0)) urls) urls.

Lemma expand_from_no_token (urls : list (string * string)) (kv0 : string * string)
    (s : string) :
  stable urls = true → kv0 ∈ urls →
  occursb (token kv0) (expand_from 0 urls s) = false.
Proof.
  intros Hst Hin0.
  assert (∀ kv, kv ∈ urls →
    tails_clash (string_tail (token kv0)) (token kv) = true ∧
    tails_clash (string_tail (token kv0)) kv.2 = true ∧
    tails_clash kv.2 (token kv0) = true) as Hall.
  { intros kv Hkv. unfold stable in Hst. rewrite forallb_forall in Hst.
    apply list_elem_of_In in Hin0, Hkv. specialize (Hst kv0 Hin0).
    rewrite forallb_forall in Hst. specialize (Hst kv Hkv).
    apply andb_true_iff in Hst as [[? ?]%andb_true_iff ?]. done. }
  destruct (token_length kv0) as (c0 & t0 & Ht0 & _).
  remember (String.length s) as n eqn:Hn. revert s Hn.
  induction (lt_wf n) as [n _ IH]. intros s ->.
  assert (∀ r, String.length r < String.length s →
    occursb (token kv0) (expand_from 0 urls r) = false) as IH'
    by (intros r Hr; by eapply IH).
  clear IH. destruct s as [|c s]; [by rewrite Ht0|].
  assert (∀ x r, String.length (x +:+ r) = String.length x + String.length r) as Hlen.
  { intros x r. induction x; simpl; [done|]. by f_equal. }
  destruct (List.find (matches (String c s)) urls) as [kv|] eqn:Hfind.
  - apply find_some_matches in Hfind as Hkv. destruct Hkv as [Hin Hm].
    apply prefix_true in Hm as [r Hr].
    rewrite (expand_from_match urls kv _ r Hr Hfind).
    rewrite occursb_text by apply (Hall kv Hin).
    apply IH'. rewrite Hr, Hlen. destruct (token_length kv) as (c1 & t1 & -> & _).
    simpl. lia.
  - rewrite expand_from_keep by done. cbn [occursb].
    rewrite IH' by (simpl; lia). rewrite orb_false_r.
    rewrite Ht0, prefix_cons. destruct (decide (c0 = c)) as [->|]; [|done].
    rewrite prefix_expand_from.
    + assert (matches (String c s) kv0 = false) as Hm.
      { destruct (matches (String c s) kv0) eqn:Hm; [|done].
        assert (Forall (λ kv, matches (String c s) kv = false) urls) as Hnone.
        { clear -Hfind. induction urls as [|kv urls IHu]; [done|]. simpl in Hfind.
          destruct (matches (String c s) kv) eqn:Hkv; [done|]. constructor; auto. }
        rewrite Forall_forall in Hnone. by rewrite (Hnone kv0 Hin0) in Hm. }
      unfold matches in Hm. rewrite Ht0, prefix_cons in Hm.
      by rewrite decide_True in Hm.
    + apply Forall_forall. intros kv Hkv. destruct (Hall kv Hkv) as (H1 & H2 & _).
      rewrite Ht0 in H1, H2. done.
Qed.

Lemma qUri_loop_is_expand (urls : list (string * string)) (s : string) :
  urls ≡ₚ RDF_NAMESPACES → qUri_loop urls s = expand s.
Proof.
  intros Hp. unfold expand.
  assert (urls ∈ permutations RDF_NAMESPACES) as Hin
    by (apply permutations_Permutation; by symmetry).
  symmetry in Hp.
  assert (exclusive RDF_NAMESPACES = true) as Hex by (vm_compute; reflexivity).
  rewrite (expand_from_perm RDF_NAMESPACES urls 0 s Hp Hex).
  let l := eval vm_compute in (permutations RDF_NAMESPACES) in
    change (permutations RDF_NAMESPACES) with l in Hin.
  rewrite !elem_of_cons in Hin.
  destruct Hin as [->|[->|[->|[->|[->|[->|Hin]]]]]];
    [apply qUri_loop_expand;
     [apply (bool_decide_unpack _); vm_compute; exact I | vm_compute; reflexivity]..|].
  by apply elem_of_nil in Hin.
Qed.

(** X10: in whatever order the namespaces are iterated, the text [qUri]
    returns contains no recognised prefix followed by a colon any more, so
    that [qUri] leaves its own results (full URIs of the three namespaces
    among them) unchanged. *)
Theorem qUri_idempotent (urls : list (string * string)) (s : string) :
  urls ≡ₚ RDF_NAMESPACES →
  (∀ kv, kv ∈ RDF_NAMESPACES → ¬ occurs (token kv) (qUri_loop urls s)) ∧
  qUri_in urls (qUri_loop urls s) = qUri_in urls s.
Proof.
  intros Hp.
  assert (∀ kv, kv ∈ RDF_NAMESPACES → ¬ occurs (token kv) (qUri_loop urls s)) as Hno.
  { intros kv Hkv Hocc. apply occurs_occursb in Hocc.
    rewrite (qUri_loop_is_expand urls s Hp) in Hocc. unfold expand in Hocc.
    rewrite expand_from_no_token in Hocc; [done| |done]. vm_compute. reflexivity. }
  split; [done|]. unfold qUri_in. f_equal.
  rewrite (qUri_loop_is_expand urls (qUri_loop urls s) Hp).
  by apply expand_from_unchanged.
Qed.

End Stability.

(** * Witnesses on the sample data *)

#[local] Existing Instance sample_PyFloat.

(** A parser made by [from_string] meets the two conditions of C9. *)
Lemma parse_needs_name_or_base_uri_witness :
  (Parser_parse sample_env (ParseKwargs None false None None) (from_string "")).2
    = Raise (AttributeError "name") ∧
  (Parser_parse sample_env (ParseKwargs None false None (Some (Uri "http://localhost/")))
     (from_string "")).2 = Ok ().
Proof.
  pose proof (parse_needs_name_or_base_uri sample_env
                (ParseKwargs None false None None) (from_string "")) as H1.
  pose proof (parse_needs_name_or_base_uri sample_env
                (ParseKwargs None false None (Some (Uri "http://localhost/")))
                (from_string "")) as H2.
  split.
  - apply H1; [repeat split; auto | reflexivity | reflexivity].
  - apply (proj2 (H2 ltac:(repeat split; auto) eq_refl) (Uri "http://localhost/") []);
      reflexivity.
Defined.

Lemma missing_record_asymmetry_witness :
  parse_children 1 ∅ ∅ "node1" = Ok [] ∧
  new_clade ∅ "node1" = Raise (KeyError "node1").
Proof.
  pose proof (missing_record_asymmetry 0 ∅ ∅ "node1") as [H1 H2].
  split; [apply H1; reflexivity | apply H2; reflexivity].
Defined.

Lemma edge_length_written_without_length_witness :
  edge_length_statements
    (clade_statements (sample_clade (Some "A") None []) (Some "node1") false
       (Writer_init [])).1.1
  = [ Statement (nUri "" "edge_annotation1") (qUri "rdf:type") (qUri "cdao:EdgeLength");
      Statement (nUri "" "edge1") (qUri "cdao:has_annotation") (nUri "" "edge_annotation1");
      Statement (nUri "" "edge_annotation1") (qUri "cdao:has_value") (Literal "None") ].
Proof.
  exact (proj1 (edge_length_written_without_length (sample_clade (Some "A") None [])
                  "node1" false (Writer_init []) eq_refl)).
Defined.

Lemma ontology_statement_once_witness :
  ∃ w', add_trees_to_model sample_env (Some [Tree sample_tree false])
          "http://localhost/" (Writer_init []) = Ok w' ∧
        ∃ per_tree, model w' = Some (ontology_statement :: per_tree) ∧
                    ontology_statement ∉ per_tree.
Proof.
  destruct (ontology_statement_once sample_env (Some [Tree sample_tree false])
              "http://localhost/" (Writer_init []) eq_refl eq_refl (or_intror eq_refl))
    as (w' & Hok & Hmodel & Hnotin).
  exists w'. split; [exact Hok|]. eexists. split; [exact Hmodel|exact Hnotin].
Defined.

Lemma qUri_expands_witness :
  qUri_in (reverse RDF_NAMESPACES) "foaf:name" = Uri (expand "foaf:name") ∧
  qUri_in (reverse RDF_NAMESPACES) "foaf:name" = Uri "foaf:name".
Proof.
  destruct (qUri_expands (reverse RDF_NAMESPACES) "foaf:name"
              (reverse_Permutation RDF_NAMESPACES)) as [Hexp Hsame].
  split; [exact Hexp|]. apply Hsame.
  intros kv Hkv Hocc. apply occurs_occursb in Hocc.
  unfold RDF_NAMESPACES in Hkv. rewrite !elem_of_cons in Hkv.
  destruct Hkv as [->|[->|[->|Hkv]]]; [discriminate Hocc..|].
  by apply elem_of_nil in Hkv.
Defined.

Lemma sample_float_round_trip : float_round_trip (@eq sample_float).
Proof. intros x. exists x. by destruct x. Qed.

Lemma round_trip_witness :
  let m := (process_clade sample_tree None true (Writer_init [])).1 in
  ∃ c', parse_model sample_env 2 (Some false) (node_query m) (root_query m)
        = ([Tree c' false], None) ∧
        similar eq true sample_tree c'.
Proof.
  intros m.
  destruct (round_trip eq sample_env 2 false sample_tree (Writer_init [])
              sample_float_round_trip eq_refl eq_refl (le_n 2)) as [_ Hall].
  apply Hall. exists (node_query m), (root_query m).
  split; [apply Permutation_refl|]. split; [apply Permutation_refl|]. reflexivity.
Defined.

(** C1, as stated, fails in three ways: a clade other than the root
    without branch length is written with the value [None], which the
    parser cannot read as a float; the branch length of the root is not
    written and does not come back; an empty name is not written and comes
    back absent. *)
Lemma round_trip_counterexample :
  let parse c :=
    let m := (process_clade c None true (Writer_init [])).1 in
    parse_model sample_env 5 (Some false) (node_query m) (root_query m) in
  parse (sample_clade None None [sample_clade (Some "A") None []])
    = ([], Some (ValueError "None")) ∧
  parse (sample_clade None (Some F1_0) [])
    = ([Tree (sample_clade None None []) false], None) ∧
  parse (sample_clade (Some "") None [])
    = ([Tree (sample_clade None None []) false], None).
Proof. vm_compute. repeat split. Qed.

(** An environment without the Redland bindings. *)
Definition env_without_redland : redland :=
  Redland false true true (λ _, true) (λ _ _ _, Ok []) (λ _ _ _, Ok "") id.

Lemma redland_missing_fails_everywhere_witness :
  write env_without_redland [Tree sample_tree false] "" (WriteKwargs None None)
    = Raise redland_required ∧
  parse_model env_without_redland 5 (Some false) [] [Uri "node1"]
    = ([], Some redland_required).
Proof.
  destruct (redland_missing_fails_everywhere env_without_redland eq_refl)
    as (_ & _ & Hparse & _ & _ & _ & Hwrite).
  split; [apply Hwrite|apply Hparse].
Defined.

Lemma parse_handle_to_model_succeeds_iff_witness :
  let kw := ParseKwargs None false None (Some (Uri "http://localhost/")) in
  (parse_handle_to_model sample_env kw (from_string "")).2 = Ok () ∧
  p_rooted (parse_handle_to_model sample_env kw (from_string "")).1 = Some false.
Proof.
  intros kw.
  destruct (parse_handle_to_model_succeeds_iff sample_env kw (from_string ""))
    as [Hiff Hstate].
  assert (parse_ready sample_env kw (from_string "")) as Hready
    by (repeat split; auto).
  split.
  - apply Hiff. split; [exact Hready|].
    exists (Uri "http://localhost/"), []. split; reflexivity.
  - apply (Hstate (Uri "http://localhost/") [] Hready eq_refl eq_refl).
Defined.

Lemma parse_model_without_rooted_witness :
  (parse_model sample_env 5 None [] [Uri "node1"]).2 ≠ None.
Proof.
  apply (parse_model_without_rooted sample_env 5 [] [Uri "node1"]). discriminate.
Defined.

Lemma parse_children_self_parent_witness :
  ∃ e, parse_children 5 (∅ : gmap string node_record) {["node1" := ["node1"]]} "node1"
       = Raise e.
Proof.
  apply (parse_children_self_parent ∅ {["node1" := ["node1"]]} "node1" 5).
  rewrite lookup_singleton_eq. left.
Defined.

Lemma serialize_model_counts_trees_witness :
  ∃ w', add_trees_to_model sample_env None "" (Writer_init [Tree sample_tree false]) = Ok w' ∧
        serialize_model sample_env "" "text/turtle" w' = Ok ("", 1).
Proof.
  eexists. split; [reflexivity|].
  apply (serialize_model_counts_trees sample_env [Tree sample_tree false]
           "" "" "text/turtle" ""); reflexivity.
Defined.

Lemma round_trip_fails_without_length_witness :
  let m := (process_clade (sample_clade None None [sample_clade (Some "A") None []])
              None true (Writer_init [])).1 in
  parse_model sample_env 5 (Some false) (node_query m) (root_query m)
    = ([], Some (ValueError "None")).
Proof.
  intros m.
  apply (round_trip_fails_without_length eq sample_env 5 (Some false)
           (sample_clade None None [sample_clade (Some "A") None []]) (Writer_init [])
           _ sample_float_round_trip eq_refl eq_refl eq_refl).
  exists (node_query m), (root_query m).
  split; [apply Permutation_refl|]. split; [apply Permutation_refl|]. reflexivity.
Defined.

Lemma qUri_idempotent_witness :
  qUri_in (reverse RDF_NAMESPACES) (qUri_loop (reverse RDF_NAMESPACES) "rdf:type")
    = qUri_in (reverse RDF_NAMESPACES) "rdf:type".
Proof.
  exact (proj2 (qUri_idempotent (reverse RDF_NAMESPACES) "rdf:type"
                  (reverse_Permutation RDF_NAMESPACES))).
Defined.

Lemma batch_round_trip_witness :
  let ts := [Tree sample_tree false; Tree (sample_clade (Some "C") None []) true] in
  ∃ w' m,
    add_trees_to_model sample_env (Some ts) "http://localhost/" (Writer_init []) = Ok w' ∧
    model w' = Some m ∧
    ∃ cs,
      (parse_model sample_env 2 (Some true) (node_query m) (root_query m)).2 = None ∧
      root <$> ts ≡ₚ cs ∧
      Forall2 (λ c tr, rooted tr = true ∧ similar eq true c (root tr)) cs
        (parse_model sample_env 2 (Some true) (node_query m) (root_query m)).1.
Proof.
  intros ts.
  destruct (add_trees_to_model sample_env (Some ts) "http://localhost/" (Writer_init []))
    as [w'|e] eqn:Hadd; [|vm_compute in Hadd; discriminate Hadd].
  assert (Forall (λ t, children_have_lengths (root t) = true ∧ height (root t) ≤ 2) ts)
    as Hts.
  { subst ts. forall_list; (split; [reflexivity | vm_compute; lia]). }
  destruct (batch_round_trip eq sample_env 2 true ts "http://localhost/" (Writer_init [])
              w' sample_float_round_trip eq_refl Hts Hadd) as (m & Hm & _ & Hall).
  exists w', m. split; [first [reflexivity | exact Hadd]|]. split; [exact Hm|].
  apply Hall. exists (node_query m), (root_query m).
  split; [apply Permutation_refl|]. split; [apply Permutation_refl|]. reflexivity.
Defined.

Definition sample_rows : list node_row :=
  [ NodeRow (Uri "node1") None None None;
    NodeRow (Uri "node2") (Some (Uri "node1")) (Some (Literal "1.0")) (Some (Literal "A"));
    NodeRow (Uri "node2") (Some (Uri "node1")) (Some (Literal "1.0")) (Some (Literal "B")) ].

Lemma get_node_info_children_known_witness :
  ∃ info par,
    get_node_info sample_rows = Ok (info, par) ∧
    ∀ p ch, ch ∈ default [] (par !! p) → is_Some (info !! ch).
Proof.
  destruct (get_node_info sample_rows) as [[info par]|e] eqn:Hrows;
    [|vm_compute in Hrows; discriminate Hrows].
  exists info, par. split; [first [reflexivity | exact Hrows]|].
  apply (get_node_info_children_known sample_rows info par Hrows).
Defined.

Lemma parse_model_trees_witness :
  let out := parse_model sample_env 2 (Some true) sample_rows [Uri "node1"] in
  length out.1 = 1 ∧ Forall (λ t, Some true = Some (rooted t)) out.1.
Proof.
  intros out.
  destruct (parse_model_trees sample_env 2 (Some true) sample_rows [Uri "node1"])
    as (_ & Hlen & Hall).
  split; [apply Hlen; reflexivity|exact Hall].
Defined.

Lemma add_trees_to_model_again_witness :
  let ts := [Tree sample_tree false] in
  ∃ w1 w2,
    add_trees_to_model sample_env None "" (Writer_init ts) = Ok w1 ∧
    add_trees_to_model sample_env None "" w1 = Ok w2 ∧
    tree_counter w2 = 2.
Proof.
  intros ts.
  destruct (add_trees_to_model sample_env None "" (Writer_init ts)) as [w1|e] eqn:Hadd1;
    [|vm_compute in Hadd1; discriminate Hadd1].
  destruct (add_trees_to_model sample_env None "" w1) as [w2|e] eqn:Hadd2.
  - exists w1, w2. split; [first [reflexivity | exact Hadd1]|]. split; [first [reflexivity | exact Hadd2]|].
    apply (add_trees_to_model_again sample_env None None "" (Writer_init ts) w1 w2
             eq_refl Hadd1 Hadd2).
  - exfalso. vm_compute in Hadd1. injection Hadd1 as <-. vm_compute in Hadd2.
    discriminate Hadd2.
Defined.

Lemma get_node_info_tables_witness :
  ∃ info par,
    get_node_info sample_rows = Ok (info, par) ∧
    default [] (par !! "node1") = ["node2"; "node2"] ∧
    info !! "node2" = Some (@NodeRecord sample_PyFloat (Some "B") (Some F1_0)).
Proof.
  destruct (get_node_info_tables sample_rows
              [ ("node1", @NodeRecord sample_PyFloat None None);
                ("node2", @NodeRecord sample_PyFloat (Some "A") (Some F1_0));
                ("node2", @NodeRecord sample_PyFloat (Some "B") (Some F1_0)) ])
    as (info & par & Hrun & Hpar & Hinfo).
  { unfold sample_rows. do 3 (apply List.Forall2_cons; [reflexivity|]).
    apply List.Forall2_nil. }
  exists info, par. split; [exact Hrun|]. split.
  - rewrite Hpar. reflexivity.
  - rewrite Hinfo. reflexivity.
Defined.

Lemma has_Parent_comes_with_edge_witness :
  let out := (process_clade sample_tree None true (Writer_init [])).1 in
  ∃ e a v, edge_block e (Uri "node2") (Uri "node1") a v ⊆ out.
Proof.
  intros out.
  apply (has_Parent_comes_with_edge sample_tree None true (Writer_init [])).
  vm_compute. repeat first [apply list_elem_of_here | apply list_elem_of_further].
Defined.
